(** * Sunshine-list pipeline: canonicalisation, identity linkage, cohort metrics

  A shallow embedding of the Python scripts under [API/scripts]:
  - [normalize_employers.py], [normalize_jobs.py]: [normalize_string],
    [infer_family] and the steps of [main];
  - [link_persons.py]: [fast_link_persons];
  - [generate_analytics_complex.py]: [generate_employer_metrics];
  - [generate_analytics_basic.py]: [generate_top_earners];
  - [generate_analytics_sector.py]: the sector key;
  - [generate_alias_suggestions.py]: [normalize_for_comparison],
    [find_similar_employers];
  - [validate_data.py]: the four checks and the issue counts;
  - [ingest.py]: [clean_currency], [process_file] and the module-level loop;
  - [run_pipeline.py]: [run_stage] and [main].

  Data frames are lists of records, in row order.  Python [str] values are
  modelled as lists of 8-bit characters ([ascii]) and the texts are ASCII
  texts: the character classes, [upper], [lower] and [title] are those of
  Python on ASCII characters.  A float is a rational number, an infinity
  or NaN. *)

From Stdlib Require Import List Bool Arith ZArith QArith Lia.
From Stdlib Require Import Ascii String DecimalString.
From Stdlib Require Import DecimalNat Permutation Sorted.
Import ListNotations.

Set Implicit Arguments.

(** ** Python string primitives *)

Module PyStr.

Definition chars := list ascii.

Definition code (c : ascii) : nat := nat_of_ascii c.

Definition in_range (lo hi : nat) (c : ascii) : bool :=
  (lo <=? code c) && (code c <=? hi).

(** [A-Z], [0-9] and [a-z]. *)
Definition is_AZ : ascii -> bool := in_range 65 90.
Definition is_digit : ascii -> bool := in_range 48 57.
Definition is_az : ascii -> bool := in_range 97 122.

(** Whitespace as [str.split()], [str.strip()] and the regex class [\s]
    see it in ASCII text: TAB LF VT FF CR, the separators 0x1c-0x1f, and
    the space. *)
Definition is_space (c : ascii) : bool :=
  in_range 9 13 c || in_range 28 32 c.

Definition space : ascii := " "%char.

(** [str.upper()] on ASCII text, character by character. *)
Definition upper_char (c : ascii) : ascii :=
  if is_az c then ascii_of_nat (code c - 32) else c.

Definition upper (s : chars) : chars := map upper_char s.

(** [re.sub(r'[^...]', '', s)] for a character class given as the
    predicate [keep] of the characters the class lets through. *)
Definition re_sub_drop (keep : ascii -> bool) (s : chars) : chars :=
  filter keep s.

(** [s.split()]: the maximal runs of non-whitespace characters. *)
Fixpoint split (s : chars) : list chars :=
  match s with
  | [] => []
  | c :: r =>
      if is_space c then split r
      else match r with
           | [] => [[c]]
           | d :: _ =>
               if is_space d then [c] :: split r
               else match split r with
                    | w :: ws => (c :: w) :: ws
                    | [] => [[c]]
                    end
           end
  end.

(** [" ".join(ws)]. *)
Fixpoint join (ws : list chars) : chars :=
  match ws with
  | [] => []
  | [w] => w
  | w :: ws' => w ++ space :: join ws'
  end.

Fixpoint starts_with (p s : chars) : bool :=
  match p, s with
  | [], _ => true
  | _ :: _, [] => false
  | a :: p', b :: s' => Ascii.eqb a b && starts_with p' s'
  end.

(** [s.replace(old, new)] for a non-empty [old]: occurrences are found
    left to right and do not overlap; the replaced text is not scanned
    again.  [skip] counts the characters of a matched occurrence that are
    still to be passed over. *)
Fixpoint replace_from (old new : chars) (skip : nat) (s : chars) : chars :=
  match s with
  | [] => []
  | c :: r =>
      match skip with
      | S k => replace_from old new k r
      | O =>
          if starts_with old s
          then new ++ replace_from old new (List.length old - 1) r
          else c :: replace_from old new 0 r
      end
  end.

Definition replace (old new s : chars) : chars := replace_from old new 0 s.

(** [s.strip()]. *)
Fixpoint lstrip (s : chars) : chars :=
  match s with
  | c :: r => if is_space c then lstrip r else s
  | [] => []
  end.

Definition rstrip (s : chars) : chars := rev (lstrip (rev s)).

Definition strip (s : chars) : chars := rstrip (lstrip s).

Definition of_string (s : string) : chars := list_ascii_of_string s.
Definition to_string (s : chars) : string := string_of_list_ascii s.

(** A word as [split] yields them: non-empty and free of whitespace. *)
Definition wordy (w : chars) : Prop :=
  w <> [] /\ Forall (fun c => is_space c = false) w.

(** Single-spaced, trimmed text: what [" ".join(s.split())] returns. *)
Definition single_spaced (s : chars) : Prop :=
  exists ws, Forall wordy ws /\ s = join ws.

(** *** Vocabulary of the statements *)

(** [old in s]: [old] occurs in [s] as a substring ([old] non-empty). *)
Fixpoint occurs (old s : chars) : bool :=
  match s with
  | [] => false
  | _ :: r => starts_with old s || occurs old r
  end.

(** Single-spaced, trimmed text, read off the characters: the text is
    empty or starts with a character that is no whitespace, and every
    whitespace character in it is one space followed by more such
    text. *)
Fixpoint tidy (s : chars) : bool :=
  match s with
  | [] => true
  | c :: r =>
      negb (is_space c) &&
      match r with
      | [] => true
      | d :: r' =>
          if is_space d
          then Ascii.eqb d space
               && match r' with [] => false | _ :: _ => tidy r' end
          else tidy r
      end
  end.

(** The two texts of [s.replace(' / ', '/')]. *)
Definition spaced_slash : chars := of_string " / ".

Definition slash : chars := of_string "/".

End PyStr.

(** ** [normalize_employers.py] *)

Module normalize_employers.
Import PyStr.

(** The class [A-Z0-9\s-] of the pattern [[^A-Z0-9\s-]]. *)
Definition keep (c : ascii) : bool :=
  is_AZ c || is_digit c || is_space c || Ascii.eqb c "-"%char.

Definition normalize_chars (s : chars) : chars :=
  let s := upper s in
  let s := re_sub_drop keep s in
  join (split s).

(** [normalize_string] on a [str] argument. *)
Definition normalize_string (s : string) : string :=
  to_string (normalize_chars (of_string s)).

(** The argument as Python passes it: any object; a non-[str] one gives
    the empty string. *)
Inductive pyarg := Str (s : string) | NotStr.

Definition normalize_string_any (x : pyarg) : string :=
  match x with
  | NotStr => ""%string
  | Str s => normalize_string s
  end.

(** The alias table [dict(zip(aliases['raw'], aliases['canonical']))]: the
    keys in the order they first occur; a later row of the file replaces
    the value of an earlier row with the same raw text.  The rows are
    those of an alias file that has a text in both columns of every
    row. *)
Definition dict := list (string * string).

Fixpoint dict_set (k v : string) (d : dict) : dict :=
  match d with
  | [] => [(k, v)]
  | (k', v') :: t =>
      if String.eqb k' k then (k', v) :: t else (k', v') :: dict_set k v t
  end.

Definition dict_zip (rows : list (string * string)) : dict :=
  fold_left (fun d kv => dict_set (fst kv) (snd kv) d) rows [].

(** [alias_map.get(k)] *)
Definition dict_get (d : dict) (k : string) : option string :=
  option_map snd (find (fun kv => String.eqb (fst kv) k) d).

(** Steps 1 to 3 of [main] for one value of the [employer] column:
    [employer_clean], the alias of the raw text where the alias file exists
    and lists it, and the final [normalize_string].  [aliases] is [None]
    when the alias file does not exist. *)
Definition employer_clean (employer : string) : string :=
  normalize_string employer.

Definition employer_canonical (aliases : option (list (string * string)))
    (employer : string) : string :=
  let mapped :=
    match aliases with
    | Some rows =>
        match dict_get (dict_zip rows) employer with
        | Some c => c
        | None => employer_clean employer
        end
    | None => employer_clean employer
    end in
  normalize_string mapped.

(** [drop_duplicates()] of a column of strings, the first occurrence
    kept. *)
Fixpoint drop_duplicates_from (seen : list string) (l : list string) : list string :=
  match l with
  | [] => []
  | x :: t =>
      if existsb (String.eqb x) seen then drop_duplicates_from seen t
      else x :: drop_duplicates_from (x :: seen) t
  end.

Definition drop_duplicates (l : list string) : list string :=
  drop_duplicates_from [] l.

(** [left.merge(right, on=key, how='left')] where the left table is its key
    column and the right table pairs keys with values: every left row, once
    per right row of its key, with a missing value when there is none. *)
Definition merge_left (A : Type) (left : list string) (right : list (string * A))
  : list (string * option A) :=
  flat_map (fun k =>
    match filter (fun kv => String.eqb (fst kv) k) right with
    | [] => [(k, None)]
    | ms => map (fun kv => (k, Some (snd kv))) ms
    end) left.

Section Ids.

(** [int(hashlib.md5(x.encode('utf-8')).hexdigest()[:8], 16)]: the hash is
    taken as given. *)
Variable md5_id : string -> Z.

(** Step 4 of [main]: the dimension table [unique_employers], and the
    [employer_id] column after the merge. *)
Definition unique_employers (canonicals : list string) : list (string * Z) :=
  map (fun c => (c, md5_id c)) (drop_duplicates canonicals).

Definition with_employer_id (canonicals : list string) : list (string * option Z) :=
  merge_left canonicals (unique_employers canonicals).

End Ids.

(** *** Vocabulary of the statements *)

(** The boilerplate tokens of the employer rule of the specification. *)
Definition boilerplate : list string :=
  ["INC"; "LTD"; "LIMITED"; "CORP"; "CORPORATION"; "THE"; "OF"; "AND"]%string.

Definition words_of (t : string) : list string :=
  map to_string (split (of_string t)).

(** The employer rule of the specification, as a property of a normalized
    text: no word is a boilerplate token and every character is an
    uppercase letter, a digit or whitespace. *)
Definition spec_employer_form (t : string) : Prop :=
  (forall w, In w (words_of t) -> ~ In w boilerplate) /\
  Forall (fun c => is_AZ c || is_digit c || is_space c = true) (of_string t).

End normalize_employers.

(** ** [normalize_jobs.py] *)

Module normalize_jobs.
Import PyStr.

(** The class [A-Z0-9\s/] of the pattern [[^A-Z0-9\s/]]. *)
Definition keep (c : ascii) : bool :=
  is_AZ c || is_digit c || is_space c || Ascii.eqb c "/"%char.

Definition normalize_chars (s : chars) : chars :=
  let s := upper s in
  let s := replace (of_string " / ") (of_string "/") s in
  let s := replace (of_string " - ") (of_string " ") s in
  let s := replace (of_string ",") (of_string " ") s in
  let s := re_sub_drop keep s in
  join (split s).

Definition normalize_string (s : string) : string :=
  to_string (normalize_chars (of_string s)).

(** [str.lower()], character by character. *)
Definition lower_char (c : ascii) : ascii :=
  if is_AZ c then ascii_of_nat (code c + 32) else c.

Definition lower (s : chars) : chars := map lower_char s.

(** [sub in t] for a non-empty [sub]. *)
Fixpoint contains (sub t : chars) : bool :=
  match t with
  | [] => false
  | _ :: r => starts_with sub t || contains sub r
  end.

Definition infer_family (title : string) : string :=
  let t := lower (of_string title) in
  let has := fun (k : string) => contains (of_string k) t in
  (if has "professor" then "Academic"
   else if has "teacher" || has "principal" then "Education"
   else if has "nurse" then "Medical"
   else if has "physician" || has "doctor" then "Medical"
   else if has "police" || has "constable" || has "detective" then "Police"
   else if has "firefighter" then "Fire"
   else if has "engineer" then "Engineering"
   else if has "director" then "Management"
   else if has "manager" then "Management"
   else "Other")%string.

(** Steps 1 and 2 of [main] for one value of the [job_title] column;
    [aliases] is [None] when the alias file does not exist. *)
Definition job_clean (job_title : string) : string :=
  normalize_string job_title.

Definition job_canonical (aliases : option (list (string * string)))
    (job_title : string) : string :=
  let mapped :=
    match aliases with
    | Some rows =>
        match normalize_employers.dict_get (normalize_employers.dict_zip rows)
                job_title with
        | Some c => c
        | None => job_clean job_title
        end
    | None => job_clean job_title
    end in
  normalize_string mapped.

(** Step 3 of [main]. *)
Definition job_family (aliases : option (list (string * string)))
    (job_title : string) : string :=
  infer_family (job_canonical aliases job_title).

End normalize_jobs.


(** ** Floats with their special values

    A pandas float column holds finite numbers, the two infinities and NaN
    (which also stands for a missing value).  Finite numbers are modelled as
    rationals, so rounding and overflow are left out; division by zero and the arithmetic
    of the special values follow IEEE 754 as NumPy applies it (no exception
    is raised). *)

Module PyFloat.

Inductive float := Fin (q : Q) | PInf | NInf | NaN.

Definition notna (x : float) : bool :=
  match x with NaN => false | _ => true end.

Definition isfinite (x : float) : bool :=
  match x with Fin _ => true | _ => false end.

Definition fneg (x : float) : float :=
  match x with
  | Fin q => Fin (- q)
  | PInf => NInf
  | NInf => PInf
  | NaN => NaN
  end.

Definition fadd (x y : float) : float :=
  match x, y with
  | NaN, _ | _, NaN => NaN
  | Fin a, Fin b => Fin (a + b)
  | PInf, NInf | NInf, PInf => NaN
  | PInf, _ | _, PInf => PInf
  | NInf, _ | _, NInf => NInf
  end.

Definition fsub (x y : float) : float := fadd x (fneg y).

(** The sign of a finite number, zero counting as positive (a sum of
    non-negative amounts is [+0.0]). *)
Definition nonneg (q : Q) : bool := Qle_bool 0 q.

(** [x / y] on float arrays: a finite non-zero number over zero is an
    infinity, zero over zero is NaN. *)
Definition fdiv (x y : float) : float :=
  match x, y with
  | NaN, _ | _, NaN => NaN
  | Fin a, Fin b =>
      if Qeq_bool b 0 then
        match a ?= 0 with
        | Gt => PInf
        | Lt => NInf
        | Eq => NaN
        end
      else Fin (a / b)
  | Fin _, _ => Fin 0
  | PInf, Fin b => if nonneg b then PInf else NInf
  | NInf, Fin b => if nonneg b then NInf else PInf
  | _, _ => NaN
  end.

(** The order of the non-NaN values. *)
Definition fle (x y : float) : bool :=
  match x, y with
  | NInf, _ => true
  | _, PInf => true
  | Fin a, Fin b => Qle_bool a b
  | _, _ => false
  end.

Fixpoint insert_sorted (x : float) (l : list float) : list float :=
  match l with
  | [] => [x]
  | y :: t => if fle x y then x :: l else y :: insert_sorted x t
  end.

Definition sort (l : list float) : list float := fold_right insert_sorted [] l.

(** [Series.median()] with [skipna]: NaN entries are left out; the middle
    value of the sorted rest, the mean of the two middle values for an even
    count, NaN when nothing is left. *)
Definition median (l : list float) : float :=
  let v := sort (filter notna l) in
  let n := List.length v in
  match n with
  | O => NaN
  | _ =>
      if Nat.odd n then nth (n / 2) v NaN
      else fdiv (fadd (nth (n / 2 - 1) v NaN) (nth (n / 2) v NaN)) (Fin 2)
  end.

End PyFloat.

(** ** [link_persons.py] *)

Module link_persons.
Import PyStr.

(** A row of the enriched staging table, with the columns the linker reads
    (the other columns are carried along unchanged). *)
Record row := {
  first_name : string;
  last_name : string;
  employer_id : Z;
  job_family : string;
  year : Z;
  total_comp : Q
}.

(** A row after steps 1 and 2: with [name_clean] and [name_freq]. *)
Record named := {
  base : row;
  name_clean : string;
  name_freq : nat
}.

(** A row of the result: with [match_confidence] and [person_id]. *)
Record linked := {
  src : named;
  match_confidence : string;
  person_id : string
}.

(** [(first_name + " " + last_name).astype(str).str.upper().str.strip()] *)
Definition clean_name (r : row) : string :=
  to_string (strip (upper (of_string (first_name r ++ " " ++ last_name r)))).

Definition count_name (names : list string) (n : string) : nat :=
  List.length (filter (String.eqb n) names).

Definition with_names (df : list row) : list named :=
  let names := map clean_name df in
  map (fun r => {| base := r;
                   name_clean := clean_name r;
                   name_freq := count_name names (clean_name r) |}) df.

(** The order of [sort_values(by=['name_clean', 'year', 'total_comp'])]:
    lexicographic on the three columns. *)
Definition key_leb (a b : named) : bool :=
  match String.compare (name_clean a) (name_clean b) with
  | Lt => true
  | Gt => false
  | Eq =>
      match Z.compare (year (base a)) (year (base b)) with
      | Lt => true
      | Gt => false
      | Eq => Qle_bool (total_comp (base a)) (total_comp (base b))
      end
  end.

(** The sort on several columns is pandas' lexsort, which is stable: rows
    with equal keys keep their order. *)
Fixpoint insert_row (r : named) (l : list named) : list named :=
  match l with
  | [] => [r]
  | x :: t => if key_leb r x then r :: l else x :: insert_row r t
  end.

Definition sort_values (df : list named) : list named :=
  fold_right insert_row [] df.

(** [Series.shift(1)]: every value moves one row down, the first row gets
    a missing value. *)
Definition shift1 (A : Type) (l : list A) : list (option A) :=
  firstn (List.length l) (None :: map Some l).

(** [col == prev_col], row by row; a missing value equals nothing. *)
Definition eq_prev (A : Type) (eqb : A -> A -> bool) (xp : A * option A) : bool :=
  match snd xp with
  | Some p => eqb (fst xp) p
  | None => false
  end.

(** [year - prev_year]; missing on the first row. *)
Definition diff_prev (xp : Z * option Z) : option Z :=
  option_map (fun p => fst xp - p)%Z (snd xp).

(** [year_diff <= 2]; false on a missing value. *)
Definition le2 (d : option Z) : bool :=
  match d with
  | Some d => (d <=? 2)%Z
  | None => false
  end.

Definition and3 (x : bool * bool * bool) : bool :=
  let '(a, b, c) := x in a && b && c.

Definition should_link (df : list named) : list bool :=
  let names := map name_clean df in
  let emps := map (fun r => employer_id (base r)) df in
  let years := map (fun r => year (base r)) df in
  let name_match := map (eq_prev String.eqb) (combine names (shift1 names)) in
  let emp_match := map (eq_prev Z.eqb) (combine emps (shift1 emps)) in
  let year_diff := map diff_prev (combine years (shift1 years)) in
  map and3 (combine (combine name_match emp_match) (map le2 year_diff)).

(** [Series.cumsum()] of a boolean column. *)
Fixpoint cumsum_from (acc : nat) (l : list bool) : list nat :=
  match l with
  | [] => []
  | b :: t =>
      let acc' := (acc + if b then 1 else 0)%nat in
      acc' :: cumsum_from acc' t
  end.

Definition cumsum (l : list bool) : list nat := cumsum_from 0 l.

Definition person_group_id (df : list named) : list nat :=
  cumsum (map negb (should_link df)).

(** [astype(str)] of a non-negative integer. *)
Definition str (n : nat) : string := NilEmpty.string_of_uint (Nat.to_uint n).

Definition fast_link_persons (df : list row) : list linked :=
  let df := sort_values (with_names df) in
  map (fun rg => {| src := fst rg;
                    match_confidence := "High";
                    person_id := str (snd rg) |})
      (combine df (person_group_id df)).

(** The scan order the linker works in. *)
Definition scan_order (df : list row) : list named :=
  sort_values (with_names df).

(** The decision at one row, given the row before it in scan order. *)
Definition links_to (prev : option named) (r : named) : bool :=
  match prev with
  | None => false
  | Some p =>
      String.eqb (name_clean r) (name_clean p)
      && Z.eqb (employer_id (base r)) (employer_id (base p))
      && (year (base r) - year (base p) <=? 2)%Z
  end.

(** A chain start: a row that does not link to the row before it. *)
Definition chain_start (l : list named) (i : nat) : bool :=
  match nth_error l i with
  | None => false
  | Some r =>
      negb (links_to (match i with O => None | S j => nth_error l j end) r)
  end.

Definition chain_starts_upto (l : list named) (i : nat) : nat :=
  List.length (filter (chain_start l) (seq 0 (S i))).

(** *** Vocabulary of the statements and sample tables *)

Fixpoint links_from (prev : option named) (l : list named) : list bool :=
  match l with
  | [] => []
  | r :: t => links_to prev r :: links_from (Some r) t
  end.

Definition group_ids_from (acc : nat) (prev : option named) (l : list named) : list nat :=
  cumsum_from acc (map negb (links_from prev l)).

(** Rows of one group id agree on name key and employer; [P p r] says so
    for two rows. *)
Definition same_identity (a b : named) : Prop :=
  name_clean a = name_clean b /\ employer_id (base a) = employer_id (base b).

Definition key_le (a b : named) : Prop := key_leb a b = true.

Definition smith (e y : Z) (c : Q) : row :=
  {| first_name := "John"; last_name := "Smith"; employer_id := e;
     job_family := "Other"; year := y; total_comp := c |}.

(** Three rows of one name: the first and the last share the employer and
    lie two years apart, the row between them has another employer. *)
Definition interleaved : list row :=
  [smith 1 2000 100000; smith 2 2001 100000; smith 1 2002 100000].

(** Three rows of one name and one employer, two years apart each: the
    first and the last lie four years apart. *)
Definition every_other_year : list row :=
  [smith 1 2000 100000; smith 1 2002 100000; smith 1 2004 100000].

(** The end-to-end scenario of two rows, two years apart, same employer. *)
Definition two_years_apart : list row :=
  [smith 1 1996 125000; smith 1 1998 136000].

(** A row with its job family replaced. *)
Definition set_job_family (g : row -> string) (r : row) : row :=
  {| first_name := first_name r;
     last_name := last_name r;
     employer_id := employer_id r;
     job_family := g r;
     year := year r;
     total_comp := total_comp r |}.

Definition on_base (h : row -> row) (n : named) : named :=
  {| base := h (base n); name_clean := name_clean n; name_freq := name_freq n |}.

(** John Smith next to a name that occurs once. *)
Definition with_single_name : list row :=
  [smith 1 2000 100000;
   {| first_name := "Ann"; last_name := "Lee"; employer_id := 1;
      job_family := "Other"; year := 2000; total_comp := 100000 |}].

End link_persons.

(** ** [generate_analytics_complex.py] *)

Module analytics.
Import PyFloat.

(** A row of the fact table, with the columns the employer metrics read.
    [total_comp] is a float column: it is NaN where the raw file had no
    amount, and it can be an infinity. *)
Record fact := {
  year : Z;
  person_id : string;
  employer_id : Z;
  total_comp : float
}.

(** [sorted(col.unique())]; also the key order of a [groupby]. *)
Fixpoint insert_uniq (x : Z) (l : list Z) : list Z :=
  match l with
  | [] => [x]
  | y :: t =>
      match (x ?= y)%Z with
      | Lt => x :: l
      | Eq => l
      | Gt => y :: insert_uniq x t
      end
  end.

Definition sorted_unique (l : list Z) : list Z := fold_right insert_uniq [] l.

Definition years (df : list fact) : list Z := sorted_unique (map year df).

Definition employers (df : list fact) : list Z :=
  sorted_unique (map employer_id df).

Definition in_year (y : Z) (r : fact) : bool := (year r =? y)%Z.

Definition of_employer (e : Z) (r : fact) : bool := (employer_id r =? e)%Z.

(** One row of [pay_stats]: the group key and the aggregates of
    [total_comp] (the quantiles p50 to p99 sit in the same row and take no
    part in the retention and growth fields). *)
Record pay_stat := {
  ps_employer : Z;
  ps_year : Z;
  headcount : Z;
  mean_pay : float
}.

Definition count (A : Type) (g : list A) : Z := Z.of_nat (List.length g).

(** The values an aggregate of [total_comp] reads: those that are not
    NaN. *)
Definition valid (g : list fact) : list float :=
  filter notna (map total_comp g).

Definition fsum (l : list float) : float := fold_left fadd l (Fin 0).

(** The aggregate ['mean']: NaN when the group has no value. *)
Definition mean (l : list float) : float :=
  match l with
  | [] => NaN
  | _ => fdiv (fsum l) (Fin (inject_Z (count l)))
  end.

(** [df.groupby(['employer_id', 'year'])['total_comp'].agg(...)]: one row
    per non-empty group, in key order; [headcount='count'] counts the
    values of the group that are not NaN. *)
Definition pay_stats (df : list fact) : list pay_stat :=
  flat_map (fun e =>
    flat_map (fun y =>
      match filter (fun r => of_employer e r && in_year y r) df with
      | [] => []
      | g => [ {| ps_employer := e; ps_year := y;
                  headcount := count (valid g);
                  mean_pay := mean (valid g) |} ]
      end) (years df)) (employers df).

(** [pay_map.get((emp_id, year))] *)
Definition pay_map_get (stats : list pay_stat) (e y : Z) : option pay_stat :=
  find (fun s => (ps_employer s =? e)%Z && (ps_year s =? y)%Z) stats.

Definition same_pair (a b : fact) : bool :=
  String.eqb (person_id a) (person_id b)
  && (employer_id a =? employer_id b)%Z.

(** [drop_duplicates(subset=['person_id', 'employer_id'], keep='first')] *)
Fixpoint drop_duplicates_from (seen : list fact) (df : list fact) : list fact :=
  match df with
  | [] => []
  | r :: t =>
      if existsb (same_pair r) seen then drop_duplicates_from seen t
      else r :: drop_duplicates_from (r :: seen) t
  end.

Definition drop_duplicates (df : list fact) : list fact :=
  drop_duplicates_from [] df.

(** A row of [merged]: the current-year row and the two [_prev] columns,
    NaN where the left join found no match. *)
Record merged_row := {
  cur : fact;
  total_comp_prev : float;
  year_prev : float
}.

(** [curr_df.merge(prev_df[...], on=['employer_id', 'person_id'],
    how='left')]: every left row, once per matching right row, once with
    missing values when nothing matches. *)
Definition merge_left (curr prev : list fact) : list merged_row :=
  flat_map (fun c =>
    match filter (same_pair c) prev with
    | [] => [ {| cur := c; total_comp_prev := NaN; year_prev := NaN |} ]
    | ms => map (fun p => {| cur := c;
                             total_comp_prev := total_comp p;
                             year_prev := Fin (inject_Z (year p)) |}) ms
    end) curr.

(** [merged['total_comp_prev'].notna()] *)
Definition stayed (m : merged_row) : bool := notna (total_comp_prev m).

Definition growth (m : merged_row) : float :=
  fdiv (fsub (total_comp (cur m)) (total_comp_prev m)) (total_comp_prev m).

(** A row of [agg], after the merge with [curr_headcount]. *)
Record agg_row := {
  agg_employer : Z;
  agg_stayed_count : Z;
  agg_median_growth : float;
  agg_curr_headcount : Z
}.

Definition aggregate (curr : list fact) (merged : list merged_row) : list agg_row :=
  map (fun e =>
    let g := filter (fun m => of_employer e (cur m)) merged in
    {| agg_employer := e;
       agg_stayed_count := count (filter stayed g);
       agg_median_growth := median (map growth g);
       agg_curr_headcount := count (filter (of_employer e) curr) |})
    (sorted_unique (map (fun m => employer_id (cur m)) merged)).

(** A metric record [rec] (the pay quantiles left out as in [pay_stat];
    [employer_id] is kept as the number, [str(emp_id)] is its key in
    [grouped_output]). *)
Record metric := {
  m_employer : Z;
  m_year : Z;
  m_headcount : Z;
  m_mean_pay : float;
  stayed_count : Z;
  retention_rate : Q;
  growth_median : float
}.

(** The body of the loop for the first year. *)
Definition first_year_records (df : list fact) (y : Z) : list metric :=
  map (fun s =>
    {| m_employer := ps_employer s;
       m_year := y;
       m_headcount := headcount s;
       m_mean_pay := mean_pay s;
       stayed_count := 0;
       retention_rate := 0;
       growth_median := Fin 0 |})
    (filter (fun s => (ps_year s =? y)%Z) (pay_stats df)).

Definition enumerate (A : Type) (l : list A) : list (nat * A) :=
  combine (seq 0 (List.length l)) l.

(** [grouped_output]: the records of each employer, in the order the
    employers first occur and, per employer, in the order of
    [final_records]. *)
Fixpoint group_add (rec : metric) (out : list (Z * list metric)) : list (Z * list metric) :=
  match out with
  | [] => [(m_employer rec, [rec])]
  | (e, rs) :: t =>
      if (e =? m_employer rec)%Z then (e, rs ++ [rec]) :: t
      else (e, rs) :: group_add rec t
  end.


Section Sort.

(** [sort_values('year', ascending=False)] sorts with the default kind,
    quicksort, which does not keep rows of equal year in their input
    order: the order among such rows is left to the sort.  [tie r x]
    tells whether the sort puts the row [r] before a row [x] of the same
    year that stands after it; every [tie] gives a descending
    rearrangement of the rows. *)
Variable tie : fact -> fact -> bool.

Fixpoint insert_desc (r : fact) (l : list fact) : list fact :=
  match l with
  | [] => [r]
  | x :: t =>
      if (year x <? year r)%Z || ((year x =? year r)%Z && tie r x)
      then r :: l
      else x :: insert_desc r t
  end.

Definition sort_year_desc (df : list fact) : list fact :=
  fold_right insert_desc [] df.

(** [prev_df] of the loop at position [idx] of [years]. *)
Definition prior_population (df : list fact) (idx : nat) : list fact :=
  let prev_years := firstn idx (years df) in
  let prev_df := filter (fun r => existsb (Z.eqb (year r)) prev_years) df in
  drop_duplicates (sort_year_desc prev_df).

(** The body of the loop for a later year ([idx > 0]).  A stats
    dictionary is never empty, so [if stats:] asks only whether the key
    is there. *)
Definition later_year_records (df : list fact) (idx : nat) (y : Z) : list metric :=
  let curr_df := filter (in_year y) df in
  let prev_df := prior_population df idx in
  let merged := merge_left curr_df prev_df in
  let agg := aggregate curr_df merged in
  flat_map (fun row =>
    match pay_map_get (pay_stats df) (agg_employer row) y with
    | Some stats =>
        [ {| m_employer := agg_employer row;
             m_year := y;
             m_headcount := headcount stats;
             m_mean_pay := mean_pay stats;
             stayed_count := agg_stayed_count row;
             retention_rate :=
               if (0 <? headcount stats)%Z
               then inject_Z (agg_stayed_count row) / inject_Z (headcount stats)
               else 0;
             growth_median :=
               if notna (agg_median_growth row)
               then agg_median_growth row else Fin 0 |} ]
    | None => []
    end) agg.

Definition year_records (df : list fact) (iy : nat * Z) : list metric :=
  let '(idx, y) := iy in
  if (0 <? idx)%nat then later_year_records df idx y
  else first_year_records df y.

(** [final_records] at the end of the loop over [enumerate(years)]. *)
Definition final_records (df : list fact) : list metric :=
  flat_map (year_records df) (enumerate (years df)).

Definition generate_employer_metrics (df : list fact) : list (Z * list metric) :=
  fold_left (fun out rec => group_add rec out) (final_records df) [].

End Sort.

(** *** Vocabulary of the statements and sample tables *)

Definition pair_key (r : fact) : string * Z := (person_id r, employer_id r).


(** The row of the pair of [c] in [prior] has a [total_comp]. *)
Definition stayed_in (prior : list fact) (c : fact) : bool :=
  existsb (fun p => same_pair c p && notna (total_comp p)) prior.

Definition of_employer_year (e y : Z) (r : fact) : bool :=
  of_employer e r && in_year y r.

Definition current_rows (df : list fact) (e y : Z) : list fact :=
  filter (of_employer_year e y) df.

(** The rows of employer [e] in year [y] that count as stayed against
    the prior population [prior]. *)
Definition stayed_rows (prior df : list fact) (e y : Z) : list fact :=
  filter (fun c => of_employer_year e y c && stayed_in prior c) df.

Definition year_ge (a b : fact) : Prop := (year b <= year a)%Z.

Definition before (df : list fact) (idx : nat) (r : fact) : bool :=
  existsb (Z.eqb (year r)) (firstn idx (years df)).

(** Two ways a sort may order rows of equal year: as they stand in the
    input, or the other way round. *)
Definition input_order (r x : fact) : bool := true.

Definition reverse_order (r x : fact) : bool := false.

Definition mkfact (y : Z) (p : string) (e : Z) (c : Q) : fact :=
  {| year := y; person_id := p; employer_id := e; total_comp := Fin c |}.

(** A row without an amount. *)
Definition nofact (y : Z) (p : string) (e : Z) : fact :=
  {| year := y; person_id := p; employer_id := e; total_comp := NaN |}.

Definition duplicated_year : list fact :=
  [mkfact 2000 "1" 7 100; mkfact 2000 "1" 7 200; mkfact 2001 "1" 7 300].

(** Ten rows of employer 7 in 2001, four of them of persons who were there
    in 2000. *)
Definition ten_four : list fact :=
  [mkfact 2000 "1" 7 100; mkfact 2000 "2" 7 100; mkfact 2000 "3" 7 100; mkfact 2000 "4" 7 100;
   mkfact 2001 "1" 7 110; mkfact 2001 "2" 7 110; mkfact 2001 "3" 7 110; mkfact 2001 "4" 7 110;
   mkfact 2001 "5" 7 110; mkfact 2001 "6" 7 110; mkfact 2001 "7" 7 110; mkfact 2001 "8" 7 110;
   mkfact 2001 "9" 7 110; mkfact 2001 "10" 7 110].

(** A person whose prior total compensation is zero. *)
Definition zero_prior : list fact :=
  [mkfact 2000 "1" 7 0; mkfact 2001 "1" 7 50000].

(** Two persons who stay with employer 7; in 2001 one of the two rows
    has no amount. *)
Definition null_current : list fact :=
  [mkfact 1999 "1" 7 100000; mkfact 2000 "2" 7 100000;
   nofact 2001 "1" 7; mkfact 2001 "2" 7 110000].

(** Two employers; employer 7 has no rows in 2001. *)
Definition gap_table : list fact :=
  [mkfact 2000 "1" 7 100; mkfact 2001 "2" 8 100; mkfact 2002 "1" 7 120;
   mkfact 2002 "3" 7 90; mkfact 2002 "2" 8 105].

(** The records of employer [e] among [l], in the order of [l]. *)
Definition employer_series (e : Z) (l : list metric) : list metric :=
  filter (fun r => (m_employer r =? e)%Z) l.

(** The years in which employer [e] has rows, in increasing order. *)
Definition employer_years (df : list fact) (e : Z) : list Z :=
  sorted_unique (map year (filter (of_employer e) df)).

End analytics.

(** ** [ingest.py] *)

Module ingest.
Import PyStr PyFloat.

(** A computation that returns or raises. *)
Inductive outcome (A : Type) : Type :=
| Ok (a : A)
| Raise (e : string).

Arguments Ok {A} a.
Arguments Raise {A} e.

Definition bind (A B : Type) (m : outcome A) (k : A -> outcome B) : outcome B :=
  match m with
  | Ok a => k a
  | Raise e => Raise e
  end.

Notation "x <- m ;; k" := (bind m (fun x => k))
  (at level 61, m at next level, right associativity).

(** [Series.apply(f)]: [f] on every value in row order; the first
    exception ends the call. *)
Fixpoint apply (A B : Type) (f : A -> outcome B) (l : list A) : outcome (list B) :=
  match l with
  | [] => Ok []
  | x :: t => y <- f x ;; ys <- apply f t ;; Ok (y :: ys)
  end.

Definition digit_val (c : ascii) : Z := Z.of_nat (code c - 48).

(** The rest of a [digitpart] once a digit has been read:
    [(["_"] digit)*].  Returns the value, the number of digits and the
    unread text. *)
Fixpoint digit_run (acc : Z) (n : nat) (s : chars) {struct s} : Z * nat * chars :=
  match s with
  | [] => (acc, n, [])
  | c :: r =>
      if is_digit c then digit_run (acc * 10 + digit_val c)%Z (S n) r
      else if Ascii.eqb c "_"%char then
        match r with
        | d :: r' =>
            if is_digit d then digit_run (acc * 10 + digit_val d)%Z (S n) r'
            else (acc, n, s)
        | [] => (acc, n, s)
        end
      else (acc, n, s)
  end.

Definition digitpart (s : chars) : option (Z * nat * chars) :=
  match s with
  | c :: r => if is_digit c then Some (digit_run (digit_val c) 1 r) else None
  | [] => None
  end.

Definition pow10 (k : nat) : Q := inject_Z (10 ^ Z.of_nat k).

Definition is_dot (c : ascii) : bool := Ascii.eqb c "."%char.

(** [number ::= [digitpart] "." digitpart | digitpart ["."]] *)
Definition number (s : chars) : option (Q * chars) :=
  match digitpart s with
  | Some (i, _, rest) =>
      match rest with
      | c :: rest' =>
          if is_dot c then
            match digitpart rest' with
            | Some (f, k, rest'') =>
                Some (inject_Z i + inject_Z f / pow10 k, rest'')
            | None => Some (inject_Z i, rest')
            end
          else Some (inject_Z i, rest)
      | [] => Some (inject_Z i, [])
      end
  | None =>
      match s with
      | c :: rest =>
          if is_dot c then
            match digitpart rest with
            | Some (f, k, rest') => Some (inject_Z f / pow10 k, rest')
            | None => None
            end
          else None
      | [] => None
      end
  end.

(** An optional sign: [true] for a minus. *)
Definition sign (s : chars) : bool * chars :=
  match s with
  | c :: r =>
      if Ascii.eqb c "-"%char then (true, r)
      else if Ascii.eqb c "+"%char then (false, r)
      else (false, s)
  | [] => (false, [])
  end.

(** [exponent ::= ("e" | "E") [sign] digitpart], up to the end of the
    text; no exponent when the text has ended. *)
Definition exponent (s : chars) : option Z :=
  match s with
  | [] => Some 0%Z
  | c :: r =>
      if Ascii.eqb (upper_char c) "E"%char then
        let '(neg, r') := sign r in
        match digitpart r' with
        | Some (e, _, []) => Some (if neg then (- e)%Z else e)
        | _ => None
        end
      else None
  end.

Definition scale (q : Q) (e : Z) : Q :=
  if (0 <=? e)%Z then q * pow10 (Z.to_nat e) else q / pow10 (Z.to_nat (- e)).

Definition chars_eqb (a b : chars) : bool :=
  String.eqb (to_string a) (to_string b).

(** [float(x)] for a [str]: surrounding whitespace is ignored; a sign, then
    a decimal number with an optional exponent, or [inf], [infinity] or
    [nan] in any case.  [None] stands for [ValueError]. *)
Definition float_of_chars (s : chars) : option float :=
  let '(neg, body) := sign (strip s) in
  let word := upper body in
  if chars_eqb word (of_string "INF") || chars_eqb word (of_string "INFINITY")
  then Some (if neg then NInf else PInf)
  else if chars_eqb word (of_string "NAN") then Some NaN
  else
    match number body with
    | Some (q, rest) =>
        match exponent rest with
        | Some e => Some (Fin (scale (if neg then - q else q) e))
        | None => None
        end
    | None => None
    end.

(** [int(x)] for a [str]: whitespace, a sign and a [digitpart]. *)
Definition int_of_chars (s : chars) : option Z :=
  let '(neg, body) := sign (strip s) in
  match digitpart body with
  | Some (n, _, []) => Some (if neg then (- n)%Z else n)
  | _ => None
  end.

(** A value of a CSV column as pandas hands it to [apply]: a [str], or a
    number; NaN for an empty field and for a field that holds one of the
    texts [read_csv] takes for a missing value ([N/A], [NA], [null],
    ...). *)
Inductive cell :=
| CStr (s : string)
| CNum (v : float).

Definition clean_currency (x : cell) : outcome float :=
  match x with
  | CStr s =>
      let x := of_string s in
      let x := strip (replace (of_string ",") [] (replace (of_string "$") [] x)) in
      if chars_eqb x (of_string "-") || chars_eqb x [] then Ok (Fin 0)
      else match float_of_chars x with
           | Some v => Ok v
           | None => Raise "ValueError"
           end
  | CNum v => Ok v
  end.

(** [COLUMN_MAP.get(col)] *)
Definition COLUMN_MAP (col : string) : option string :=
  let key := String.eqb col in
  (if key "sector" then Some "sector"
  else if key "last name" || key "surname" || key "last_name" then Some "last_name"
  else if key "first name" || key "first_name" then Some "first_name"
  else if key "salary paid" || key "salary" then Some "salary"
  else if key "taxable benefits" || key "benefits" then Some "benefits"
  else if key "employer" then Some "employer"
  else if key "job title" || key "position" || key "job_title" || key "jobtitle"
       then Some "job_title"
  else if key "year" || key "calendar year" then Some "year"
  else None)%string.

Definition required : list string :=
  ["sector"; "last_name"; "first_name"; "salary"; "benefits"; "employer";
   "job_title"]%string.

(** [str.lower()], character by character. *)
Definition lower_char (c : ascii) : ascii :=
  if is_AZ c then ascii_of_nat (code c + 32) else c.

Definition lower (s : chars) : chars := map lower_char s.

(** A data row of a CSV file: the values under the columns that carry the
    standard names after renaming.  A text field is missing ([None]) or a
    string; a currency field is any cell. *)
Record raw_row := {
  r_sector : option string;
  r_last_name : option string;
  r_first_name : option string;
  r_employer : option string;
  r_job_title : option string;
  r_salary : cell;
  r_benefits : cell
}.

(** A raw file as [read_csv] returns it: its name, its header and its
    rows. *)
Record csv_file := {
  basename : string;
  columns : list string;
  rows : list raw_row
}.

(** A row of the staging table. *)
Record staged := {
  year : Z;
  sector : option string;
  last_name : string;
  first_name : string;
  employer : string;
  job_title : string;
  salary : float;
  benefits : float;
  total_comp : float
}.

(** [fillna('').astype(str).str.strip()] *)
Definition clean_text (x : option string) : string :=
  match x with
  | None => ""%string
  | Some s => to_string (strip (of_string s))
  end.

(** [filename.split('.')[0]] *)
Fixpoint stem (s : chars) : chars :=
  match s with
  | [] => []
  | c :: r => if is_dot c then [] else c :: stem r
  end.

Definition rename_columns (cols : list string) : list string :=
  map (fun c =>
         let c := to_string (lower (strip (of_string c))) in
         match COLUMN_MAP c with
         | Some std => std
         | None => c
         end) cols.

Definition stage_row (y : Z) (rsb : raw_row * float * float) : staged :=
  let '(r, s, b) := rsb in
  {| year := y;
     sector := r_sector r;
     last_name := clean_text (r_last_name r);
     first_name := clean_text (r_first_name r);
     employer := clean_text (r_employer r);
     job_title := clean_text (r_job_title r);
     salary := s;
     benefits := b;
     total_comp := fadd s b |}.

(** [process_file]: [Ok None] is the [return None] of a file that lacks a
    required column. *)
Definition process_file (f : csv_file) : outcome (option (list staged)) :=
  match int_of_chars (stem (of_string (basename f))) with
  | None => Raise "ValueError"
  | Some y =>
      let cols := rename_columns (columns f) in
      if forallb (fun req => existsb (String.eqb req) cols) required then
        sal <- apply clean_currency (map r_salary (rows f)) ;;
        ben <- apply clean_currency (map r_benefits (rows f)) ;;
        Ok (Some (map (stage_row y) (combine (combine (rows f) sal) ben)))
      else Ok None
  end.

(** One turn of the module-level loop: [try: ... except Exception]. *)
Definition ingest_step (all_dfs : list (list staged)) (f : csv_file) : list (list staged) :=
  match of_string (basename f) with
  | [] => all_dfs
  | c :: _ =>
      if is_digit c then
        match process_file f with
        | Ok (Some df) => all_dfs ++ [df]
        | Ok None => all_dfs
        | Raise _ => all_dfs
        end
      else all_dfs
  end.

Definition all_dfs (files : list csv_file) : list (list staged) :=
  fold_left ingest_step files [].

(** The rows saved to the staging file: [pd.concat(all_dfs)], or nothing
    saved when no file was processed. *)
Definition ingest (files : list csv_file) : option (list staged) :=
  match all_dfs files with
  | [] => None
  | dfs => Some (List.concat dfs)
  end.

(** *** Vocabulary of the statements and sample files *)

(** The text [clean_currency] parses: the value without [$] and [,],
    trimmed. *)
Definition currency_text (s : string) : chars :=
  strip (replace (of_string ",") [] (replace (of_string "$") [] (of_string s))).


Definition crow (sal ben : cell) : raw_row :=
  {| r_sector := Some "Hospitals"%string;
     r_last_name := Some "Smith"%string;
     r_first_name := Some "John"%string;
     r_employer := Some "Acme Inc"%string;
     r_job_title := Some "Nurse"%string;
     r_salary := sal;
     r_benefits := ben |}.

Definition header : list string :=
  ["Sector"; "Last Name"; "First Name"; "Salary Paid"; "Taxable Benefits";
   "Employer"; "Job Title"; "Calendar Year"]%string.


Definition clean_file : csv_file :=
  {| basename := "2021.csv";
     columns := header;
     rows := [crow (CStr "$101,000.00") (CStr " ")] |}.

(** A file without a benefits column. *)
Definition file_without_benefits : csv_file :=
  {| basename := "2019.csv";
     columns := ["Sector"; "Last Name"; "First Name"; "Salary Paid";
                 "Employer"; "Job Title"]%string;
     rows := [crow (CStr "$100,000.00") (CNum NaN)] |}.

End ingest.

(** ** [generate_analytics_basic.py] *)

Module analytics_basic.
Import PyFloat analytics.

Definition has_comp (r : fact) : bool := notna (total_comp r).

(** [sort_values('total_comp', ascending=False)] on rows that have a
    [total_comp]; rows of equal [total_comp] are taken in their input
    order. *)
Fixpoint insert_comp (r : fact) (l : list fact) : list fact :=
  match l with
  | [] => [r]
  | x :: t =>
      if fle (total_comp x) (total_comp r) then r :: l
      else x :: insert_comp r t
  end.

Definition sort_comp_desc (df : list fact) : list fact :=
  fold_right insert_comp [] df.

(** [df.nlargest(n, 'total_comp')]: the first [n] rows in descending
    order of [total_comp]; the rows whose [total_comp] is NaN come after
    all others.  (Rows of equal [total_comp], and rows without one, are
    taken in order of appearance.) *)
Definition nlargest (n : nat) (df : list fact) : list fact :=
  firstn n (sort_comp_desc (filter has_comp df)
            ++ filter (fun r => negb (has_comp r)) df).

(** A record of [top_earners.json]: the columns of the row and the
    [rank]. *)
Record earner := {
  e_row : fact;
  rank : Z
}.

(** The body of the loop of [generate_top_earners] for the year [y]. *)
Definition top_of_year (df : list fact) (y : Z) : list earner :=
  let top := nlargest 100 (filter (in_year y) df) in
  map (fun ir => {| e_row := snd ir; rank := Z.of_nat (fst ir) |})
      (combine (seq 1 (List.length top)) top).

(** [results]: one entry per year, in the order of [years]. *)
Definition generate_top_earners (df : list fact) : list (Z * list earner) :=
  map (fun y => (y, top_of_year df y)) (years df).

(** *** Vocabulary of the statements *)

(** [b] is not paid more than [a]: [b] has no [total_comp], or both have
    one and that of [b] is at most that of [a]. *)
Definition comp_ge (a b : fact) : Prop :=
  has_comp b = false \/
  (has_comp a = true /\ fle (total_comp b) (total_comp a) = true).

End analytics_basic.

(** ** [generate_analytics_sector.py] *)

Module analytics_sector.
Import PyStr.

(** [str.title()]: a letter is upper-cased when no letter stands before
    it and lower-cased otherwise; other characters are kept. *)
Fixpoint title_from (previous_is_cased : bool) (s : chars) : chars :=
  match s with
  | [] => []
  | c :: r =>
      if is_az c then
        (if previous_is_cased then c else upper_char c) :: title_from true r
      else if is_AZ c then
        (if previous_is_cased then normalize_jobs.lower_char c else c)
          :: title_from true r
      else c :: title_from false r
  end.

Definition title (s : chars) : chars := title_from false s.

(** [df['sector'].astype(str).str.title().str.strip()] for a sector
    that is a text. *)
Definition sector_key (sector : string) : string :=
  to_string (strip (title (of_string sector))).

(** *** Vocabulary of the statements *)

(** No lower-case letter starts a word: each lower-case letter has a
    letter before it ([p] tells whether one stands before the text). *)
Fixpoint words_capitalized (p : bool) (s : chars) : Prop :=
  match s with
  | [] => True
  | c :: r => (is_az c = true -> p = true) /\ words_capitalized (is_az c || is_AZ c) r
  end.

End analytics_sector.

(** ** [generate_alias_suggestions.py] *)

Module generate_alias_suggestions.
Import PyStr.

(** The class [\w] on ASCII text. *)
Definition is_word (c : ascii) : bool :=
  is_AZ c || is_az c || is_digit c || Ascii.eqb c "_"%char.

(** The alternatives of [\b(INC|LTD|LIMITED|CORP|CORPORATION|THE|OF|AND)\b],
    in their order. *)
Definition alternatives : list chars :=
  map of_string
    ["INC"; "LTD"; "LIMITED"; "CORP"; "CORPORATION"; "THE"; "OF"; "AND"]%string.

(** [\b] after a word character: the end of the text or a character
    outside [\w]. *)
Definition boundary_before (rest : chars) : bool :=
  match rest with
  | [] => true
  | c :: _ => negb (is_word c)
  end.

(** The length of the match of [(INC|...)\b] at the head of [s]: the
    first alternative that [s] starts with and that ends at a word
    boundary. *)
Definition match_here (s : chars) : option nat :=
  option_map (@List.length ascii)
    (find (fun w => starts_with w s && boundary_before (skipn (List.length w) s))
          alternatives).

(** [re.sub(r'\b(INC|...)\b', '', s)]: matches are looked for left to
    right; [previous_is_word] tells whether the character before the
    position is in [\w], [skip] counts the characters of a match still to
    be passed over. *)
Fixpoint sub_from (previous_is_word : bool) (skip : nat) (s : chars) : chars :=
  match s with
  | [] => []
  | c :: r =>
      match skip with
      | S k => sub_from true k r
      | O =>
          if previous_is_word then c :: sub_from (is_word c) 0 r
          else match match_here s with
               | Some n => sub_from true (n - 1) r
               | None => c :: sub_from (is_word c) 0 r
               end
      end
  end.

(** The class [A-Z0-9\s] of the pattern [[^A-Z0-9\s]]. *)
Definition keep (c : ascii) : bool := is_AZ c || is_digit c || is_space c.

(** [normalize_for_comparison] on a [str] argument. *)
Definition normalize_chars (s : chars) : chars :=
  let s := upper s in
  let s := sub_from false 0 s in
  let s := re_sub_drop keep s in
  let s := join (split s) in
  strip s.

Definition normalize_for_comparison (s : string) : string :=
  to_string (normalize_chars (of_string s)).

(** [normalized_groups[normalized].append(emp)] on a dictionary kept in
    insertion order. *)
Fixpoint group_append (k v : string) (groups : list (string * list string))
  : list (string * list string) :=
  match groups with
  | [] => [(k, [v])]
  | (k', vs) :: t =>
      if String.eqb k' k then (k', vs ++ [v]) :: t
      else (k', vs) :: group_append k v t
  end.

(** The first loop of [find_similar_employers] over the distinct texts
    of the [employer] column, in their order of appearance. *)
Definition normalized_groups (employers : list string) : list (string * list string) :=
  fold_left (fun groups emp =>
    if String.eqb emp "" then groups
    else
      let normalized := normalize_for_comparison emp in
      if String.eqb normalized "" then groups
      else group_append normalized emp groups)
    (normalize_employers.drop_duplicates employers) [].

(** [max(variations, key=lambda x: len(x))]: the first of the longest. *)
Definition longest (variations : list string) : string :=
  fold_left (fun best x =>
               if (String.length best <? String.length x)%nat then x else best)
            (tl variations) (hd ""%string variations).

Record suggestion := {
  raw : string;
  canonical : string;
  reason : string
}.

Definition string_upper (s : string) : string :=
  to_string (upper (of_string s)).

(** The second loop of [find_similar_employers]. *)
Definition suggestions_of (variations : list string) : list suggestion :=
  if (1 <? List.length variations)%nat then
    let c := longest variations in
    flat_map (fun var =>
      if String.eqb var c then []
      else [ {| raw := var; canonical := string_upper c;
                reason := "exact_normalized_match" |} ]) variations
  else [].

Definition find_similar_employers (employers : list string) : list suggestion :=
  flat_map (fun kv => suggestions_of (snd kv)) (normalized_groups employers).

(** *** Vocabulary of the statements *)

(** A text the first loop of [find_similar_employers] files under a
    key: not empty, with a normalization that is not empty. *)
Definition eligible (emp : string) : bool :=
  negb (String.eqb emp "") && negb (String.eqb (normalize_for_comparison emp) "").

(** The eligible texts of [l] that normalize to [k], in the order of [l]. *)
Definition variations_of (k : string) (l : list string) : list string :=
  filter (fun e => eligible e && String.eqb (normalize_for_comparison e) k) l.

End generate_alias_suggestions.

(** ** [validate_data.py] *)

Module validate_data.
Import PyFloat.

(** A row of the fact table with the columns the checks read.  A text
    cell is [None] when it is null; a null [total_comp] is NaN; [year]
    is an integer column and holds no null.  The text columns are taken
    to have dtype [object]. *)
Record row := {
  first_name : option string;
  last_name : option string;
  employer_canonical : option string;
  total_comp : float;
  year : Z
}.

(** An entry of [large_drops] (the rounded [drop_pct] is left out). *)
Record drop := {
  d_employer : string;
  d_year : Z;
  prev_count : Z;
  curr_count : Z
}.

(** The issue dictionaries, one constructor per value of ["check"]. *)
Inductive issue :=
| null_values (field : string) (null_count empty_count : Z) (sev : string)
| high_salary (n : Z) (max_value : float) (sample : list row)
| zero_negative_salary (n : Z) (years_affected : list Z)
| below_threshold (n : Z)
| large_headcount_drops (n : Z) (samples : list drop)
| exact_duplicates (n unique_groups : Z)
| same_person_employer_year (n : Z).

(** The value of the key ["severity"]. *)
Definition severity (i : issue) : string :=
  match i with
  | null_values _ _ _ sev => sev
  | high_salary _ _ _ => "info"
  | zero_negative_salary _ _ => "medium"
  | below_threshold _ => "low"
  | large_headcount_drops _ _ => "info"
  | exact_duplicates _ _ => "high"
  | same_person_employer_year _ => "low"
  end.

Definition len (A : Type) (l : list A) : Z := Z.of_nat (List.length l).

(** *** [check_null_values] *)

Definition isna (A : Type) (x : option A) : bool :=
  match x with None => true | Some _ => false end.

Definition is_empty (x : option string) : bool :=
  match x with Some s => String.eqb s "" | None => false end.

Definition null_issue (field : string) (null_count empty_count : Z) : list issue :=
  if (0 <? null_count)%Z || (0 <? empty_count)%Z
  then [null_values field null_count empty_count
          (if String.eqb field "total_comp" || String.eqb field "year"
           then "high" else "medium")]
  else [].

Definition text_issue (field : string) (col : list (option string)) : list issue :=
  null_issue field (len (filter (@isna string) col)) (len (filter is_empty col)).

Definition check_null_values (df : list row) : list issue :=
  text_issue "first_name" (map first_name df)
  ++ text_issue "last_name" (map last_name df)
  ++ text_issue "employer_canonical" (map employer_canonical df)
  ++ null_issue "total_comp"
       (len (filter (fun x => negb (notna x)) (map total_comp df))) 0
  ++ null_issue "year" 0 0.

(** *** [check_salary_anomalies] *)

(** Comparisons of a float with a finite bound; false on NaN. *)
Definition gt (x : float) (c : Q) : bool :=
  match x with
  | Fin a => negb (Qle_bool a c)
  | PInf => true
  | _ => false
  end.

Definition le (x : float) (c : Q) : bool :=
  match x with
  | Fin a => Qle_bool a c
  | NInf => true
  | _ => false
  end.

Definition lt (x : float) (c : Q) : bool :=
  match x with
  | Fin a => negb (Qle_bool c a)
  | NInf => true
  | _ => false
  end.

(** [Series.max()]: the largest non-NaN value, NaN when there is none. *)
Definition fmax (l : list float) : float :=
  match filter notna l with
  | [] => NaN
  | x :: t => fold_left (fun m y => if fle m y then y else m) t x
  end.

Definition is_high (r : row) : bool := gt (total_comp r) 2000000.
Definition is_zero (r : row) : bool := le (total_comp r) 0.
Definition is_low (r : row) : bool :=
  gt (total_comp r) 0 && lt (total_comp r) 100000.

Definition check_salary_anomalies (df : list row) : list issue :=
  let high := filter is_high df in
  let zero := filter is_zero df in
  let low := filter is_low df in
  (if (0 <? len high)%Z
   then [high_salary (len high) (fmax (map total_comp high)) (firstn 5 high)]
   else [])
  ++ (if (0 <? len zero)%Z
      then [zero_negative_salary (len zero)
              (analytics.sorted_unique (map year zero))]
      else [])
  ++ (if (0 <? len low)%Z then [below_threshold (len low)] else []).

(** *** [check_year_consistency] *)

(** The sorted distinct texts of a column. *)
Fixpoint insert_text (x : string) (l : list string) : list string :=
  match l with
  | [] => [x]
  | y :: t =>
      match String.compare x y with
      | Lt => x :: l
      | Eq => l
      | Gt => y :: insert_text x t
      end
  end.

Definition sorted_texts (l : list string) : list string :=
  fold_right insert_text [] l.

Definition employer_is (e : string) (r : row) : bool :=
  match employer_canonical r with
  | Some x => String.eqb x e
  | None => false
  end.

(** The rows [groupby] keeps: those with an employer. *)
Definition grouped_rows (df : list row) : list row :=
  filter (fun r => negb (isna (employer_canonical r))) df.

(** The index and the columns of [employer_pivot]. *)
Definition pivot_index (df : list row) : list string :=
  sorted_texts
    (flat_map (fun r => match employer_canonical r with
                        | Some e => [e]
                        | None => []
                        end) df).

Definition pivot_columns (df : list row) : list Z :=
  analytics.sorted_unique (map year (grouped_rows df)).

(** A cell of [employer_pivot]: the group size, 0 for no group. *)
Definition pivot_cell (df : list row) (e : string) (y : Z) : Z :=
  len (filter (fun r => employer_is e r && (year r =? y)%Z) df).

Definition drop_mask (df : list row) (prev curr : Z) (e : string) : bool :=
  let p := inject_Z (pivot_cell df e prev) in
  let c := inject_Z (pivot_cell df e curr) in
  Qle_bool 50 p && negb (Qle_bool (p * 0.5) c) && negb (Qle_bool c 0).

(** The pairs [(columns[i - 1], columns[i])] for [i] from 1. *)
Definition column_pairs (columns : list Z) : list (Z * Z) :=
  combine columns (tl columns).

Definition large_drops (df : list row) : list drop :=
  flat_map (fun pc =>
    let '(prev, curr) := pc in
    map (fun e => {| d_employer := e; d_year := curr;
                     prev_count := pivot_cell df e prev;
                     curr_count := pivot_cell df e curr |})
        (firstn 5 (filter (drop_mask df prev curr) (pivot_index df))))
    (column_pairs (pivot_columns df)).

Definition check_year_consistency (df : list row) : list issue :=
  match large_drops df with
  | [] => []
  | drops => [large_headcount_drops (len drops) (firstn 10 drops)]
  end.

(** *** [check_duplicates] *)

(** Equality of cells as [duplicated] sees it: a null equals a null. *)
Definition text_eqb (a b : option string) : bool :=
  match a, b with
  | Some x, Some y => String.eqb x y
  | None, None => true
  | _, _ => false
  end.

Definition float_eqb (x y : float) : bool :=
  match x, y with
  | Fin a, Fin b => Qeq_bool a b
  | PInf, PInf | NInf, NInf | NaN, NaN => true
  | _, _ => false
  end.

Definition same_near (a b : row) : bool :=
  text_eqb (first_name a) (first_name b)
  && text_eqb (last_name a) (last_name b)
  && text_eqb (employer_canonical a) (employer_canonical b)
  && (year a =? year b)%Z.

Definition same_exact (a b : row) : bool :=
  same_near a b && float_eqb (total_comp a) (total_comp b).

(** [df[df.duplicated(subset=..., keep=False)]]: the rows whose key
    occurs at least twice. *)
Definition duplicated (same : row -> row -> bool) (df : list row) : list row :=
  filter (fun r => (2 <=? List.length (filter (same r) df))%nat) df.

(** [groupby(dup_cols).ngroups]: the distinct keys, rows with a null in
    a key column left out. *)
Fixpoint distinct_from (seen : list row) (l : list row) : list row :=
  match l with
  | [] => []
  | r :: t =>
      if existsb (same_exact r) seen then distinct_from seen t
      else r :: distinct_from (r :: seen) t
  end.

Definition no_null_key (r : row) : bool :=
  negb (isna (first_name r)) && negb (isna (last_name r))
  && negb (isna (employer_canonical r)) && notna (total_comp r).

Definition ngroups (l : list row) : Z :=
  len (distinct_from [] (filter no_null_key l)).

Definition check_duplicates (df : list row) : list issue :=
  let exact_dups := duplicated same_exact df in
  let near_dups := duplicated same_near df in
  let near_only := (len near_dups - len exact_dups)%Z in
  (if (0 <? len exact_dups)%Z
   then [exact_duplicates (len exact_dups) (ngroups exact_dups)]
   else [])
  ++ (if (0 <? near_only)%Z then [same_person_employer_year near_only] else []).

(** *** [main] *)

Definition all_issues (df : list row) : list issue :=
  check_null_values df ++ check_salary_anomalies df
  ++ check_year_consistency df ++ check_duplicates df.

Definition with_severity (s : string) (issues : list issue) : list issue :=
  filter (fun i => String.eqb (severity i) s) issues.

(** The four entries of ["issue_counts"]. *)
Record issue_counts := {
  high : Z;
  medium : Z;
  low : Z;
  info : Z
}.

Definition count_issues (issues : list issue) : issue_counts :=
  {| high := len (with_severity "high" issues);
     medium := len (with_severity "medium" issues);
     low := len (with_severity "low" issues);
     info := len (with_severity "info" issues) |}.

(** *** Vocabulary of the statements and sample tables *)

(** A [total_comp] no salary check reports: null, or a finite amount
    from 100,000 to 2,000,000. *)
Definition in_band (x : float) : Prop :=
  x = NaN \/ exists a : Q, x = Fin a /\ 100000 <= a /\ a <= 2000000.

(** The key columns of the near-duplicate check. *)
Definition near_key (r : row) : option string * option string * option string * Z :=
  (first_name r, last_name r, employer_canonical r, year r).

Definition mkrow (f l e : string) (c : Q) (y : Z) : row :=
  {| first_name := Some f; last_name := Some l; employer_canonical := Some e;
     total_comp := Fin c; year := y |}.

End validate_data.

(** ** [run_pipeline.py] *)

Module run_pipeline.

(** A stage: its name, its script and its description. *)
Definition stage : Type := string * string * string.

Definition stage_name (s : stage) : string := fst (fst s).
Definition stage_script (s : stage) : string := snd (fst s).

Definition PIPELINE_STAGES : list stage :=
  [("ingest", "ingest.py", "Consolidate raw CSVs into staging parquet");
   ("normalize_employers", "normalize_employers.py", "Canonicalize employer names");
   ("normalize_jobs", "normalize_jobs.py", "Standardize job titles and infer families");
   ("link_persons", "link_persons.py", "Link individuals across years");
   ("validate", "validate_data.py", "Run data quality checks");
   ("analytics_basic", "generate_analytics_basic.py", "Generate year summaries and top earners");
   ("analytics_complex", "generate_analytics_complex.py", "Generate employer and job metrics");
   ("analytics_sector", "generate_analytics_sector.py", "Generate sector-level analytics");
   ("search_index", "generate_search_index.py", "Export search indexes")]%string.

(** The parsed command line. *)
Record args := {
  arg_stage : option string;
  from_stage : option string;
  validate_only : bool;
  skip_validation : bool
}.

(** The truth value of an optional string argument: given and not
    empty. *)
Definition given (x : option string) : option string :=
  match x with
  | Some s => if String.eqb s "" then None else Some s
  | None => None
  end.

Definition named (n : string) (s : stage) : bool := String.eqb (stage_name s) n.

(** [next((i for i, s in enumerate(stages) if s[0] == n), None)] *)
Fixpoint index_of (n : string) (stages : list stage) : option nat :=
  match stages with
  | [] => None
  | s :: t => if named n s then Some O else option_map S (index_of n t)
  end.

(** The stages to run; [None] is the [sys.exit(1)] on an unknown stage,
    before any stage runs. *)
Definition stages_to_run (a : args) : option (list stage) :=
  let stages := PIPELINE_STAGES in
  let chosen :=
    if validate_only a then Some (filter (named "validate") stages)
    else match given (arg_stage a) with
         | Some n =>
             match filter (named n) stages with
             | [] => None
             | l => Some l
             end
         | None =>
             match given (from_stage a) with
             | Some n => option_map (fun i => skipn i stages) (index_of n stages)
             | None => Some stages
             end
         end in
  option_map
    (fun l => if skip_validation a
              then filter (fun s => negb (named "validate" s)) l else l)
    chosen.

Section Run.

(** What a run finds: whether a script file exists, and the return code
    of running it ([None] when starting it raises). *)
Variable script_exists : string -> bool.
Variable returncode : string -> option Z.

(** [run_stage]: the success flag (the elapsed time is left out). *)
Definition run_stage (s : stage) : bool :=
  if script_exists (stage_script s) then
    match returncode (stage_script s) with
    | Some rc => (rc =? 0)%Z
    | None => false
    end
  else true.

(** The loop over the stages: the names of the stages handed to
    [run_stage], in order, and [failed_stages]. *)
Fixpoint execute (stages : list stage) : list string * list string :=
  match stages with
  | [] => ([], [])
  | s :: t =>
      if run_stage s then
        let '(reached, failed) := execute t in (stage_name s :: reached, failed)
      else ([stage_name s], [stage_name s])
  end.

(** [main]: the stages handed to [run_stage] and the exit code. *)
Definition main (a : args) : list string * Z :=
  match stages_to_run a with
  | None => ([], 1%Z)
  | Some stages =>
      let '(reached, failed) := execute stages in
      (reached, match failed with [] => 0%Z | _ => 1%Z end)
  end.

End Run.

(** *** Vocabulary of the statements and sample runs *)

(** The place of a stage in [PIPELINE_STAGES] (its length for a stage
    that is not in it). *)
Definition position (s : stage) : nat :=
  match index_of (stage_name s) PIPELINE_STAGES with
  | Some i => i
  | None => List.length PIPELINE_STAGES
  end.

(** A sample run: every script exists, and linking the persons fails. *)
Definition sample_returncode (script : string) : option Z :=
  if String.eqb script "link_persons.py" then Some 2%Z else Some 0%Z.

End run_pipeline.

(** * Properties *)

Unset Implicit Arguments.

(** ** String normalization *)

Module Normalize.
Import PyStr normalize_employers.

Section StringFacts.

Lemma split_cons (c : ascii) (r : chars) :
  split (c :: r) =
  if is_space c then split r
  else match r with
       | [] => [[c]]
       | d :: _ =>
           if is_space d then [c] :: split r
           else match split r with
                | w :: ws => (c :: w) :: ws
                | [] => [[c]]
                end
       end.
Proof. reflexivity. Qed.

Lemma split_wordy (s : chars) : Forall wordy (split s).
Proof.
  induction s as [|c r IH]; [constructor|].
  rewrite split_cons.
  destruct (is_space c) eqn:Hc; [exact IH|].
  assert (Hone : wordy [c]) by (split; [discriminate | repeat constructor; exact Hc]).
  destruct r as [|d r']; [constructor; [exact Hone|constructor]|].
  destruct (is_space d); [constructor; assumption|].
  destruct (split (d :: r')) as [|w ws]; [constructor; [exact Hone|constructor]|].
  inversion IH as [|? ? [_ Hw] Hws]; subst.
  constructor; [|assumption].
  split; [discriminate | constructor; assumption].
Qed.

Lemma split_subset (s : chars) (w : chars) (c : ascii) :
  In w (split s) -> In c w -> In c s.
Proof.
  revert w; induction s as [|x r IH]; intros w Hw Hc; [destruct Hw|].
  rewrite split_cons in Hw.
  destruct (is_space x); [right; eapply IH; eassumption|].
  destruct r as [|d r'].
  - destruct Hw as [<-|[]]. exact Hc.
  - destruct (is_space d).
    + destruct Hw as [<-|Hw]; [destruct Hc as [->|[]]; now left|].
      right; eapply IH; eassumption.
    + destruct (split (d :: r')) as [|w0 ws].
      * destruct Hw as [<-|[]]. destruct Hc as [->|[]]; now left.
      * destruct Hw as [<-|Hw].
        -- destruct Hc as [->|Hc]; [now left|].
           right; apply (IH w0); [now left|exact Hc].
        -- right; apply (IH w); [now right|exact Hc].
Qed.

Lemma split_word_then (w r : chars) :
  wordy w ->
  (r = [] \/ exists d r', r = d :: r' /\ is_space d = true) ->
  split (w ++ r) = w :: split r.
Proof.
  intros [Hne Hw] Hr.
  induction w as [|c w' IH]; [congruence|].
  inversion Hw as [|? ? Hc Hw']; subst.
  change ((c :: w') ++ r) with (c :: (w' ++ r)).
  rewrite split_cons, Hc.
  destruct w' as [|c' w''].
  - simpl. destruct Hr as [->|(d & r' & -> & Hd)]; [reflexivity|].
    now rewrite Hd.
  - change ((c' :: w'') ++ r) with (c' :: (w'' ++ r)) in *.
    inversion Hw' as [|? ? Hc' _]; subst.
    rewrite Hc'.
    rewrite IH; [reflexivity|discriminate|assumption].
Qed.

Lemma split_join (ws : list chars) :
  Forall wordy ws -> split (join ws) = ws.
Proof.
  induction 1 as [|w ws Hw Hws IH]; [reflexivity|].
  destruct ws as [|w2 ws].
  - simpl. rewrite <- (app_nil_r w) at 1.
    rewrite split_word_then; auto.
  - change (join (w :: w2 :: ws)) with (w ++ space :: join (w2 :: ws)).
    rewrite split_word_then; auto.
    + f_equal. rewrite split_cons. exact IH.
    + right. eauto.
Qed.

Lemma join_chars (ws : list chars) (c : ascii) :
  In c (join ws) -> c = space \/ exists w, In w ws /\ In c w.
Proof.
  induction ws as [|w ws IH]; [intros []|].
  destruct ws as [|w2 ws].
  - simpl. intros H. right. exists w. auto.
  - change (join (w :: w2 :: ws)) with (w ++ space :: join (w2 :: ws)).
    intros H. apply in_app_or in H. destruct H as [H|[H|H]].
    + right. exists w. split; [now left|assumption].
    + now left.
    + destruct (IH H) as [->|(w' & Hin & Hc)]; [now left|].
      right. exists w'. split; [now right|assumption].
Qed.

Lemma join_split_chars (P : ascii -> Prop) (s : chars) :
  P space -> Forall P s -> Forall P (join (split s)).
Proof.
  intros Hsp Hs. apply Forall_forall. intros c Hc.
  destruct (join_chars _ _ Hc) as [->|(w & Hw & Hcw)]; [assumption|].
  rewrite Forall_forall in Hs. apply Hs. eapply split_subset; eassumption.
Qed.

Lemma join_split_single_spaced (s : chars) : single_spaced (join (split s)).
Proof. exists (split s). split; [apply split_wordy|reflexivity]. Qed.

Lemma filter_all (A : Type) (f : A -> bool) (l : list A) :
  Forall (fun x => f x = true) l -> filter f l = l.
Proof.
  induction 1 as [|x l Hx _ IH]; [reflexivity|].
  simpl. now rewrite Hx, IH.
Qed.

Lemma map_fixed (A : Type) (f : A -> A) (l : list A) :
  Forall (fun x => f x = x) l -> map f l = l.
Proof.
  induction 1 as [|x l Hx _ IH]; [reflexivity|].
  simpl. now rewrite Hx, IH.
Qed.

Lemma in_range_spec (lo hi : nat) (c : ascii) :
  in_range lo hi c = true <-> (lo <= code c <= hi)%nat.
Proof.
  unfold in_range. rewrite andb_true_iff, !Nat.leb_le. tauto.
Qed.

Lemma not_az_upper (c : ascii) : is_az c = false -> upper_char c = c.
Proof. unfold upper_char. now intros ->. Qed.

(** A character of one of the kept classes is no lowercase letter. *)
Ltac not_lowercase H Haz :=
  repeat match type of H with
         | _ \/ _ => destruct H as [H|H]
         end;
  [ apply in_range_spec in H; lia
  | apply in_range_spec in H; lia
  | unfold is_space in H; rewrite orb_true_iff, !in_range_spec in H; lia
  | apply Ascii.eqb_eq in H; subst; cbv in Haz; lia ].

Lemma employer_keep_fixed (c : ascii) :
  normalize_employers.keep c = true -> upper_char c = c.
Proof.
  unfold normalize_employers.keep. rewrite !orb_true_iff.
  intros H. apply not_az_upper.
  destruct (is_az c) eqn:Haz; [|reflexivity].
  apply in_range_spec in Haz. not_lowercase H Haz.
Qed.

Lemma keep_space : normalize_employers.keep space = true.
Proof. reflexivity. Qed.

(** What [normalize_chars] returns: kept characters only, single-spaced. *)
Lemma employer_normal_chars (s : chars) :
  Forall (fun c => normalize_employers.keep c = true)
         (normalize_employers.normalize_chars s).
Proof.
  unfold normalize_employers.normalize_chars, re_sub_drop.
  apply join_split_chars; [exact keep_space|].
  apply Forall_forall. intros c Hc. now apply filter_In in Hc.
Qed.

(** [normalize_chars] leaves single-spaced text of kept characters as it
    is. *)
Lemma employer_normal_fixed (t : chars) :
  single_spaced t ->
  Forall (fun c => normalize_employers.keep c = true) t ->
  normalize_employers.normalize_chars t = t.
Proof.
  intros (ws & Hws & ->) Hk.
  unfold normalize_employers.normalize_chars, re_sub_drop, upper.
  rewrite map_fixed.
  - rewrite filter_all by assumption. now rewrite split_join.
  - eapply Forall_impl; [|exact Hk]. apply employer_keep_fixed.
Qed.

Lemma of_to_string (s : chars) : of_string (to_string s) = s.
Proof. apply list_ascii_of_string_of_list_ascii. Qed.

Lemma employer_normalize_twice (s : string) :
  normalize_employers.normalize_string (normalize_employers.normalize_string s)
  = normalize_employers.normalize_string s.
Proof.
  unfold normalize_employers.normalize_string.
  rewrite of_to_string. f_equal.
  apply employer_normal_fixed.
  - apply join_split_single_spaced.
  - apply employer_normal_chars.
Qed.

(** X1.  The employer [normalize_string] is idempotent: normalizing a
    normalized name changes nothing, whatever the input. *)
Theorem normalize_employers_idempotent (s : string) :
  normalize_employers.normalize_string (normalize_employers.normalize_string s)
  = normalize_employers.normalize_string s.
Proof. exact (employer_normalize_twice s). Qed.

Lemma join_split_char (s : chars) (c : ascii) :
  In c (join (split s)) -> c = space \/ (In c s /\ is_space c = false).
Proof.
  intros Hc. destruct (join_chars _ _ Hc) as [->|(w & Hw & Hcw)]; [now left|].
  right. split; [eapply split_subset; eassumption|].
  pose proof (split_wordy s) as Hall. rewrite Forall_forall in Hall.
  destruct (Hall w Hw) as [_ Hns]. rewrite Forall_forall in Hns. now apply Hns.
Qed.

(** C4, as the code has it.  [normalize_string] of the employer script
    upper-cases, drops every character outside A-Z, 0-9, whitespace and the
    hyphen, and single-spaces and trims the rest; it removes no word: the
    words of the result are the words of the upper-cased text with the
    dropped characters left out. *)
Theorem employer_normalize_rule (s : string) :
  let t := of_string (normalize_employers.normalize_string s) in
  Forall (fun c => is_AZ c || is_digit c || Ascii.eqb c space
                   || Ascii.eqb c "-"%char = true) t /\
  single_spaced t /\
  split t = split (filter normalize_employers.keep (upper (of_string s))).
Proof.
  unfold normalize_employers.normalize_string. rewrite of_to_string.
  unfold normalize_employers.normalize_chars, re_sub_drop. cbv zeta.
  split; [|split].
  - apply Forall_forall. intros c Hc.
    destruct (join_split_char _ _ Hc) as [->|[Hin Hsp]]; [reflexivity|].
    apply filter_In in Hin. destruct Hin as [_ Hk].
    unfold normalize_employers.keep in Hk. rewrite Hsp in Hk.
    rewrite orb_false_r in Hk.
    rewrite !orb_true_iff in *. tauto.
  - apply join_split_single_spaced.
  - apply split_join, split_wordy.
Qed.

Lemma employer_rule_counterexample :
  ~ spec_employer_form (normalize_employers.normalize_string "City of Toronto") /\
  ~ spec_employer_form (normalize_employers.normalize_string "Smith-Jones Transit").
Proof.
  split; intros [Hw Hc].
  - apply (Hw "OF"%string); vm_compute; tauto.
  - vm_compute in Hc.
    repeat match goal with
           | H : Forall _ (_ :: _) |- _ => inversion H; clear H; subst
           end;
    discriminate.
Qed.

Example employer_city_of_toronto :
  normalize_employers.normalize_string "City of  Toronto, Inc."
  = "CITY OF TORONTO INC"%string.
Proof. reflexivity. Qed.

Example employer_hyphen_kept :
  normalize_employers.normalize_string "Smith-Jones Transit"
  = "SMITH-JONES TRANSIT"%string.
Proof. reflexivity. Qed.

(** *** The job-title variant *)

Lemma starts_with_in (old s : chars) :
  starts_with old s = true -> forall c, In c old -> In c s.
Proof.
  revert s. induction old as [|a p IH]; intros s H c Hc; [destruct Hc|].
  destruct s as [|b r]; [discriminate|].
  simpl in H. apply andb_true_iff in H. destruct H as [Hab Hp].
  apply Ascii.eqb_eq in Hab. subst b.
  destruct Hc as [<-|Hc]; [now left|right; now apply IH].
Qed.

Lemma occurs_in (old s : chars) :
  occurs old s = true -> forall c, In c old -> In c s.
Proof.
  induction s as [|x r IH]; [discriminate|].
  simpl occurs. rewrite orb_true_iff. intros [H|H] c Hc.
  - now apply (starts_with_in old).
  - right. now apply IH.
Qed.

Lemma replace_absent (old new s : chars) :
  occurs old s = false -> replace old new s = s.
Proof.
  unfold replace. induction s as [|x r IH]; [reflexivity|].
  simpl occurs. rewrite orb_false_iff. intros [H1 H2].
  cbn [replace_from]. rewrite H1. f_equal. now apply IH.
Qed.

Lemma absent_char (old s : chars) (c : ascii) :
  In c old -> ~ In c s -> occurs old s = false.
Proof.
  intros Hc Hn. destruct (occurs old s) eqn:E; [|reflexivity].
  exfalso. apply Hn. now apply (occurs_in old).
Qed.

Lemma job_keep_fixed (c : ascii) :
  normalize_jobs.keep c = true -> upper_char c = c.
Proof.
  unfold normalize_jobs.keep. rewrite !orb_true_iff.
  intros H. apply not_az_upper.
  destruct (is_az c) eqn:Haz; [|reflexivity].
  apply in_range_spec in Haz. not_lowercase H Haz.
Qed.

Lemma job_normal_chars (s : chars) :
  Forall (fun c => normalize_jobs.keep c = true)
         (normalize_jobs.normalize_chars s).
Proof.
  unfold normalize_jobs.normalize_chars, re_sub_drop.
  apply join_split_chars; [reflexivity|].
  apply Forall_forall. intros c Hc. now apply filter_In in Hc.
Qed.

(** The job variant leaves single-spaced text of kept characters as it is
    when the text holds no slash between two spaces. *)
Lemma job_normal_fixed (t : chars) :
  single_spaced t ->
  Forall (fun c => normalize_jobs.keep c = true) t ->
  occurs (of_string " / ") t = false ->
  normalize_jobs.normalize_chars t = t.
Proof.
  intros (ws & Hws & ->) Hk Hno.
  assert (Hnot : forall c, normalize_jobs.keep c = false -> ~ In c (join ws)).
  { intros c Hc Hin. rewrite Forall_forall in Hk. apply Hk in Hin. congruence. }
  unfold normalize_jobs.normalize_chars, re_sub_drop, upper.
  rewrite map_fixed.
  2:{ eapply Forall_impl; [|exact Hk]. apply job_keep_fixed. }
  rewrite (replace_absent _ _ _ Hno).
  rewrite (replace_absent (of_string " - ")).
  2:{ apply (absent_char _ _ "-"%char); [simpl; auto|now apply Hnot]. }
  rewrite (replace_absent (of_string ",")).
  2:{ apply (absent_char _ _ ","%char); [simpl; auto|now apply Hnot]. }
  rewrite filter_all by assumption. now rewrite split_join.
Qed.

(** X2.  The job [normalize_string] is idempotent on every title whose
    normalized form holds no slash standing between two spaces. *)
Theorem normalize_jobs_idempotent_unless_slash (s : string) :
  occurs (of_string " / ") (of_string (normalize_jobs.normalize_string s)) = false ->
  normalize_jobs.normalize_string (normalize_jobs.normalize_string s)
  = normalize_jobs.normalize_string s.
Proof.
  unfold normalize_jobs.normalize_string.
  rewrite of_to_string. intros Hno. f_equal.
  apply job_normal_fixed.
  - apply join_split_single_spaced.
  - apply job_normal_chars.
  - exact Hno.
Qed.

(** C5 at a slash set off by two spaces on each side: the first pass leaves
    " / " behind, the second pass removes its spaces. *)
Theorem job_normalize_not_idempotent :
  normalize_jobs.normalize_string "Teacher  /  Principal"
    = "TEACHER / PRINCIPAL"%string /\
  normalize_jobs.normalize_string
    (normalize_jobs.normalize_string "Teacher  /  Principal")
    = "TEACHER/PRINCIPAL"%string.
Proof. split; reflexivity. Qed.

End StringFacts.

Lemma normalize_jobs_idempotent_unless_slash_witness :
  occurs (of_string " / ")
         (of_string (normalize_jobs.normalize_string "Teacher / Principal, Acting"))
    = false /\
  normalize_jobs.normalize_string
    (normalize_jobs.normalize_string "Teacher / Principal, Acting")
  = normalize_jobs.normalize_string "Teacher / Principal, Acting".
Proof.
  split; [reflexivity|].
  exact (normalize_jobs_idempotent_unless_slash "Teacher / Principal, Acting"
           eq_refl).
Defined.

(** *** The employer script's [main] *)

Section EmployerMain.

Lemma dict_get_set (d : dict) (k v k' : string) :
  dict_get (dict_set k v d) k' =
  if String.eqb k k' then Some v else dict_get d k'.
Proof.
  unfold dict_get. induction d as [|[a b] t IH]; simpl.
  - now destruct (String.eqb k k').
  - destruct (String.eqb_spec a k) as [->|Hak]; simpl.
    + now destruct (String.eqb k k').
    + destruct (String.eqb_spec a k') as [->|Hak']; simpl.
      * destruct (String.eqb_spec k k') as [->|_]; [congruence|reflexivity].
      * exact IH.
Qed.

Lemma find_app (A : Type) (p : A -> bool) (l1 l2 : list A) :
  find p (l1 ++ l2) =
  match find p l1 with
  | Some x => Some x
  | None => find p l2
  end.
Proof.
  induction l1 as [|x t IH]; [reflexivity|].
  simpl. now destruct (p x).
Qed.

Lemma dict_zip_from (rows : list (string * string)) :
  forall (d : dict) (k : string),
    dict_get (fold_left (fun d kv => dict_set (fst kv) (snd kv) d) rows d) k =
    match find (fun kv => String.eqb (fst kv) k) (rev rows) with
    | Some kv => Some (snd kv)
    | None => dict_get d k
    end.
Proof.
  induction rows as [|[a b] t IH]; intros d k; [reflexivity|].
  simpl fold_left. rewrite IH. simpl rev. rewrite find_app.
  destruct (find _ (rev t)); [reflexivity|].
  simpl. rewrite dict_get_set.
  now destruct (String.eqb a k).
Qed.

(** X12.  In the alias table a raw text has the canonical text of the last
    row of the alias file that lists it, and none when no row lists it. *)
Theorem alias_last_row_wins (rows : list (string * string)) (k : string) :
  dict_get (dict_zip rows) k
  = option_map snd (find (fun kv => String.eqb (fst kv) k) (rev rows)).
Proof.
  unfold dict_zip. rewrite dict_zip_from.
  now destruct (find _ (rev rows)).
Qed.

(** X13.  Every [employer_canonical] is a fixed point of
    [normalize_string], with or without an alias; an employer that the
    alias file does not list (or when there is no alias file) gets its
    [employer_clean]. *)
Theorem employer_canonical_normal (aliases : option (list (string * string)))
    (employer : string) :
  normalize_employers.normalize_string (employer_canonical aliases employer)
  = employer_canonical aliases employer /\
  (match aliases with
   | Some rows => dict_get (dict_zip rows) employer = None
   | None => True
   end ->
   employer_canonical aliases employer = employer_clean employer).
Proof.
  split.
  - unfold employer_canonical. apply employer_normalize_twice.
  - unfold employer_canonical, employer_clean.
    destruct aliases as [rows|]; [intros ->|intros _];
      apply employer_normalize_twice.
Qed.

Variable md5_id : string -> Z.

Lemma drop_duplicates_from_filter (c : string) (l : list string) :
  forall seen,
    filter (String.eqb c) (normalize_employers.drop_duplicates_from seen l) =
    if existsb (String.eqb c) seen then []
    else if existsb (String.eqb c) l then [c] else [].
Proof.
  induction l as [|x t IH]; intros seen; simpl.
  - now destruct (existsb (String.eqb c) seen).
  - destruct (existsb (String.eqb x) seen) eqn:Ex.
    + rewrite IH. destruct (existsb (String.eqb c) seen) eqn:Ec; [reflexivity|].
      destruct (String.eqb_spec c x) as [->|_]; [congruence|reflexivity].
    + simpl. rewrite IH. simpl.
      destruct (String.eqb_spec c x) as [->|Hcx]; simpl;
        [now rewrite Ex|reflexivity].
Qed.

Lemma unique_employers_row (canonicals : list string) (c : string) :
  In c canonicals ->
  filter (fun kv => String.eqb (fst kv) c) (unique_employers md5_id canonicals)
  = [(c, md5_id c)].
Proof.
  intros Hc. unfold unique_employers, normalize_employers.drop_duplicates.
  assert (E : forall l,
             filter (fun kv : string * Z => String.eqb (fst kv) c)
                    (map (fun x => (x, md5_id x)) l)
             = map (fun x => (x, md5_id x)) (filter (String.eqb c) l)).
  { induction l as [|x t IH]; [reflexivity|]. simpl.
    rewrite (String.eqb_sym x c).
    destruct (String.eqb c x); simpl; now rewrite IH. }
  rewrite E, drop_duplicates_from_filter. simpl.
  assert (Hx : existsb (String.eqb c) canonicals = true).
  { apply existsb_exists. exists c. split; [assumption|apply String.eqb_refl]. }
  now rewrite Hx.
Qed.

(** X14.  The merge of the ids back into the rows keeps every row, in
    order, and gives each the id of its canonical name; so rows of equal
    canonical name have equal employer_id. *)
Theorem employer_ids_by_name (canonicals : list string) :
  with_employer_id md5_id canonicals
  = map (fun c => (c, Some (md5_id c))) canonicals.
Proof.
  unfold with_employer_id, normalize_employers.merge_left.
  assert (H : forall l, (forall c, In c l -> In c canonicals) ->
            flat_map
              (fun k =>
                 match filter (fun kv : string * Z => String.eqb (fst kv) k)
                              (unique_employers md5_id canonicals) with
                 | [] => [(k, None)]
                 | ms => map (fun kv => (k, Some (snd kv))) ms
                 end) l
            = map (fun c => (c, Some (md5_id c))) l).
  { induction l as [|x t IH]; intros Hl; [reflexivity|].
    simpl. rewrite (unique_employers_row canonicals x) by (apply Hl; now left).
    simpl. f_equal. apply IH. intros c Hc. apply Hl. now right. }
  apply H. auto.
Qed.

End EmployerMain.

(** *** Job families *)

Section JobFamilies.

Lemma lower_upper_char (c : ascii) :
  normalize_jobs.lower_char (upper_char c) = normalize_jobs.lower_char c.
Proof.
  destruct c as [[] [] [] [] [] [] [] []]; reflexivity.
Qed.

Lemma lower_upper (s : chars) :
  normalize_jobs.lower (upper s) = normalize_jobs.lower s.
Proof.
  unfold normalize_jobs.lower, upper. rewrite map_map.
  apply map_ext. intros c. apply lower_upper_char.
Qed.

(** X15.  For a title of ASCII characters the job family does not
    depend on the case of the letters: the upper-cased title is
    classified as the title itself.  (Outside ASCII, upper-casing can
    change the letters themselves.) *)
Theorem infer_family_ignores_case (title : string) :
  Forall (fun c => (code c < 128)%nat) (of_string title) ->
  normalize_jobs.infer_family (to_string (upper (of_string title)))
  = normalize_jobs.infer_family title.
Proof.
  intros _. unfold normalize_jobs.infer_family.
  now rewrite of_to_string, lower_upper.
Qed.

End JobFamilies.

Example police_manager_is_police :
  normalize_jobs.infer_family "POLICE MANAGER" = "Police"%string.
Proof. reflexivity. Qed.

Example aliases_by_raw_text :
  map (employer_canonical
         (Some [("City of Toronto", "Toronto (City)");
                ("City of Toronto", "Toronto, City of")]%string))
      ["City of Toronto"; "CITY OF TORONTO"]%string
  = ["TORONTO CITY OF"; "CITY OF TORONTO"]%string.
Proof. reflexivity. Qed.

Lemma employer_canonical_normal_witness :
  dict_get (dict_zip [("Metro Toronto", "City of Toronto")]%string)
           "Toronto Hydro" = None /\
  employer_canonical (Some [("Metro Toronto", "City of Toronto")]%string)
                     "Toronto Hydro"
  = employer_clean "Toronto Hydro".
Proof.
  split; [reflexivity|].
  exact (proj2 (employer_canonical_normal
                  (Some [("Metro Toronto", "City of Toronto")]%string)
                  "Toronto Hydro") eq_refl).
Defined.

(** *** The canonical job title *)

Section JobCanonical.

Lemma tidy_cons (c : ascii) (r : chars) :
  tidy (c :: r) =
  negb (is_space c) &&
  match r with
  | [] => true
  | d :: r' =>
      if is_space d
      then Ascii.eqb d space && match r' with [] => false | _ :: _ => tidy r' end
      else tidy r
  end.
Proof. reflexivity. Qed.

Lemma tidy_head (c : ascii) (r : chars) :
  tidy (c :: r) = true -> is_space c = false.
Proof.
  rewrite tidy_cons. intros H. apply andb_true_iff in H.
  destruct H as [H _]. now destruct (is_space c).
Qed.

Lemma tidy_push (c d : ascii) (r : chars) :
  is_space c = false -> is_space d = false ->
  tidy (c :: d :: r) = tidy (d :: r).
Proof. intros Hc Hd. rewrite tidy_cons, Hc, Hd. reflexivity. Qed.

Lemma tidy_push_space (c d : ascii) (r : chars) :
  is_space c = false ->
  tidy (c :: space :: d :: r) = tidy (d :: r).
Proof. intros Hc. rewrite tidy_cons, Hc. reflexivity. Qed.

Lemma join_cons_word (c : ascii) (w : chars) (ws : list chars) :
  join ((c :: w) :: ws) = c :: join (w :: ws).
Proof. destruct ws; reflexivity. Qed.

Lemma split_head (c : ascii) (r : chars) :
  is_space c = false -> split (c :: r) <> [].
Proof.
  intros Hc. rewrite split_cons, Hc.
  destruct r as [|d r']; [discriminate|].
  destruct (is_space d); [discriminate|].
  destruct (split (d :: r')); discriminate.
Qed.

(** [" ".join(s.split())] leaves tidy text as it is. *)
Lemma tidy_join_split (n : nat) :
  forall s : chars, (List.length s <= n)%nat -> tidy s = true -> join (split s) = s.
Proof.
  induction n as [|n IH]; intros s Hlen Ht.
  - destruct s; [reflexivity|simpl in Hlen; lia].
  - destruct s as [|c r]; [reflexivity|].
    pose proof (tidy_head _ _ Ht) as Hc.
    rewrite tidy_cons, Hc in Ht. simpl in Ht, Hlen.
    rewrite split_cons, Hc.
    destruct r as [|d r']; [reflexivity|].
    destruct (is_space d) eqn:Hd.
    + apply andb_true_iff in Ht. destruct Ht as [Ed Ht].
      apply Ascii.eqb_eq in Ed. subst d.
      destruct r' as [|e r'']; [discriminate|].
      rewrite split_cons, Hd.
      pose proof (split_head e r'' (tidy_head _ _ Ht)) as Hne.
      assert (E : join (split (e :: r'')) = e :: r'')
        by (apply IH; [simpl in *; lia|exact Ht]).
      destruct (split (e :: r'')) as [|w ws]; [congruence|].
      change (join ([c] :: w :: ws)) with (c :: space :: join (w :: ws)).
      now rewrite E.
    + pose proof (split_head d r' Hd) as Hne.
      assert (E : join (split (d :: r')) = d :: r')
        by (apply IH; [simpl in *; lia|exact Ht]).
      destruct (split (d :: r')) as [|w ws]; [congruence|].
      rewrite join_cons_word. now rewrite E.
Qed.

Lemma tidy_word_then (w rest : chars) :
  wordy w ->
  (rest = [] \/ exists d u, rest = space :: d :: u /\ tidy (d :: u) = true) ->
  tidy (w ++ rest) = true.
Proof.
  intros [Hne Hw] Hrest.
  induction w as [|c w' IH]; [congruence|].
  inversion Hw as [|? ? Hc Hw']; subst.
  destruct w' as [|c' w''].
  - simpl app. destruct Hrest as [->|(d & u & -> & Hu)].
    + rewrite tidy_cons, Hc. reflexivity.
    + now rewrite tidy_push_space.
  - inversion Hw' as [|? ? Hc' _]; subst.
    change ((c :: c' :: w'') ++ rest) with (c :: c' :: (w'' ++ rest)).
    rewrite tidy_push by assumption.
    apply IH; [discriminate|assumption].
Qed.

Lemma join_tidy (ws : list chars) : Forall wordy ws -> tidy (join ws) = true.
Proof.
  induction 1 as [|w ws Hw Hws IH]; [reflexivity|].
  destruct ws as [|w2 ws].
  - simpl. rewrite <- (app_nil_r w). apply tidy_word_then; auto.
  - change (join (w :: w2 :: ws)) with (w ++ space :: join (w2 :: ws)).
    apply tidy_word_then; [assumption|]. right.
    inversion Hws as [|? ? [Hne2 _] _]; subst.
    destruct (join (w2 :: ws)) as [|d u] eqn:E.
    + exfalso. destruct w2 as [|x w2']; [congruence|].
      rewrite join_cons_word in E. discriminate.
    + exists d, u. auto.
Qed.

Lemma tidy_single_spaced (s : chars) : tidy s = true -> single_spaced s.
Proof.
  intros H. exists (split s). split; [apply split_wordy|].
  symmetry. now apply (tidy_join_split (List.length s)).
Qed.

(** [replace(' / ', '/')] at the head of the text. *)
Lemma replace_slash_cons (c : ascii) (r : chars) :
  replace spaced_slash slash (c :: r) =
  if starts_with spaced_slash (c :: r)
  then "/"%char :: replace spaced_slash slash (skipn 2 r)
  else c :: replace spaced_slash slash r.
Proof.
  unfold replace. cbn [replace_from].
  destruct (starts_with spaced_slash (c :: r)) eqn:E; [|reflexivity].
  unfold spaced_slash in E.
  change (of_string " / ") with [space; "/"%char; space] in E.
  destruct r as [|a [|b u]]; cbn [starts_with] in E;
    try (rewrite ?andb_false_r in E; discriminate).
  reflexivity.
Qed.

Lemma starts_spaced_slash (c : ascii) (r : chars) :
  starts_with spaced_slash (c :: r) = true ->
  c = space /\ exists u, r = "/"%char :: space :: u.
Proof.
  unfold spaced_slash. change (of_string " / ") with [space; "/"%char; space].
  destruct r as [|a [|b u]]; cbn [starts_with];
    rewrite ?andb_false_r; try discriminate.
  rewrite andb_true_r, !andb_true_iff, !Ascii.eqb_eq.
  intros (<- & <- & <-). split; [reflexivity|]. now exists u.
Qed.

Lemma no_match_at_word (c : ascii) (r : chars) :
  is_space c = false -> starts_with spaced_slash (c :: r) = false.
Proof.
  intros Hc. destruct (starts_with spaced_slash (c :: r)) eqn:E; [|reflexivity].
  apply starts_spaced_slash in E. destruct E as [-> _]. discriminate.
Qed.

Lemma occurs_at_word (c : ascii) (r : chars) :
  is_space c = false -> occurs spaced_slash (c :: r) = occurs spaced_slash r.
Proof.
  intros Hc. change (occurs spaced_slash (c :: r))
    with (starts_with spaced_slash (c :: r) || occurs spaced_slash r).
  now rewrite no_match_at_word.
Qed.

(** A spaced slash that shows after the replacement stood there before. *)
Lemma match_after_replace (e : ascii) (r : chars) :
  is_space e = false ->
  starts_with spaced_slash (space :: replace spaced_slash slash (e :: r)) = true ->
  starts_with spaced_slash (space :: e :: r) = true.
Proof.
  intros He. rewrite replace_slash_cons, (no_match_at_word e r He).
  intros H. apply starts_spaced_slash in H. destruct H as [_ (u & Hu)].
  injection Hu as -> Hu.
  destruct r as [|d r']; [discriminate|].
  rewrite replace_slash_cons in Hu.
  destruct (starts_with spaced_slash (d :: r')) eqn:Hm; [discriminate|].
  injection Hu as -> _. reflexivity.
Qed.

(** On tidy text, [replace(' / ', '/')] returns tidy text that starts as
    the text did and holds no spaced slash any more. *)
Lemma replace_tidy (n : nat) :
  forall s : chars,
    (List.length s <= n)%nat -> tidy s = true ->
    tidy (replace spaced_slash slash s) = true /\
    occurs spaced_slash (replace spaced_slash slash s) = false /\
    hd_error (replace spaced_slash slash s) = hd_error s.
Proof.
  induction n as [|n IH]; intros s Hlen Ht.
  - destruct s; [auto|simpl in Hlen; lia].
  - destruct s as [|c r]; [auto|].
    pose proof (tidy_head _ _ Ht) as Hc.
    rewrite replace_slash_cons, (no_match_at_word c r Hc).
    rewrite (occurs_at_word c _ Hc).
    split; [|split; [|reflexivity]].
    + rewrite tidy_cons, Hc in Ht. simpl in Ht, Hlen.
      destruct r as [|d r']; [simpl; now rewrite Hc|].
      destruct (is_space d) eqn:Hd.
      * apply andb_true_iff in Ht. destruct Ht as [Ed Ht].
        apply Ascii.eqb_eq in Ed. subst d.
        destruct r' as [|e r'']; [discriminate|].
        rewrite replace_slash_cons.
        destruct (starts_with spaced_slash (space :: e :: r'')) eqn:Hm.
        -- apply starts_spaced_slash in Hm. destruct Hm as [_ (u & Hu)].
           injection Hu as -> ->. simpl skipn.
           rewrite tidy_cons in Ht. simpl in Ht.
           destruct u as [|f u']; [discriminate|].
           destruct (IH (f :: u')) as (T & _ & Hh);
             [simpl in *; lia|exact Ht|].
           destruct (replace spaced_slash slash (f :: u')) as [|f' y];
             [discriminate|].
           injection Hh as ->.
           pose proof (tidy_head _ _ Ht) as Hf.
           rewrite tidy_push by (assumption || reflexivity).
           now rewrite tidy_push by (assumption || reflexivity).
        -- destruct (IH (e :: r'')) as (T & _ & Hh);
             [simpl in *; lia|exact Ht|].
           destruct (replace spaced_slash slash (e :: r'')) as [|e' y];
             [discriminate|].
           injection Hh as ->.
           now rewrite tidy_push_space.
      * destruct (IH (d :: r')) as (T & _ & Hh);
          [simpl in *; lia|exact Ht|].
        destruct (replace spaced_slash slash (d :: r')) as [|d' y];
          [discriminate|].
        injection Hh as ->.
        now rewrite tidy_push.
    + rewrite tidy_cons, Hc in Ht. simpl in Ht, Hlen.
      destruct r as [|d r']; [reflexivity|].
      destruct (is_space d) eqn:Hd.
      * apply andb_true_iff in Ht. destruct Ht as [Ed Ht].
        apply Ascii.eqb_eq in Ed. subst d.
        destruct r' as [|e r'']; [discriminate|].
        pose proof (tidy_head _ _ Ht) as He.
        rewrite replace_slash_cons.
        destruct (starts_with spaced_slash (space :: e :: r'')) eqn:Hm.
        -- apply starts_spaced_slash in Hm. destruct Hm as [_ (u & Hu)].
           injection Hu as -> ->. simpl skipn.
           rewrite tidy_cons in Ht. simpl in Ht.
           destruct u as [|f u']; [discriminate|].
           destruct (IH (f :: u')) as (_ & O & _);
             [simpl in *; lia|exact Ht|].
           rewrite occurs_at_word by reflexivity. exact O.
        -- destruct (IH (e :: r'')) as (_ & O & _);
             [simpl in *; lia|exact Ht|].
           change (occurs spaced_slash
                     (space :: replace spaced_slash slash (e :: r'')))
             with (starts_with spaced_slash
                     (space :: replace spaced_slash slash (e :: r''))
                   || occurs spaced_slash (replace spaced_slash slash (e :: r''))).
           rewrite O, orb_false_r.
           destruct (starts_with spaced_slash
                       (space :: replace spaced_slash slash (e :: r''))) eqn:Hm';
             [|reflexivity].
           apply match_after_replace in Hm'; [congruence|assumption].
      * destruct (IH (d :: r')) as (_ & O & _);
          [simpl in *; lia|exact Ht|].
        exact O.
Qed.

Lemma replace_from_chars (P : ascii -> Prop) (old new : chars) (s : chars) :
  Forall P new -> Forall P s ->
  forall skip : nat, Forall P (replace_from old new skip s).
Proof.
  intros Hnew. induction 1 as [|c r Hc Hr IH]; intros skip; [constructor|].
  cbn [replace_from]. destruct skip as [|k]; [|apply IH].
  destruct (starts_with old (c :: r)).
  - apply Forall_app. split; [assumption|apply IH].
  - constructor; [assumption|apply IH].
Qed.

(** A second pass of the job [normalize_string] only joins the spaced
    slashes the first pass left, and its result is a fixed point. *)
Lemma job_second_pass (s : chars) :
  let t := normalize_jobs.normalize_chars s in
  normalize_jobs.normalize_chars t = replace spaced_slash slash t /\
  occurs spaced_slash (normalize_jobs.normalize_chars t) = false /\
  normalize_jobs.normalize_chars (normalize_jobs.normalize_chars t)
  = normalize_jobs.normalize_chars t.
Proof.
  intros t.
  assert (Hk : Forall (fun c => normalize_jobs.keep c = true) t)
    by apply job_normal_chars.
  assert (Ht : tidy t = true) by (apply join_tidy, split_wordy).
  destruct (replace_tidy (List.length t) t (le_n _) Ht) as (Tr & Or & _).
  assert (Hkr : Forall (fun c => normalize_jobs.keep c = true)
                       (replace spaced_slash slash t)).
  { apply replace_from_chars; [repeat constructor|assumption]. }
  assert (Hnot : forall c, normalize_jobs.keep c = false ->
                           ~ In c (replace spaced_slash slash t)).
  { intros c Hc Hin. rewrite Forall_forall in Hkr. apply Hkr in Hin. congruence. }
  assert (E : normalize_jobs.normalize_chars t = replace spaced_slash slash t).
  { unfold normalize_jobs.normalize_chars at 1. unfold re_sub_drop, upper.
    rewrite map_fixed.
    2:{ eapply Forall_impl; [|exact Hk]. apply job_keep_fixed. }
    fold spaced_slash slash.
    rewrite (replace_absent (of_string " - ")).
    2:{ apply (absent_char _ _ "-"%char); [simpl; auto|now apply Hnot]. }
    rewrite (replace_absent (of_string ",")).
    2:{ apply (absent_char _ _ ","%char); [simpl; auto|now apply Hnot]. }
    rewrite filter_all by assumption.
    now apply (tidy_join_split (List.length (replace spaced_slash slash t))). }
  split; [exact E|]. rewrite E. split; [exact Or|].
  apply job_normal_fixed; [now apply tidy_single_spaced|assumption|exact Or].
Qed.

(** X20.  A title that the alias file does not list (or any title when
    there is no alias file) gets a [job_canonical] that holds no slash
    between two spaces and that [normalize_string] leaves as it is: the
    two passes of [main] reach a fixed point, where one pass need not.
    The canonical title is the once-normalized title with every
    [" / "] joined to ["/"]. *)
Theorem job_canonical_fixed_point
    (aliases : option (list (string * string))) (job_title : string) :
  match aliases with
  | Some rows => dict_get (dict_zip rows) job_title = None
  | None => True
  end ->
  normalize_jobs.normalize_string (normalize_jobs.job_canonical aliases job_title)
  = normalize_jobs.job_canonical aliases job_title /\
  occurs (of_string " / ")
         (of_string (normalize_jobs.job_canonical aliases job_title)) = false /\
  of_string (normalize_jobs.job_canonical aliases job_title)
  = replace (of_string " / ") (of_string "/")
      (of_string (normalize_jobs.job_clean job_title)).
Proof.
  intros Hno.
  assert (E : normalize_jobs.job_canonical aliases job_title
              = normalize_jobs.normalize_string
                  (normalize_jobs.normalize_string job_title)).
  { unfold normalize_jobs.job_canonical, normalize_jobs.job_clean.
    destruct aliases as [rows|]; [now rewrite Hno|reflexivity]. }
  rewrite E. unfold normalize_jobs.job_clean, normalize_jobs.normalize_string.
  rewrite !of_to_string.
  destruct (job_second_pass (of_string job_title)) as (E1 & E2 & E3).
  split; [now rewrite E3|]. split; [exact E2|exact E1].
Qed.

End JobCanonical.

Lemma job_canonical_fixed_point_witness :
  normalize_jobs.job_clean "Teacher  /  Principal" = "TEACHER / PRINCIPAL"%string /\
  normalize_jobs.job_canonical None "Teacher  /  Principal"
    = "TEACHER/PRINCIPAL"%string /\
  normalize_jobs.normalize_string
    (normalize_jobs.job_canonical None "Teacher  /  Principal")
  = normalize_jobs.job_canonical None "Teacher  /  Principal".
Proof.
  split; [reflexivity|]. split; [reflexivity|].
  exact (proj1 (job_canonical_fixed_point None "Teacher  /  Principal" I)).
Defined.

Lemma infer_family_ignores_case_witness :
  normalize_jobs.infer_family "POLICE CONSTABLE"
  = normalize_jobs.infer_family "Police Constable".
Proof.
  apply (infer_family_ignores_case "Police Constable").
  repeat constructor.
Defined.

End Normalize.

(** ** Identity linkage *)

Module Linker.
Import link_persons.

Section LinkerFacts.

Lemma str_inj (n m : nat) : str n = str m -> n = m.
Proof.
  unfold str. intros H.
  apply Unsigned.to_uint_inj.
  assert (E : Some (Nat.to_uint n) = Some (Nat.to_uint m)).
  { rewrite <- !NilEmpty.usu. now rewrite H. }
  now injection E.
Qed.

(** The column-wise computation of [should_link] is the row-by-row scan. *)
Lemma should_link_from (prev : option named) (l : list named) :
  let names := map name_clean l in
  let emps := map (fun r => employer_id (base r)) l in
  let years := map (fun r => year (base r)) l in
  map and3
    (combine
       (combine
          (map (eq_prev String.eqb)
               (combine names
                  (firstn (List.length names)
                     (option_map name_clean prev :: map Some names))))
          (map (eq_prev Z.eqb)
               (combine emps
                  (firstn (List.length emps)
                     (option_map (fun r => employer_id (base r)) prev
                        :: map Some emps)))))
       (map le2
          (map diff_prev
             (combine years
                (firstn (List.length years)
                   (option_map (fun r => year (base r)) prev
                      :: map Some years))))))
  = links_from prev l.
Proof.
  revert prev. induction l as [|r t IH]; intros prev; [reflexivity|].
  cbn -[Z.sub Z.leb String.eqb Z.eqb].
  f_equal.
  - destruct prev as [p|]; reflexivity.
  - exact (IH (Some r)).
Qed.

Lemma should_link_scan (l : list named) : should_link l = links_from None l.
Proof. exact (should_link_from None l). Qed.

Lemma person_group_id_scan (l : list named) :
  person_group_id l = group_ids_from 0 None l.
Proof.
  unfold person_group_id, group_ids_from, cumsum. now rewrite should_link_scan.
Qed.

Lemma links_from_length prev l : List.length (links_from prev l) = List.length l.
Proof. revert prev; induction l; intros; simpl; auto. Qed.

Lemma cumsum_from_length acc bs : List.length (cumsum_from acc bs) = List.length bs.
Proof. revert acc; induction bs; intros; simpl; auto. Qed.

Lemma group_ids_length acc prev l :
  List.length (group_ids_from acc prev l) = List.length l.
Proof.
  unfold group_ids_from.
  now rewrite cumsum_from_length, length_map, links_from_length.
Qed.

Lemma links_from_nth (l : list named) (prev : option named) (i : nat) :
  nth_error (links_from prev l) i =
  option_map (links_to (match i with O => prev | S j => nth_error l j end))
             (nth_error l i).
Proof.
  revert prev i. induction l as [|r t IH]; intros prev [|i]; try reflexivity.
  simpl. rewrite IH. destruct i; reflexivity.
Qed.

Lemma chain_start_links (l : list named) (k : nat) (b : bool) :
  nth_error (map negb (links_from None l)) k = Some b -> chain_start l k = b.
Proof.
  rewrite nth_error_map, links_from_nth. unfold chain_start.
  destruct (nth_error l k); simpl; [|discriminate].
  now intros [= <-].
Qed.

Lemma filter_seq_shift (f : nat -> bool) (n : nat) :
  List.length (filter f (seq 1 n))
  = List.length (filter (fun k => f (S k)) (seq 0 n)).
Proof.
  rewrite <- seq_shift.
  induction (seq 0 n) as [|x l IH]; [reflexivity|].
  simpl. destruct (f (S x)); simpl; now rewrite IH.
Qed.

(** A running sum of flags counts the flags set so far. *)
Lemma cumsum_from_counts (bs : list bool) :
  forall (acc i g : nat) (f : nat -> bool),
    (forall k b, nth_error bs k = Some b -> f k = b) ->
    nth_error (cumsum_from acc bs) i = Some g ->
    g = (acc + List.length (filter f (seq 0 (S i))))%nat.
Proof.
  induction bs as [|b t IH]; intros acc i g f Hf Hg; [now destruct i|].
  assert (H0 : f 0%nat = b) by (apply Hf; reflexivity).
  destruct i as [|j].
  - simpl in *. injection Hg as <-. rewrite H0. destruct b; simpl; lia.
  - simpl in Hg.
    apply IH with (f := fun k => f (S k)) in Hg.
    2:{ intros k b' Hk. apply Hf. exact Hk. }
    change (seq 0 (S (S j))) with (0%nat :: seq 1 (S j)).
    cbn [filter]. rewrite H0.
    destruct b; cbn [List.length]; rewrite filter_seq_shift; lia.
Qed.

Lemma cumsum_from_step (bs : list bool) :
  forall (acc i g g' : nat) (b : bool),
    nth_error (cumsum_from acc bs) i = Some g ->
    nth_error (cumsum_from acc bs) (S i) = Some g' ->
    nth_error bs (S i) = Some b ->
    g' = (g + if b then 1 else 0)%nat.
Proof.
  induction bs as [|b0 t IH]; intros acc i g g' b Hg Hg' Hb; [now destruct i|].
  destruct i as [|j].
  - simpl in Hg. injection Hg as <-.
    destruct t as [|b1 t]; [discriminate|].
    simpl in *. injection Hg' as <-. now injection Hb as <-.
  - simpl in Hg, Hg', Hb. eapply IH; eassumption.
Qed.

Lemma links_to_same (p r : named) :
  links_to (Some p) r = true -> same_identity r p.
Proof.
  simpl. rewrite !andb_true_iff. intros [[Hn He] _].
  split; [now apply String.eqb_eq|now apply Z.eqb_eq].
Qed.

Lemma same_identity_trans a b c :
  same_identity a b -> same_identity b c -> same_identity a c.
Proof. intros [? ?] [? ?]; split; congruence. Qed.

Lemma same_identity_sym a b : same_identity a b -> same_identity b a.
Proof. intros [? ?]; split; congruence. Qed.

Lemma chains_homogeneous (l : list named) :
  forall (acc : nat) (prev : option named),
    let out := combine l (group_ids_from acc prev l) in
    (forall r g, In (r, g) out ->
       (acc <= g)%nat /\
       (g = acc -> forall p, prev = Some p -> same_identity r p)) /\
    (forall r g r', In (r, g) out -> In (r', g) out -> same_identity r r').
Proof.
  induction l as [|x t IH]; intros acc prev out.
  - split; intros; contradiction.
  - subst out. unfold group_ids_from. cbn [links_from map cumsum_from combine].
    set (acc' := (acc + (if negb (links_to prev x) then 1 else 0))%nat).
    destruct (IH acc' (Some x)) as [IHa IHb].
    fold (group_ids_from acc' (Some x) t).
    assert (Hx : acc' = acc -> forall p, prev = Some p -> same_identity x p).
    { intros E p ->. apply links_to_same.
      subst acc'. destruct (links_to (Some p) x); [reflexivity|simpl in E; lia]. }
    assert (Hle : (acc <= acc')%nat) by (subst acc'; lia).
    split.
    + intros r g [[= <- <-]|Hin].
      * split; [exact Hle|exact Hx].
      * destruct (IHa _ _ Hin) as [Hge Hsame]. split; [lia|].
        intros -> p Hp. assert (E : acc' = acc) by lia.
        eapply same_identity_trans; [apply Hsame; [lia|reflexivity]|].
        now apply Hx.
    + intros r g r' [[= <- <-]|Hin] [[= <- ]|Hin'].
      * split; reflexivity.
      * destruct (IHa _ _ Hin') as [_ Hsame].
        apply same_identity_sym, Hsame; reflexivity.
      * subst g. destruct (IHa _ _ Hin) as [_ Hsame]. apply Hsame; reflexivity.
      * eapply IHb; eassumption.
Qed.

(** *** The sort *)

Lemma key_leb_total (a b : named) : key_leb a b = false -> key_leb b a = true.
Proof.
  unfold key_leb.
  rewrite (String.compare_antisym (name_clean a) (name_clean b)).
  destruct (String.compare (name_clean b) (name_clean a)); simpl; try congruence.
  rewrite (Z.compare_antisym (year (base b)) (year (base a))).
  destruct (Z.compare (year (base b)) (year (base a))); simpl; try congruence.
  intros H.
  apply Qle_bool_iff, Qlt_le_weak, Qnot_le_lt.
  intros Hle. apply Qle_bool_iff in Hle. congruence.
Qed.

Lemma insert_row_perm (r : named) (l : list named) :
  Permutation (r :: l) (insert_row r l).
Proof.
  induction l as [|x t IH]; simpl; [reflexivity|].
  destruct (key_leb r x); [reflexivity|].
  rewrite perm_swap. now constructor.
Qed.

Lemma sort_values_perm (l : list named) : Permutation l (sort_values l).
Proof.
  induction l as [|r t IH]; simpl; [constructor|].
  rewrite <- insert_row_perm. now constructor.
Qed.

Lemma insert_row_hd (r x : named) (l : list named) :
  key_le x r -> HdRel key_le x l -> HdRel key_le x (insert_row r l).
Proof.
  intros Hxr Hl. destruct l as [|y t]; simpl; [now constructor|].
  destruct (key_leb r y); constructor; [assumption|].
  now inversion Hl.
Qed.

Lemma insert_row_sorted (r : named) (l : list named) :
  Sorted key_le l -> Sorted key_le (insert_row r l).
Proof.
  induction 1 as [|x t Ht IH Hx]; simpl; [repeat constructor|].
  destruct (key_leb r x) eqn:E.
  - constructor; [now constructor|now constructor].
  - constructor; [assumption|].
    apply insert_row_hd; [|assumption]. now apply key_leb_total.
Qed.

Lemma sort_values_sorted (l : list named) : Sorted key_le (sort_values l).
Proof.
  induction l as [|r t IH]; simpl; [constructor|now apply insert_row_sorted].
Qed.

Lemma with_names_base (df : list row) : map base (with_names df) = df.
Proof.
  unfold with_names. rewrite map_map. simpl. apply map_id.
Qed.

Lemma with_names_clean (df : list row) (n : named) :
  In n (with_names df) -> name_clean n = clean_name (base n).
Proof.
  unfold with_names. rewrite in_map_iff. now intros (r & <- & _).
Qed.

(** *** The result, row by row *)

Lemma nth_error_combine (A B : Type) (l1 : list A) (l2 : list B) (i : nat) :
  nth_error (combine l1 l2) i =
  match nth_error l1 i, nth_error l2 i with
  | Some a, Some b => Some (a, b)
  | _, _ => None
  end.
Proof.
  revert l2 i. induction l1 as [|x t IH]; intros [|y l2] [|i]; simpl; auto.
  - now destruct (nth_error t i).
Qed.

Lemma fast_link_persons_nth (df : list row) (i : nat) (a : linked) :
  nth_error (fast_link_persons df) i = Some a ->
  exists g,
    nth_error (scan_order df) i = Some (src a) /\
    nth_error (group_ids_from 0 None (scan_order df)) i = Some g /\
    person_id a = str g.
Proof.
  unfold fast_link_persons. fold (scan_order df).
  rewrite person_group_id_scan, nth_error_map, nth_error_combine.
  destruct (nth_error (scan_order df) i) as [r|]; [|discriminate].
  destruct (nth_error (group_ids_from 0 None (scan_order df)) i) as [g|];
    [|discriminate].
  intros [= <-]. exists g. auto.
Qed.

Lemma map_fst_combine_eq (A B : Type) (l1 : list A) (l2 : list B) :
  List.length l1 = List.length l2 -> map fst (combine l1 l2) = l1.
Proof.
  revert l2. induction l1 as [|x t IH]; intros [|y l2] H; simpl in *;
    try discriminate; [reflexivity|].
  f_equal. apply IH. lia.
Qed.

Lemma fast_link_persons_src (df : list row) :
  map src (fast_link_persons df) = scan_order df.
Proof.
  unfold fast_link_persons. fold (scan_order df).
  rewrite map_map. simpl.
  apply map_fst_combine_eq.
  now rewrite person_group_id_scan, group_ids_length.
Qed.

Lemma fast_link_persons_in (df : list row) (a : linked) :
  In a (fast_link_persons df) ->
  exists g, In (src a, g)
              (combine (scan_order df) (group_ids_from 0 None (scan_order df)))
            /\ person_id a = str g.
Proof.
  unfold fast_link_persons. fold (scan_order df).
  rewrite person_group_id_scan, in_map_iff.
  intros ([r g] & <- & Hin). exists g. simpl. auto.
Qed.

Lemma cumsum_from_dense (bs : list bool) :
  forall (acc g n : nat),
    In g (cumsum_from acc bs) -> (acc < n <= g)%nat ->
    In n (cumsum_from acc bs).
Proof.
  induction bs as [|b t IH]; intros acc g n Hg Hn; [destruct Hg|].
  simpl in *. destruct Hg as [<-|Hg].
  - left. destruct b; lia.
  - destruct (Nat.eq_dec n (acc + (if b then 1 else 0))) as [->|Hne];
      [now left|].
    right. apply (IH _ g); [assumption|]. destruct b; lia.
Qed.

Lemma cumsum_from_above (bs : list bool) :
  forall (acc g : nat), In g (cumsum_from acc bs) -> (acc <= g)%nat.
Proof.
  induction bs as [|b t IH]; intros acc g Hg; [destruct Hg|].
  simpl in Hg. destruct Hg as [<-|Hg]; [lia|].
  apply IH in Hg. lia.
Qed.

(** C3.  The scan order is the input with its name keys, sorted by name
    key, year and total compensation.  The person_id of every row is the
    decimal text of the number of chain starts at or before the row; a row
    that opens a name group is a chain start; the identifiers are dense:
    every number from 1 up to an identifier in use is in use. *)
Theorem person_id_counts_chain_starts (df : list row) (i : nat) (a : linked) :
  nth_error (fast_link_persons df) i = Some a ->
  let scan := scan_order df in
  Permutation (with_names df) scan /\
  Permutation df (map base scan) /\
  Sorted key_le scan /\
  nth_error scan i = Some (src a) /\
  name_clean (src a) = clean_name (base (src a)) /\
  person_id a = str (chain_starts_upto scan i) /\
  ((i = 0%nat \/
    exists p, nth_error scan (i - 1) = Some p /\
              name_clean p <> name_clean (src a)) ->
   chain_start scan i = true) /\
  (forall n, (1 <= n <= chain_starts_upto scan i)%nat ->
     exists b, In b (fast_link_persons df) /\ person_id b = str n).
Proof.
  intros Ha scan.
  destruct (fast_link_persons_nth _ _ _ Ha) as (g & Hr & Hg & Hp).
  fold scan in Hr, Hg.
  assert (Eg : g = chain_starts_upto scan i).
  { unfold group_ids_from in Hg.
    apply cumsum_from_counts with (f := chain_start scan) in Hg;
      [exact Hg|apply chain_start_links]. }
  split; [apply sort_values_perm|].
  split.
  { rewrite <- (with_names_base df) at 1.
    apply Permutation_map, sort_values_perm. }
  split; [apply sort_values_sorted|].
  split; [exact Hr|].
  split.
  { apply (with_names_clean df).
    apply (Permutation_in _ (Permutation_sym (sort_values_perm _))).
    eapply nth_error_In; exact Hr. }
  split; [congruence|].
  split.
  - intros Hfirst. unfold chain_start. rewrite Hr.
    destruct Hfirst as [->|(p & Hp' & Hne)]; [reflexivity|].
    destruct i as [|j]; [reflexivity|].
    simpl in Hp'. rewrite Nat.sub_0_r in Hp'. rewrite Hp'. simpl.
    destruct (String.eqb_spec (name_clean (src a)) (name_clean p)) as [E|_];
      [congruence|reflexivity].
  - intros n Hn. rewrite <- Eg in Hn.
    assert (Hin : In n (group_ids_from 0 None scan)).
    { apply cumsum_from_dense with (g := g); [|lia].
      eapply nth_error_In; exact Hg. }
    apply In_nth_error in Hin. destruct Hin as [k Hk].
    destruct (nth_error (fast_link_persons df) k) as [b|] eqn:Eb.
    + exists b. split; [eapply nth_error_In; exact Eb|].
      destruct (fast_link_persons_nth _ _ _ Eb) as (g' & _ & Hg' & Hp').
      fold scan in Hg'. congruence.
    + exfalso. apply nth_error_None in Eb.
      assert (Hk' : (k < List.length (group_ids_from 0 None scan))%nat)
        by (apply nth_error_Some; congruence).
      rewrite group_ids_length in Hk'.
      rewrite <- (length_map src), fast_link_persons_src in Eb.
      fold scan in Eb. lia.
Qed.

Lemma same_person_same_identity (df : list row) (a b : linked) :
  In a (fast_link_persons df) ->
  In b (fast_link_persons df) ->
  person_id a = person_id b -> same_identity (src a) (src b).
Proof.
  intros Ha Hb E.
  destruct (fast_link_persons_in _ _ Ha) as (g & Hag & Hpa).
  destruct (fast_link_persons_in _ _ Hb) as (g' & Hbg & Hpb).
  assert (g = g') by (apply str_inj; congruence). subst g'.
  exact (proj2 (chains_homogeneous (scan_order df) 0 None) _ _ _ Hag Hbg).
Qed.

(** C2.  Two rows of the result with the same person_id have the same
    employer_id and the same name key; hence two rows with the same name
    key and different employer_id never share a person_id, whatever their
    years. *)
Theorem chain_single_employer_and_name (df : list row) (a b : linked) :
  In a (fast_link_persons df) ->
  In b (fast_link_persons df) ->
  (person_id a = person_id b ->
     employer_id (base (src a)) = employer_id (base (src b)) /\
     name_clean (src a) = name_clean (src b)) /\
  (name_clean (src a) = name_clean (src b) ->
   employer_id (base (src a)) <> employer_id (base (src b)) ->
   person_id a <> person_id b).
Proof.
  intros Ha Hb.
  assert (H : person_id a = person_id b -> same_identity (src a) (src b)).
  { intros E.
    destruct (fast_link_persons_in _ _ Ha) as (g & Hag & Hpa).
    destruct (fast_link_persons_in _ _ Hb) as (g' & Hbg & Hpb).
    assert (g = g') by (apply str_inj; congruence). subst g'.
    exact (proj2 (chains_homogeneous (scan_order df) 0 None) _ _ _ Hag Hbg). }
  split.
  - intros E. destruct (H E). auto.
  - intros _ Hne E. destruct (H E). auto.
Qed.

(** C1, as the code has it.  For two rows next to each other in the scan
    order that carry the same name key and the same employer_id, a year gap
    of at most 2 (so a gap of exactly 2) gives both the same person_id, and
    a gap of 3 or more gives them different ones; no other column is
    looked at. *)
Theorem adjacent_gap_rule (df : list row) (i : nat) (a b : linked) :
  nth_error (fast_link_persons df) i = Some a ->
  nth_error (fast_link_persons df) (S i) = Some b ->
  name_clean (src a) = name_clean (src b) ->
  employer_id (base (src a)) = employer_id (base (src b)) ->
  let gap := (year (base (src b)) - year (base (src a)))%Z in
  (gap = 2%Z -> person_id b = person_id a) /\
  ((gap <= 2)%Z -> person_id b = person_id a) /\
  ((3 <= gap)%Z -> person_id b <> person_id a).
Proof.
  intros Ha Hb Hn He gap.
  destruct (fast_link_persons_nth _ _ _ Ha) as (g & Hra & Hg & Hpa).
  destruct (fast_link_persons_nth _ _ _ Hb) as (g' & Hrb & Hg' & Hpb).
  unfold group_ids_from in Hg, Hg'.
  assert (Hl : nth_error (map negb (links_from None (scan_order df))) (S i)
               = Some (negb (links_to (Some (src a)) (src b)))).
  { rewrite nth_error_map, links_from_nth, Hrb, Hra. reflexivity. }
  pose proof (cumsum_from_step _ _ _ _ _ _ Hg Hg' Hl) as Hstep.
  assert (Hlink : links_to (Some (src a)) (src b) = (gap <=? 2)%Z).
  { simpl. rewrite <- Hn, <- He, String.eqb_refl, Z.eqb_refl. reflexivity. }
  rewrite Hlink in Hstep.
  assert (Hle : (gap <= 2)%Z -> person_id b = person_id a).
  { intros Hgap. apply Z.leb_le in Hgap. rewrite Hgap in Hstep. simpl in Hstep.
    rewrite Hpa, Hpb. f_equal. lia. }
  split; [intros E; apply Hle; lia|].
  split; [exact Hle|].
  intros Hgap E.
  assert (Hf : (gap <=? 2)%Z = false) by (apply Z.leb_gt; lia).
  rewrite Hf in Hstep. simpl in Hstep.
  rewrite Hpa, Hpb in E. apply str_inj in E. lia.
Qed.

End LinkerFacts.

Example interleaved_ids :
  map person_id (fast_link_persons interleaved) = ["1"; "2"; "3"]%string.
Proof. reflexivity. Qed.

Example every_other_year_ids :
  map person_id (fast_link_persons every_other_year) = ["1"; "1"; "1"]%string.
Proof. reflexivity. Qed.

Example two_years_apart_one_person :
  map person_id (fast_link_persons two_years_apart) = ["1"; "1"]%string.
Proof. reflexivity. Qed.

Example other_employer_two_persons :
  map person_id (fast_link_persons [smith 1 1996 125000; smith 2 1998 136000])
  = ["1"; "2"]%string.
Proof. reflexivity. Qed.

Example three_years_apart_two_persons :
  map person_id (fast_link_persons [smith 1 1996 125000; smith 1 1999 136000])
  = ["1"; "2"]%string.
Proof. reflexivity. Qed.

Lemma gap_rule_counterexample :
  ~ (forall (df : list row) (a b : linked),
       In a (fast_link_persons df) -> In b (fast_link_persons df) ->
       name_clean (src a) = name_clean (src b) ->
       employer_id (base (src a)) = employer_id (base (src b)) ->
       (year (base (src b)) - year (base (src a)) = 2)%Z ->
       person_id a = person_id b) /\
  ~ (forall (df : list row) (a b : linked),
       In a (fast_link_persons df) -> In b (fast_link_persons df) ->
       name_clean (src a) = name_clean (src b) ->
       employer_id (base (src a)) = employer_id (base (src b)) ->
       (3 <= year (base (src b)) - year (base (src a)))%Z ->
       person_id a <> person_id b).
Proof.
  split; intros H.
  - specialize (H interleaved
                  (nth 0 (fast_link_persons interleaved)
                       (Build_linked (Build_named (smith 0 0 0) "" 0) "" ""))
                  (nth 2 (fast_link_persons interleaved)
                       (Build_linked (Build_named (smith 0 0 0) "" 0) "" ""))).
    cbv in H.
    assert (E : "1"%string = "3"%string) by (apply H; auto).
    discriminate E.
  - specialize (H every_other_year
                  (nth 0 (fast_link_persons every_other_year)
                       (Build_linked (Build_named (smith 0 0 0) "" 0) "" ""))
                  (nth 2 (fast_link_persons every_other_year)
                       (Build_linked (Build_named (smith 0 0 0) "" 0) "" ""))).
    cbv in H.
    apply H; auto. discriminate.
Qed.

Lemma adjacent_gap_rule_witness :
  exists a b,
    nth_error (fast_link_persons two_years_apart) 0 = Some a /\
    nth_error (fast_link_persons two_years_apart) 1 = Some b /\
    person_id b = person_id a.
Proof.
  eexists. eexists.
  split; [reflexivity|]. split; [reflexivity|].
  apply (adjacent_gap_rule two_years_apart 0 _ _ eq_refl eq_refl eq_refl eq_refl).
  reflexivity.
Defined.

Lemma chain_single_employer_and_name_witness :
  exists a b,
    In a (fast_link_persons two_years_apart) /\
    In b (fast_link_persons two_years_apart) /\
    person_id a = person_id b /\
    employer_id (base (src a)) = employer_id (base (src b)).
Proof.
  eexists. eexists.
  assert (Ha : In (nth 0 (fast_link_persons two_years_apart)
                     (Build_linked (Build_named (smith 0 0 0) "" 0) "" ""))
                  (fast_link_persons two_years_apart)) by (cbv; auto).
  assert (Hb : In (nth 1 (fast_link_persons two_years_apart)
                     (Build_linked (Build_named (smith 0 0 0) "" 0) "" ""))
                  (fast_link_persons two_years_apart)) by (cbv; auto).
  split; [exact Ha|]. split; [exact Hb|]. split; [reflexivity|].
  exact (proj1 (proj1 (chain_single_employer_and_name two_years_apart _ _ Ha Hb)
                      eq_refl)).
Defined.

Lemma person_id_counts_chain_starts_witness :
  exists a,
    nth_error (fast_link_persons interleaved) 2 = Some a /\
    person_id a = str (chain_starts_upto (scan_order interleaved) 2) /\
    person_id a = "3"%string.
Proof.
  eexists. split; [reflexivity|]. split; [|reflexivity].
  exact (proj1 (proj2 (proj2 (proj2 (proj2 (proj2
           (@person_id_counts_chain_starts interleaved 2 _ eq_refl))))))).
Defined.

(** *** Columns the linker does not read *)

Section LinkerExtras.

Variable g : row -> string.

Let h := set_job_family g.

Lemma with_names_job_family (df : list row) :
  with_names (map h df) = map (on_base h) (with_names df).
Proof.
  unfold with_names.
  assert (E : map clean_name (map h df) = map clean_name df)
    by (rewrite map_map; reflexivity).
  rewrite E, !map_map. reflexivity.
Qed.

Lemma insert_row_job_family (r : named) (l : list named) :
  insert_row (on_base h r) (map (on_base h) l)
  = map (on_base h) (insert_row r l).
Proof.
  induction l as [|x t IH]; [reflexivity|].
  simpl. change (key_leb (on_base h r) (on_base h x)) with (key_leb r x).
  destruct (key_leb r x); simpl; [reflexivity|]. now rewrite IH.
Qed.

Lemma sort_values_job_family (l : list named) :
  sort_values (map (on_base h) l) = map (on_base h) (sort_values l).
Proof.
  induction l as [|r t IH]; [reflexivity|].
  simpl. fold (sort_values (map (on_base h) t)).
  rewrite IH. apply insert_row_job_family.
Qed.

Lemma links_from_job_family (l : list named) (prev : option named) :
  links_from (option_map (on_base h) prev) (map (on_base h) l)
  = links_from prev l.
Proof.
  revert prev. induction l as [|r t IH]; intros prev; [reflexivity|].
  simpl. f_equal; [now destruct prev|]. exact (IH (Some r)).
Qed.

Lemma person_group_id_job_family (l : list named) :
  person_group_id (map (on_base h) l) = person_group_id l.
Proof.
  rewrite !person_group_id_scan. unfold group_ids_from.
  pose proof (links_from_job_family l None) as E. simpl in E.
  now rewrite E.
Qed.

Lemma map_snd_combine_eq (A B : Type) (l1 : list A) (l2 : list B) :
  List.length l1 = List.length l2 -> map snd (combine l1 l2) = l2.
Proof.
  revert l2. induction l1 as [|x t IH]; intros [|y l2] H; simpl in *;
    try discriminate; [reflexivity|].
  f_equal. apply IH. lia.
Qed.

Lemma fast_link_persons_ids (df : list row) :
  map person_id (fast_link_persons df)
  = map str (person_group_id (scan_order df)).
Proof.
  unfold fast_link_persons. fold (scan_order df).
  rewrite map_map. simpl.
  rewrite <- (map_map snd str). f_equal.
  apply map_snd_combine_eq.
  now rewrite person_group_id_scan, group_ids_length.
Qed.

(** X4.  The job family takes no part in linking: whatever job families
    the rows carry, every row gets the same person_id. *)
Theorem job_family_not_a_criterion (df : list row) :
  map person_id (fast_link_persons (map (set_job_family g) df))
  = map person_id (fast_link_persons df).
Proof.
  rewrite !fast_link_persons_ids. unfold scan_order.
  fold h. rewrite with_names_job_family, sort_values_job_family.
  now rewrite person_group_id_job_family.
Qed.

End LinkerExtras.

Section LinkerChains.

Lemma cumsum_from_monotone (bs : list bool) :
  forall (acc i j gi gj : nat),
    (i <= j)%nat ->
    nth_error (cumsum_from acc bs) i = Some gi ->
    nth_error (cumsum_from acc bs) j = Some gj ->
    (gi <= gj)%nat.
Proof.
  induction bs as [|b t IH]; intros acc i j gi gj Hij Hi Hj; [now destruct i|].
  destruct i as [|i'].
  - simpl in Hi. injection Hi as <-.
    apply nth_error_In in Hj.
    change (In gj (cumsum_from acc (b :: t))) in Hj.
    simpl in Hj. destruct Hj as [<-|Hj]; [lia|].
    apply cumsum_from_above in Hj. lia.
  - destruct j as [|j']; [lia|]. simpl in Hi, Hj.
    eapply IH; [|exact Hi|exact Hj]. lia.
Qed.

(** X5.  The rows of one person are contiguous in the result: a row
    between two rows of the same person_id has that person_id too. *)
Theorem person_rows_contiguous (df : list row) (i j k : nat) (a b c : linked) :
  (i <= j <= k)%nat ->
  nth_error (fast_link_persons df) i = Some a ->
  nth_error (fast_link_persons df) j = Some b ->
  nth_error (fast_link_persons df) k = Some c ->
  person_id a = person_id c ->
  person_id b = person_id a.
Proof.
  intros [Hij Hjk] Ha Hb Hc E.
  destruct (fast_link_persons_nth _ _ _ Ha) as (ga & _ & Hga & Hpa).
  destruct (fast_link_persons_nth _ _ _ Hb) as (gb & _ & Hgb & Hpb).
  destruct (fast_link_persons_nth _ _ _ Hc) as (gc & _ & Hgc & Hpc).
  unfold group_ids_from in *.
  pose proof (cumsum_from_monotone _ _ _ _ _ _ Hij Hga Hgb).
  pose proof (cumsum_from_monotone _ _ _ _ _ _ Hjk Hgb Hgc).
  assert (ga = gc) by (apply str_inj; congruence).
  rewrite Hpa, Hpb. f_equal. lia.
Qed.

Lemma sorted_adjacent (l : list named) :
  Sorted key_le l ->
  forall (i : nat) (a b : named),
    nth_error l i = Some a -> nth_error l (S i) = Some b -> key_le a b.
Proof.
  induction 1 as [|x t Ht IH Hx]; intros i a b Ha Hb; [now destruct i|].
  destruct i as [|i'].
  - simpl in Ha, Hb. injection Ha as <-.
    destruct t as [|y u]; [discriminate|]. simpl in Hb. injection Hb as <-.
    now inversion Hx.
  - simpl in Ha, Hb. eapply IH; eassumption.
Qed.

Lemma key_le_same_name (a b : named) :
  key_le a b -> name_clean a = name_clean b ->
  (year (base a) <= year (base b))%Z.
Proof.
  unfold key_le, key_leb. intros H E. rewrite E in H.
  assert (Hc : String.compare (name_clean b) (name_clean b) = Eq).
  { pose proof (String.compare_antisym (name_clean b) (name_clean b)) as Ha.
    destruct (String.compare (name_clean b) (name_clean b));
      [reflexivity|discriminate Ha|discriminate Ha]. }
  rewrite Hc in H.
  destruct (Z.compare_spec (year (base a)) (year (base b))); [lia|lia|discriminate].
Qed.

(** X6.  Two rows next to each other in the result that carry the same
    person_id have the same name key and the same employer_id, and the
    second is of the same year or of one of the two years after. *)
Theorem chain_steps (df : list row) (i : nat) (a b : linked) :
  nth_error (fast_link_persons df) i = Some a ->
  nth_error (fast_link_persons df) (S i) = Some b ->
  person_id a = person_id b ->
  name_clean (src a) = name_clean (src b) /\
  employer_id (base (src a)) = employer_id (base (src b)) /\
  (0 <= year (base (src b)) - year (base (src a)) <= 2)%Z.
Proof.
  intros Ha Hb E.
  destruct (fast_link_persons_nth _ _ _ Ha) as (g & Hra & Hg & Hpa).
  destruct (fast_link_persons_nth _ _ _ Hb) as (g' & Hrb & Hg' & Hpb).
  unfold group_ids_from in Hg, Hg'.
  assert (Hl : nth_error (map negb (links_from None (scan_order df))) (S i)
               = Some (negb (links_to (Some (src a)) (src b)))).
  { rewrite nth_error_map, links_from_nth, Hrb, Hra. reflexivity. }
  pose proof (cumsum_from_step _ _ _ _ _ _ Hg Hg' Hl) as Hstep.
  assert (Hgg : g = g') by (apply str_inj; congruence).
  rewrite <- Hgg in Hstep.
  destruct (links_to (Some (src a)) (src b)) eqn:Hlink;
    [|simpl in Hstep; lia].
  simpl in Hlink. rewrite !andb_true_iff in Hlink.
  destruct Hlink as [[Hn He] Hy].
  apply String.eqb_eq in Hn. apply Z.eqb_eq in He. apply Z.leb_le in Hy.
  repeat split; try congruence; try exact Hy.
  assert (Hle : key_le (src a) (src b)).
  { eapply sorted_adjacent; [apply sort_values_sorted|exact Hra|exact Hrb]. }
  apply key_le_same_name in Hle; [lia|congruence].
Qed.

End LinkerChains.

Lemma person_rows_contiguous_witness :
  exists a b c,
    nth_error (fast_link_persons every_other_year) 0 = Some a /\
    nth_error (fast_link_persons every_other_year) 1 = Some b /\
    nth_error (fast_link_persons every_other_year) 2 = Some c /\
    person_id b = person_id a.
Proof.
  eexists. eexists. eexists.
  split; [reflexivity|]. split; [reflexivity|]. split; [reflexivity|].
  apply (person_rows_contiguous every_other_year 0 1 2 _ _ _
           (conj (le_S _ _ (le_n 0)) (le_S _ _ (le_n 1)))
           eq_refl eq_refl eq_refl eq_refl).
Defined.

Lemma chain_steps_witness :
  exists a b,
    nth_error (fast_link_persons two_years_apart) 0 = Some a /\
    nth_error (fast_link_persons two_years_apart) 1 = Some b /\
    employer_id (base (src a)) = employer_id (base (src b)).
Proof.
  eexists. eexists.
  split; [reflexivity|]. split; [reflexivity|].
  exact (proj1 (proj2 (chain_steps two_years_apart 0 _ _ eq_refl eq_refl eq_refl))).
Defined.

Section LinkerNames.

Lemma filter_one (A : Type) (f : A -> bool) (l : list A) (i : nat) (x : A) :
  nth_error l i = Some x -> f x = true ->
  (1 <= List.length (filter f l))%nat.
Proof.
  intros Hx Hf. apply nth_error_In in Hx.
  assert (H : In x (filter f l)) by (apply filter_In; auto).
  destruct (filter f l); [destruct H|simpl; lia].
Qed.

Lemma filter_two (A : Type) (f : A -> bool) (l : list A) :
  forall (i j : nat) (x y : A),
    i <> j ->
    nth_error l i = Some x -> nth_error l j = Some y ->
    f x = true -> f y = true ->
    (2 <= List.length (filter f l))%nat.
Proof.
  induction l as [|z t IH]; intros i j x y Hij Hx Hy Hfx Hfy; [now destruct i|].
  destruct i as [|i'], j as [|j']; simpl in Hx, Hy.
  - congruence.
  - injection Hx as ->. simpl. rewrite Hfx. simpl.
    pose proof (filter_one _ f t j' y Hy Hfy). lia.
  - injection Hy as ->. simpl. rewrite Hfy. simpl.
    pose proof (filter_one _ f t i' x Hx Hfx). lia.
  - assert (Hne : i' <> j') by congruence.
    pose proof (IH i' j' x y Hne Hx Hy Hfx Hfy). simpl.
    destruct (f z); simpl; lia.
Qed.

Lemma filter_perm_length (A : Type) (f : A -> bool) (l l' : list A) :
  Permutation l l' -> List.length (filter f l) = List.length (filter f l').
Proof.
  induction 1 as [|x l l' _ IH|x y l|l l' l'' _ IH1 _ IH2]; simpl.
  - reflexivity.
  - destruct (f x); simpl; now rewrite IH.
  - destruct (f x), (f y); reflexivity.
  - congruence.
Qed.

Lemma with_names_keys (df : list row) :
  map name_clean (with_names df) = map clean_name df.
Proof. unfold with_names. rewrite map_map. reflexivity. Qed.

(** The name frequency of a row counts the rows of the input that share
    its name key. *)
Lemma name_freq_counts (df : list row) (n : named) :
  In n (scan_order df) ->
  name_freq n
  = List.length (filter (String.eqb (name_clean n)) (map name_clean (scan_order df))).
Proof.
  intros Hn. unfold scan_order in *.
  rewrite <- (filter_perm_length _ _ _ _
                (Permutation_map name_clean (sort_values_perm (with_names df)))).
  rewrite with_names_keys.
  apply (Permutation_in _ (Permutation_sym (sort_values_perm _))) in Hn.
  unfold with_names in Hn. apply in_map_iff in Hn.
  destruct Hn as (r & <- & _). reflexivity.
Qed.

(** X7.  A name that occurs once in the input is a person of its own: no
    other row of the result carries the person_id of its row. *)
Theorem single_name_single_person (df : list row) (i j : nat) (a b : linked) :
  nth_error (fast_link_persons df) i = Some a ->
  nth_error (fast_link_persons df) j = Some b ->
  name_freq (src a) = 1%nat ->
  person_id a = person_id b ->
  i = j.
Proof.
  intros Ha Hb Hone E.
  destruct (Nat.eq_dec i j) as [Hij|Hij]; [exact Hij|exfalso].
  destruct (fast_link_persons_nth _ _ _ Ha) as (ga & Hra & _ & _).
  destruct (fast_link_persons_nth _ _ _ Hb) as (gb & Hrb & _ & _).
  assert (Hsame : name_clean (src a) = name_clean (src b)).
  { destruct (same_person_same_identity df a b
                (nth_error_In _ _ Ha) (nth_error_In _ _ Hb) E). assumption. }
  rewrite (name_freq_counts df (src a) (nth_error_In _ _ Hra)) in Hone.
  assert (H2 : (2 <= List.length (filter (String.eqb (name_clean (src a)))
                                    (map name_clean (scan_order df))))%nat).
  { apply (filter_two _ _ _ i j (name_clean (src a)) (name_clean (src b)) Hij).
    - now rewrite nth_error_map, Hra.
    - now rewrite nth_error_map, Hrb.
    - apply String.eqb_refl.
    - rewrite Hsame. apply String.eqb_refl. }
  lia.
Qed.

End LinkerNames.

Lemma single_name_single_person_witness :
  exists a,
    nth_error (fast_link_persons with_single_name) 0 = Some a /\
    name_freq (src a) = 1%nat /\
    0%nat = 0%nat.
Proof.
  eexists. split; [reflexivity|]. split; [reflexivity|].
  exact (single_name_single_person with_single_name 0 0 _ _
           eq_refl eq_refl eq_refl eq_refl).
Defined.

End Linker.

(** ** Cohort metrics *)

Module Cohort.
Import PyFloat analytics.

Section CohortFacts.

Variable tie : fact -> fact -> bool.

(** *** Sorted distinct values *)

Lemma insert_uniq_in (x y : Z) (l : list Z) :
  In y (insert_uniq x l) <-> y = x \/ In y l.
Proof.
  induction l as [|z t IH]; simpl; [intuition|].
  destruct (Z.compare_spec x z) as [->|H|H]; simpl; [intuition| intuition |].
  rewrite IH. intuition.
Qed.

Lemma sorted_unique_in (x : Z) (l : list Z) :
  In x (sorted_unique l) <-> In x l.
Proof.
  induction l as [|z t IH]; simpl; [reflexivity|].
  rewrite insert_uniq_in, IH. intuition.
Qed.

Lemma insert_uniq_sorted (x : Z) (l : list Z) :
  StronglySorted Z.lt l -> StronglySorted Z.lt (insert_uniq x l).
Proof.
  induction 1 as [|z t Ht IH Hz]; simpl; [repeat constructor|].
  destruct (Z.compare_spec x z) as [->|H|H].
  - now constructor.
  - constructor; [now constructor|].
    constructor; [assumption|].
    eapply Forall_impl; [|exact Hz]. intros; lia.
  - constructor; [assumption|].
    apply Forall_forall. intros y Hy. apply insert_uniq_in in Hy.
    destruct Hy as [->|Hy]; [lia|].
    rewrite Forall_forall in Hz. now apply Hz.
Qed.

Lemma sorted_unique_sorted (l : list Z) : StronglySorted Z.lt (sorted_unique l).
Proof.
  induction l as [|z t IH]; simpl; [constructor|now apply insert_uniq_sorted].
Qed.

(** In an increasing list, the entries before position [idx] are the
    entries below the one at [idx]. *)
Lemma sorted_prefix_below (l : list Z) :
  StronglySorted Z.lt l ->
  forall (idx : nat) (y x : Z),
    nth_error l idx = Some y ->
    (In x (firstn idx l) <-> In x l /\ (x < y)%Z).
Proof.
  induction 1 as [|z t Ht IH Hz]; intros idx y x Hy; [now destruct idx|].
  rewrite Forall_forall in Hz.
  destruct idx as [|j]; simpl in *.
  - injection Hy as <-. split; [intros []|].
    intros [[<-|Hx] Hlt]; [lia|]. apply Hz in Hx. lia.
  - rewrite (IH j y x Hy).
    assert (z < y)%Z by (apply Hz; eapply nth_error_In; eassumption).
    split.
    + intros [<-|[Hx Hlt]]; auto.
    + intros [[<-|Hx] Hlt]; auto.
Qed.

Lemma years_in (df : list fact) (y : Z) :
  In y (years df) <-> exists r, In r df /\ year r = y.
Proof.
  unfold years. rewrite sorted_unique_in, in_map_iff.
  split; intros (r & H1 & H2); exists r; auto.
Qed.

Lemma existsb_eqb_in (x : Z) (l : list Z) :
  existsb (Z.eqb x) l = true <-> In x l.
Proof.
  rewrite existsb_exists. split.
  - intros (z & Hz & E). apply Z.eqb_eq in E. now subst.
  - intros H. exists x. split; [assumption|apply Z.eqb_refl].
Qed.

(** The rows [prev_df] starts from: the rows of the years before [y]. *)
Lemma prev_rows (df : list fact) (idx : nat) (y : Z) (r : fact) :
  nth_error (years df) idx = Some y ->
  (In r (filter (before df idx) df) <-> In r df /\ (year r < y)%Z).
Proof.
  intros Hy. unfold before. rewrite filter_In, existsb_eqb_in.
  rewrite (sorted_prefix_below _ (sorted_unique_sorted _) _ _ _ Hy).
  fold (years df). rewrite years_in. split.
  - intros (Hr & _ & Hlt). auto.
  - intros (Hr & Hlt). repeat split; auto. exists r. auto.
Qed.

(** *** Pairs *)

Lemma same_pair_key (a b : fact) :
  same_pair a b = true <-> pair_key a = pair_key b.
Proof.
  unfold same_pair, pair_key.
  rewrite andb_true_iff, String.eqb_eq, Z.eqb_eq.
  split; [intros [-> ->]; reflexivity|intros [= -> ->]; auto].
Qed.

Lemma same_pair_refl (a : fact) : same_pair a a = true.
Proof. now apply same_pair_key. Qed.

Lemma same_pair_congr (a b c : fact) :
  same_pair a b = true -> same_pair a c = same_pair b c.
Proof.
  intros H. apply same_pair_key in H.
  apply eq_true_iff_eq. rewrite !same_pair_key. now rewrite H.
Qed.

Lemma same_pair_sym (a b : fact) : same_pair a b = same_pair b a.
Proof.
  apply eq_true_iff_eq. rewrite !same_pair_key. split; congruence.
Qed.

Lemma seen_congr (a b : fact) (seen : list fact) :
  same_pair a b = true ->
  existsb (same_pair a) seen = existsb (same_pair b) seen.
Proof.
  intros H. induction seen as [|x t IH]; simpl; [reflexivity|].
  now rewrite IH, (same_pair_congr a b x H).
Qed.

(** *** The descending sort *)

Lemma insert_desc_perm (r : fact) (l : list fact) :
  Permutation (r :: l) (insert_desc tie r l).
Proof.
  induction l as [|x t IH]; simpl; [reflexivity|].
  destruct ((year x <? year r)%Z || ((year x =? year r)%Z && tie r x));
    [reflexivity|].
  rewrite perm_swap. now constructor.
Qed.

Lemma insert_desc_sorted (r : fact) (l : list fact) :
  StronglySorted year_ge l -> StronglySorted year_ge (insert_desc tie r l).
Proof.
  induction 1 as [|x t Ht IH Hx]; simpl; [repeat constructor|].
  rewrite Forall_forall in Hx. unfold year_ge in Hx.
  destruct ((year x <? year r)%Z || ((year x =? year r)%Z && tie r x)) eqn:E.
  - assert (Hle : (year x <= year r)%Z).
    { apply orb_true_iff in E. destruct E as [E|E].
      - apply Z.ltb_lt in E. lia.
      - apply andb_true_iff in E. destruct E as [E _].
        apply Z.eqb_eq in E. lia. }
    constructor; [now constructor; [|apply Forall_forall]|].
    apply Forall_forall. intros y [<-|Hy]; unfold year_ge; [assumption|].
    apply Hx in Hy. lia.
  - apply orb_false_iff in E. destruct E as [E _]. apply Z.ltb_ge in E.
    constructor; [assumption|].
    apply Forall_forall. intros y Hy.
    apply (Permutation_in _ (Permutation_sym (insert_desc_perm r t))) in Hy.
    destruct Hy as [<-|Hy]; unfold year_ge; [lia|now apply Hx].
Qed.

Lemma sort_year_desc_sorted (l : list fact) :
  StronglySorted year_ge (sort_year_desc tie l).
Proof.
  induction l as [|r t IH]; simpl; [constructor|now apply insert_desc_sorted].
Qed.

Lemma sort_year_desc_perm (l : list fact) :
  Permutation l (sort_year_desc tie l).
Proof.
  induction l as [|r t IH]; simpl; [constructor|].
  rewrite <- insert_desc_perm. now constructor.
Qed.

Lemma filter_sorted (f : fact -> bool) (l : list fact) :
  StronglySorted year_ge l -> StronglySorted year_ge (filter f l).
Proof.
  induction 1 as [|x t Ht IH Hx]; simpl; [constructor|].
  destruct (f x); [|exact IH].
  constructor; [exact IH|].
  rewrite Forall_forall in *. intros y Hy. apply Hx.
  now apply filter_In in Hy.
Qed.

(** The head of a descending list is of the greatest year. *)
Lemma sorted_head_max (l : list fact) (p : fact) :
  StronglySorted year_ge l -> hd_error l = Some p ->
  forall r, In r l -> (year r <= year p)%Z.
Proof.
  intros Hs Hh. destruct l as [|x t]; [discriminate|].
  injection Hh as ->. inversion Hs as [|? ? _ Hx]; subst.
  rewrite Forall_forall in Hx.
  intros r [<-|Hr]; [lia|]. now apply Hx.
Qed.

(** *** Dropping duplicates *)

Lemma drop_duplicates_from_in (l : list fact) :
  forall (seen : list fact) (p : fact),
    In p (drop_duplicates_from seen l) <->
    existsb (same_pair p) seen = false /\
    hd_error (filter (same_pair p) l) = Some p.
Proof.
  induction l as [|r t IH]; intros seen p; simpl.
  - split; [intros []|intros [_ H]; discriminate].
  - destruct (same_pair p r) eqn:Epr.
    + rewrite (seen_congr _ _ _ Epr).
      destruct (existsb (same_pair r) seen) eqn:Es.
      * rewrite IH. rewrite (seen_congr _ _ _ Epr), Es.
        split; intros [H _]; discriminate.
      * simpl. rewrite IH. simpl. rewrite Epr. simpl.
        split.
        -- intros [->|[H _]]; [auto|discriminate].
        -- intros [_ [= ->]]. now left.
    + assert (Hne : r <> p).
      { intros ->. now rewrite same_pair_refl in Epr. }
      destruct (existsb (same_pair r) seen) eqn:Es.
      * apply IH.
      * simpl. rewrite IH. simpl. rewrite Epr. simpl.
        split; [intros [H|H]; [contradiction|exact H]|auto].
Qed.

Lemma drop_duplicates_in (l : list fact) (p : fact) :
  In p (drop_duplicates l) <-> hd_error (filter (same_pair p) l) = Some p.
Proof.
  unfold drop_duplicates. rewrite drop_duplicates_from_in. simpl. tauto.
Qed.

(** After [drop_duplicates] a pair occurs at most once, and not at all
    when it has been seen before. *)
Lemma drop_duplicates_from_once (l : list fact) :
  forall (seen : list fact) (c : fact),
    (List.length (filter (same_pair c) (drop_duplicates_from seen l)) <= 1)%nat /\
    (existsb (same_pair c) seen = true ->
     filter (same_pair c) (drop_duplicates_from seen l) = []).
Proof.
  induction l as [|r t IH]; intros seen c; simpl; [auto|].
  destruct (existsb (same_pair r) seen) eqn:Es; [apply IH|].
  simpl. destruct (same_pair c r) eqn:Ecr.
  - rewrite (seen_congr _ _ _ Ecr), Es.
    destruct (IH (r :: seen) c) as [_ H].
    rewrite H by (simpl; now rewrite Ecr).
    split; [simpl; lia|discriminate].
  - destruct (IH (r :: seen) c) as [H1 H2]. split; [exact H1|].
    intros Hs. apply H2. simpl. now rewrite Hs, orb_true_r.
Qed.

Lemma drop_duplicates_covers (l : list fact) :
  forall (seen : list fact) (c : fact),
    In c l -> existsb (same_pair c) seen = false ->
    exists p, In p (drop_duplicates_from seen l) /\ same_pair c p = true.
Proof.
  induction l as [|r t IH]; intros seen c Hc Hs; [destruct Hc|].
  simpl. destruct (same_pair c r) eqn:Ecr.
  - rewrite <- (seen_congr _ _ _ Ecr), Hs. exists r. split; [now left|assumption].
  - destruct Hc as [->|Hc]; [now rewrite same_pair_refl in Ecr|].
    destruct (existsb (same_pair r) seen).
    + now apply IH.
    + destruct (IH (r :: seen) c Hc) as (p & Hp & E).
      { simpl. now rewrite Ecr, Hs. }
      exists p. split; [now right|assumption].
Qed.

Lemma filter_twice (A : Type) (f g : A -> bool) (l : list A) :
  filter f (filter g l) = filter (fun x => g x && f x) l.
Proof.
  induction l as [|x t IH]; simpl; [reflexivity|].
  destruct (g x); simpl; [destruct (f x)|]; now rewrite IH.
Qed.

Lemma prior_population_eq (df : list fact) (idx : nat) :
  prior_population tie df idx
  = drop_duplicates (sort_year_desc tie (filter (before df idx) df)).
Proof. reflexivity. Qed.

Lemma before_true (df : list fact) (idx : nat) (y : Z) (r : fact) :
  nth_error (years df) idx = Some y ->
  In r df -> (year r < y)%Z -> before df idx r = true.
Proof.
  intros Hy Hr Hlt.
  assert (H : In r (filter (before df idx) df)) by (apply (prev_rows _ _ _ _ Hy); auto).
  now apply filter_In in H.
Qed.

(** The rows of the prior population, and the pairs it covers. *)
Lemma prior_population_rows (df : list fact) (idx : nat) (y : Z) :
  nth_error (years df) idx = Some y ->
  let prior := prior_population tie df idx in
  (forall p, In p prior ->
     In p df /\ (year p < y)%Z /\
     forall r, In r df -> same_pair r p = true -> (year r < y)%Z ->
               (year r <= year p)%Z) /\
  (forall r, In r df -> (year r < y)%Z ->
     List.length (filter (same_pair r) prior) = 1%nat).
Proof.
  intros Hy prior. subst prior. rewrite prior_population_eq.
  set (prev := filter (before df idx) df).
  split.
  - intros p Hp.
    apply drop_duplicates_in in Hp.
    assert (Hin : In p (filter (same_pair p) (sort_year_desc tie prev))).
    { destruct (filter (same_pair p) (sort_year_desc tie prev)) as [|x u];
        [discriminate|]. injection Hp as ->. now left. }
    apply filter_In in Hin. destruct Hin as [Hin _].
    apply (Permutation_in _ (Permutation_sym (sort_year_desc_perm prev))) in Hin.
    apply (prev_rows _ _ _ _ Hy) in Hin. destruct Hin as [Hpdf Hpy].
    split; [assumption|]. split; [assumption|].
    intros r Hr Hs Hlt.
    apply (sorted_head_max (filter (same_pair p) (sort_year_desc tie prev)) p);
      [apply filter_sorted, sort_year_desc_sorted|exact Hp|].
    apply filter_In. split; [|now rewrite same_pair_sym].
    apply (Permutation_in _ (sort_year_desc_perm prev)).
    apply (prev_rows _ _ _ _ Hy). auto.
  - intros r Hr Hlt.
    assert (Hprev : In r (sort_year_desc tie prev)).
    { apply (Permutation_in _ (sort_year_desc_perm prev)).
      apply (prev_rows _ _ _ _ Hy). auto. }
    destruct (drop_duplicates_covers _ [] r Hprev eq_refl) as (p & Hp & Hs).
    destruct (drop_duplicates_from_once (sort_year_desc tie prev) [] r) as [Hle _].
    fold (drop_duplicates (sort_year_desc tie prev)) in Hp, Hle.
    assert (Hne : In p (filter (same_pair r)
                          (drop_duplicates (sort_year_desc tie prev))))
      by (apply filter_In; auto).
    destruct (filter (same_pair r) (drop_duplicates (sort_year_desc tie prev)));
      [destruct Hne|simpl in *; lia].
Qed.

(** *** The left join *)

Lemma existsb_filter (A : Type) (f g : A -> bool) (l : list A) :
  existsb (fun x => f x && g x) l = existsb g (filter f l).
Proof.
  induction l as [|x t IH]; simpl; [reflexivity|].
  destruct (f x); simpl; now rewrite IH.
Qed.

Lemma filter_nil_existsb (A : Type) (f : A -> bool) (l : list A) :
  filter f l = [] -> existsb f l = false.
Proof.
  induction l as [|x t IH]; simpl; [reflexivity|].
  destruct (f x); [discriminate|exact IH].
Qed.

Lemma filter_cons_existsb (A : Type) (f : A -> bool) (l : list A) x u :
  filter f l = x :: u -> existsb f l = true.
Proof.
  intros H. apply existsb_exists. exists x.
  apply filter_In. rewrite H. now left.
Qed.

Lemma stayed_in_filter (prev : list fact) (c : fact) :
  stayed_in prev c
  = existsb (fun p => notna (total_comp p)) (filter (same_pair c) prev).
Proof. unfold stayed_in. apply existsb_filter. Qed.

(** When [prev] has at most one row for a pair, the join has one row for
    every current row, marked as stayed when the row of its pair in
    [prev] has a [total_comp]. *)
Lemma merge_left_rows (curr prev : list fact) :
  (forall c, (List.length (filter (same_pair c) prev) <= 1)%nat) ->
  map (fun m => (cur m, stayed m)) (merge_left curr prev)
  = map (fun c => (c, stayed_in prev c)) curr.
Proof.
  intros Hone. induction curr as [|c t IH]; [reflexivity|].
  unfold merge_left in *. cbn [flat_map]. rewrite map_app, IH.
  cbn [map]. specialize (Hone c). rewrite (stayed_in_filter prev c).
  destruct (filter (same_pair c) prev) as [|p [|q u]] eqn:E.
  - reflexivity.
  - simpl. unfold stayed. simpl. now rewrite orb_false_r.
  - simpl in Hone. lia.
Qed.

Lemma merge_left_cur (curr prev : list fact) :
  (forall c, (List.length (filter (same_pair c) prev) <= 1)%nat) ->
  map cur (merge_left curr prev) = curr.
Proof.
  intros Hone.
  pose proof (f_equal (map fst) (merge_left_rows curr prev Hone)) as H.
  rewrite !map_map in H. simpl in H. now rewrite map_id in H.
Qed.

Lemma filter_map_length (A B : Type) (g : A -> B) (f : B -> bool) (l : list A) :
  List.length (filter f (map g l)) = List.length (filter (fun x => f (g x)) l).
Proof.
  induction l as [|x t IH]; simpl; [reflexivity|].
  destruct (f (g x)); simpl; now rewrite IH.
Qed.

Lemma filter_and_le (A : Type) (f g : A -> bool) (l : list A) :
  (List.length (filter (fun x => f x && g x) l) <= List.length (filter f l))%nat.
Proof.
  induction l as [|x t IH]; simpl; [lia|].
  destruct (f x), (g x); simpl; lia.
Qed.

Lemma prior_once (df : list fact) (idx : nat) (c : fact) :
  (List.length (filter (same_pair c) (prior_population tie df idx)) <= 1)%nat.
Proof.
  rewrite prior_population_eq. unfold drop_duplicates.
  apply drop_duplicates_from_once.
Qed.



(** *** Pay statistics *)

Lemma pay_stats_in (df : list fact) (s : pay_stat) :
  In s (pay_stats df) <->
  exists e y,
    In e (employers df) /\ In y (years df) /\
    current_rows df e y <> [] /\
    s = {| ps_employer := e; ps_year := y;
           headcount := count (valid (current_rows df e y));
           mean_pay := mean (valid (current_rows df e y)) |}.
Proof.
  unfold pay_stats, current_rows. rewrite in_flat_map. split.
  - intros (e & He & H). apply in_flat_map in H. destruct H as (y & Hy & H).
    exists e, y. fold (of_employer_year e y) in H.
    destruct (filter (of_employer_year e y) df) as [|r g] eqn:E; [destruct H|].
    destruct H as [<-|[]]. repeat split; auto. discriminate.
  - intros (e & y & He & Hy & Hne & ->). exists e. split; [assumption|].
    apply in_flat_map. exists y. split; [assumption|].
    fold (of_employer_year e y).
    destruct (filter (of_employer_year e y) df) as [|r g] eqn:E; [congruence|].
    now left.
Qed.

Lemma pay_map_get_some (df : list fact) (e y : Z) (s : pay_stat) :
  pay_map_get (pay_stats df) e y = Some s ->
  ps_employer s = e /\ ps_year s = y /\
  headcount s = count (valid (current_rows df e y)) /\
  current_rows df e y <> [].
Proof.
  unfold pay_map_get. intros H. apply find_some in H. destruct H as [Hin Hk].
  apply andb_true_iff in Hk. destruct Hk as [He Hy].
  apply Z.eqb_eq in He, Hy.
  apply pay_stats_in in Hin. destruct Hin as (e' & y' & _ & _ & Hne & ->).
  simpl in *. subst e' y'. auto.
Qed.

Lemma employers_in (df : list fact) (r : fact) :
  In r df -> In (employer_id r) (employers df).
Proof.
  intros H. unfold employers. apply sorted_unique_in. now apply in_map.
Qed.

Lemma own_group (df : list fact) (r : fact) :
  In r df -> In r (current_rows df (employer_id r) (year r)).
Proof.
  intros H. apply filter_In. split; [assumption|].
  unfold of_employer_year, of_employer, in_year. now rewrite !Z.eqb_refl.
Qed.

Lemma pay_map_get_present (df : list fact) (r : fact) :
  In r df ->
  exists s, pay_map_get (pay_stats df) (employer_id r) (year r) = Some s.
Proof.
  intros Hr. unfold pay_map_get.
  destruct (find _ (pay_stats df)) as [s|] eqn:E; [eauto|].
  exfalso.
  pose proof (find_none _ _ E) as Hnone.
  set (g := current_rows df (employer_id r) (year r)).
  specialize (Hnone {| ps_employer := employer_id r; ps_year := year r;
                       headcount := count (valid g);
                       mean_pay := mean (valid g) |}).
  simpl in Hnone. rewrite !Z.eqb_refl in Hnone.
  assert (F : true && true = false); [|discriminate F].
  apply Hnone. apply pay_stats_in.
  exists (employer_id r), (year r).
  split; [now apply employers_in|].
  split; [apply years_in; eauto|].
  split; [|reflexivity].
  intros Hnil. pose proof (own_group df r Hr) as Hin.
  rewrite Hnil in Hin. destruct Hin.
Qed.

(** *** The records of one year *)

Lemma filter_length_ext (A : Type) (f g : A -> bool) (l : list A) :
  (forall x, f x = g x) ->
  List.length (filter f l) = List.length (filter g l).
Proof. intros H. now rewrite (filter_ext _ _ H). Qed.

Lemma first_record_facts (df : list fact) (y : Z) (rec : metric) :
  In rec (first_year_records df y) ->
  m_year rec = y /\
  m_headcount rec = count (valid (current_rows df (m_employer rec) y)) /\
  current_rows df (m_employer rec) y <> [] /\
  stayed_count rec = 0%Z /\
  retention_rate rec = 0 /\
  growth_median rec = Fin 0.
Proof.
  unfold first_year_records. rewrite in_map_iff.
  intros (s & <- & Hs). apply filter_In in Hs. destruct Hs as [Hs Hy].
  apply Z.eqb_eq in Hy. simpl.
  apply pay_stats_in in Hs. destruct Hs as (e & y' & _ & _ & Hne & ->).
  simpl in *. subst y'. auto 7.
Qed.

Lemma later_stayed_count (df : list fact) (idx : nat) (y e : Z) :
  count (filter stayed
           (filter (fun m => of_employer e (cur m))
              (merge_left (filter (in_year y) df) (prior_population tie df idx))))
  = count (stayed_rows (prior_population tie df idx) df e y).
Proof.
  unfold count. f_equal.
  rewrite filter_twice.
  rewrite <- (filter_map_length _ _ (fun m => (cur m, stayed m))
                (fun x => of_employer e (fst x) && snd x)).
  rewrite merge_left_rows by apply prior_once.
  rewrite filter_map_length. simpl.
  rewrite filter_twice. unfold stayed_rows.
  apply filter_length_ext. intros c.
  unfold of_employer_year.
  destruct (in_year y c), (of_employer e c); reflexivity.
Qed.

Lemma later_record_facts (df : list fact) (idx : nat) (y : Z) (rec : metric) :
  In rec (later_year_records tie df idx y) ->
  m_year rec = y /\
  m_headcount rec = count (valid (current_rows df (m_employer rec) y)) /\
  current_rows df (m_employer rec) y <> [] /\
  stayed_count rec
    = count (stayed_rows (prior_population tie df idx) df (m_employer rec) y) /\
  retention_rate rec =
    (if (0 <? m_headcount rec)%Z
     then inject_Z (stayed_count rec) / inject_Z (m_headcount rec)
     else 0) /\
  growth_median rec <> NaN.
Proof.
  unfold later_year_records. rewrite in_flat_map.
  intros (row & Hrow & Hrec).
  destruct (pay_map_get (pay_stats df) (agg_employer row) y) as [st|] eqn:E;
    [|destruct Hrec].
  destruct Hrec as [<-|[]]. simpl.
  destruct (pay_map_get_some _ _ _ _ E) as (_ & _ & Hh & Hne).
  unfold aggregate in Hrow. apply in_map_iff in Hrow.
  destruct Hrow as (e & <- & _). simpl in *.
  repeat split; try assumption; try reflexivity.
  - apply later_stayed_count.
  - match goal with |- (if notna ?x then _ else _) <> _ =>
      destruct x; simpl; discriminate end.
Qed.

Lemma later_record_present (df : list fact) (idx : nat) (r : fact) :
  In r df ->
  exists rec, In rec (later_year_records tie df idx (year r)) /\
              m_employer rec = employer_id r.
Proof.
  intros Hr.
  destruct (pay_map_get_present df r Hr) as (st & Hst).
  unfold later_year_records.
  set (curr := filter (in_year (year r)) df).
  set (merged := merge_left curr (prior_population tie df idx)).
  assert (Hagg : exists row, In row (aggregate curr merged) /\
                             agg_employer row = employer_id r).
  { unfold aggregate. eexists. split.
    - apply in_map_iff. exists (employer_id r). split; [reflexivity|].
      apply sorted_unique_in.
      rewrite <- (map_map cur employer_id).
      unfold merged. rewrite merge_left_cur by apply prior_once.
      apply in_map. apply filter_In. split; [assumption|].
      apply Z.eqb_refl.
    - reflexivity. }
  destruct Hagg as (row & Hrow & He).
  eexists. split.
  - apply in_flat_map. exists row. split; [exact Hrow|].
    rewrite He, Hst. left. reflexivity.
  - reflexivity.
Qed.

Lemma first_record_present (df : list fact) (r : fact) :
  In r df ->
  exists rec, In rec (first_year_records df (year r)) /\
              m_employer rec = employer_id r.
Proof.
  intros Hr.
  destruct (pay_map_get_present df r Hr) as (st & Hst).
  unfold pay_map_get in Hst. apply find_some in Hst.
  destruct Hst as [Hin Hk]. apply andb_true_iff in Hk. destruct Hk as [He Hy].
  unfold first_year_records. eexists. split.
  - apply in_map_iff. exists st. split; [reflexivity|].
    apply filter_In. auto.
  - simpl. now apply Z.eqb_eq.
Qed.

(** *** The loop over the years *)

Lemma enumerate_from_in (A : Type) (l : list A) :
  forall (a i : nat) (x : A),
    In (i, x) (combine (seq a (List.length l)) l) <->
    (a <= i)%nat /\ nth_error l (i - a) = Some x.
Proof.
  induction l as [|z t IH]; intros a i x; simpl.
  - split; [intros []|]. intros [_ H]. now destruct (i - a)%nat.
  - rewrite IH. split.
    + intros [[= <- <-]|[Hle H]].
      * rewrite Nat.sub_diag. auto.
      * split; [lia|]. replace (i - a)%nat with (S (i - S a)) by lia. exact H.
    + intros [Hle H]. destruct (Nat.eq_dec a i) as [->|Hne].
      * rewrite Nat.sub_diag in H. injection H as ->. now left.
      * right. split; [lia|].
        replace (i - a)%nat with (S (i - S a)) in H by lia. exact H.
Qed.

Lemma enumerate_in (A : Type) (l : list A) (i : nat) (x : A) :
  In (i, x) (enumerate l) <-> nth_error l i = Some x.
Proof.
  unfold enumerate. rewrite enumerate_from_in, Nat.sub_0_r.
  split; [tauto|]. split; [lia|assumption].
Qed.

Lemma final_records_in (df : list fact) (rec : metric) :
  In rec (final_records tie df) <->
  exists idx y, nth_error (years df) idx = Some y /\
                In rec (year_records tie df (idx, y)).
Proof.
  unfold final_records. rewrite in_flat_map. split.
  - intros ([idx y] & H & Hrec). apply enumerate_in in H. eauto.
  - intros (idx & y & H & Hrec). exists (idx, y).
    split; [now apply enumerate_in|assumption].
Qed.


(** *** Grouping by employer *)

Lemma group_add_records (rec : metric) (out : list (Z * list metric)) :
  forall (e : Z) (r : metric),
    (exists rs, In (e, rs) (group_add rec out) /\ In r rs) <->
    (r = rec /\ e = m_employer rec) \/ (exists rs, In (e, rs) out /\ In r rs).
Proof.
  induction out as [|[k ks] t IH]; intros e r; simpl.
  - split.
    + intros (rs & [[= <- <-]|[]] & [<-|[]]). auto.
    + intros [[-> ->]|(rs & [] & _)]. exists [rec]. simpl. auto.
  - destruct (Z.eqb_spec k (m_employer rec)) as [Hk|Hk]; simpl.
    + split.
      * intros (rs & [[= <- <-]|Hin] & Hr).
        -- apply in_app_or in Hr. destruct Hr as [Hr|[<-|[]]]; [|auto].
           right. exists ks. auto.
        -- right. exists rs. auto.
      * intros [[-> ->]|(rs & [[= <- <-]|Hin] & Hr)].
        -- exists (ks ++ [rec]). split; [left; now rewrite Hk|].
           apply in_or_app. right. now left.
        -- exists (ks ++ [rec]). split; [now left|].
           apply in_or_app. now left.
        -- exists rs. auto.
    + split.
      * intros (rs & [[= <- <-]|Hin] & Hr).
        -- right. exists ks. auto.
        -- destruct (proj1 (IH e r)) as [H|(rs' & H1 & H2)]; [eauto|auto|].
           right. exists rs'. auto.
      * intros [H|(rs & [[= <- <-]|Hin] & Hr)].
        -- destruct (proj2 (IH e r) (or_introl H)) as (rs & H1 & H2).
           exists rs. auto.
        -- exists ks. auto.
        -- destruct (proj2 (IH e r)) as (rs' & H1 & H2); [right; eauto|].
           exists rs'. auto.
Qed.

Lemma grouped_records (l : list metric) :
  forall (out : list (Z * list metric)) (e : Z) (r : metric),
    (exists rs, In (e, rs) (fold_left (fun out rec => group_add rec out) l out)
                /\ In r rs) <->
    (In r l /\ e = m_employer r) \/ (exists rs, In (e, rs) out /\ In r rs).
Proof.
  induction l as [|x t IH]; intros out e r; simpl.
  - split; [auto|]. intros [[[] _]|H]; exact H.
  - rewrite IH, group_add_records. split.
    + intros [[H1 H2]|[[-> ->]|H]]; auto.
    + intros [[[<-|H1] H2]|H]; auto.
Qed.

Lemma generate_employer_metrics_in (df : list fact) (e : Z) (r : metric) :
  (exists rs, In (e, rs) (generate_employer_metrics tie df) /\ In r rs) <->
  In r (final_records tie df) /\ m_employer r = e.
Proof.
  unfold generate_employer_metrics. rewrite grouped_records. split.
  - intros [[H ->]|(rs & [] & _)]. auto.
  - intros [H <-]. auto.
Qed.

Lemma record_cases (df : list fact) (rec : metric) :
  In rec (final_records tie df) ->
  exists idx,
    nth_error (years df) idx = Some (m_year rec) /\
    ((idx = 0%nat /\ In rec (first_year_records df (m_year rec))) \/
     (idx <> 0%nat /\ In rec (later_year_records tie df idx (m_year rec)))).
Proof.
  intros H. apply final_records_in in H. destruct H as (idx & y & Hy & Hrec).
  exists idx. unfold year_records in Hrec.
  destruct idx as [|j]; simpl in Hrec.
  - destruct (first_record_facts _ _ _ Hrec) as (E & _). rewrite E. auto.
  - destruct (later_record_facts _ _ _ _ Hrec) as (E & _). rewrite E.
    split; [assumption|]. right. split; [discriminate|assumption].
Qed.

End CohortFacts.

(** C7, as the code has it.  For the year [y] at position [idx] of the
    sorted years, the prior population holds rows of earlier years only,
    exactly one row for every pair (person_id, employer_id) that has an
    earlier row, and the row kept is of the most recent earlier year of
    its pair.  Which of several rows of the pair in that year is kept is
    left to the order [tie] in which the sort puts rows of equal year:
    the statement holds for every such order. *)
Theorem prior_population_most_recent
    (tie : fact -> fact -> bool) (df : list fact) (idx : nat) (y : Z) :
  nth_error (years df) idx = Some y ->
  let prior := prior_population tie df idx in
  (forall p, In p prior ->
     In p df /\ (year p < y)%Z /\
     forall r, In r df -> same_pair r p = true -> (year r < y)%Z ->
               (year r <= year p)%Z) /\
  (forall r, In r df -> (year r < y)%Z ->
     List.length (filter (same_pair r) prior) = 1%nat).
Proof. exact (prior_population_rows tie df idx y). Qed.

(** Two rows of one pair in the most recent earlier year: a sort that
    keeps rows of equal year in input order makes [drop_duplicates] keep
    the first of them and drop the last; a sort that reverses them makes
    it keep the last. *)
Lemma last_occurrence_counterexample :
  prior_population input_order duplicated_year 1 = [mkfact 2000 "1" 7 100] /\
  ~ In (mkfact 2000 "1" 7 200) (prior_population input_order duplicated_year 1) /\
  prior_population reverse_order duplicated_year 1 = [mkfact 2000 "1" 7 200].
Proof.
  split; [reflexivity|]. split; [|reflexivity].
  cbv. intros [H|[]]. discriminate H.
Qed.

Lemma prior_population_most_recent_witness :
  nth_error (years duplicated_year) 1 = Some 2001%Z /\
  List.length (filter (same_pair (mkfact 2000 "1" 7 200))
                      (prior_population reverse_order duplicated_year 1)) = 1%nat.
Proof.
  split; [reflexivity|].
  apply (proj2 (prior_population_most_recent reverse_order duplicated_year 1 2001
                  eq_refl)).
  - cbv. auto.
  - reflexivity.
Defined.

Section CohortClaims.

Variable tie : fact -> fact -> bool.

Lemma valid_all (g : list fact) :
  (forall c, In c g -> notna (total_comp c) = true) ->
  count (valid g) = count g.
Proof.
  intros H. unfold count, valid. f_equal.
  induction g as [|c t IH]; [reflexivity|].
  simpl. rewrite (H c (or_introl eq_refl)). simpl. f_equal.
  apply IH. intros x Hx. apply H. now right.
Qed.


Lemma count_filter_le (A : Type) (f g : A -> bool) (l : list A) :
  (count (filter (fun x => f x && g x) l) <= count (filter f l))%Z.
Proof. unfold count. apply inj_le, filter_and_le. Qed.

Lemma count_nonneg (A : Type) (l : list A) : (0 <= count l)%Z.
Proof. unfold count. lia. Qed.

(** The prior population has at most one row for a pair, so the left
    join yields one row for every current-year row and stayed_count never
    exceeds the number of the employer's rows of the year; it stays
    within the headcount, and retention_rate within 0 and 1, when each of
    these rows has a total_comp. *)
Lemma retention_bounded (df : list fact) (e : Z) (rs : list metric) (rec : metric) :
  In (e, rs) (generate_employer_metrics tie df) -> In rec rs ->
  (0 <= stayed_count rec <= count (current_rows df e (m_year rec)))%Z /\
  ((forall c, In c (current_rows df e (m_year rec)) ->
              notna (total_comp c) = true) ->
   (stayed_count rec <= m_headcount rec)%Z /\
   0 <= retention_rate rec /\ retention_rate rec <= 1).
Proof.
  intros Hin Hrec.
  destruct (proj1 (generate_employer_metrics_in tie df e rec)) as [Hfin He];
    [eauto|]. subst e.
  destruct (record_cases _ _ _ Hfin) as (idx & Hy & [[-> H]|[Hnz H]]).
  - destruct (first_record_facts _ _ _ H) as (_ & Hh & _ & Hs & Hr & _).
    rewrite Hs, Hr. split; [split; [lia|apply count_nonneg]|].
    intros Hv. rewrite Hh, (valid_all _ Hv).
    split; [apply count_nonneg|]. split; [apply Qle_refl|discriminate].
  - destruct (later_record_facts _ _ _ _ _ H) as (_ & Hh & _ & Hs & Hr & _).
    assert (Hle : (0 <= stayed_count rec
                   <= count (current_rows df (m_employer rec) (m_year rec)))%Z).
    { rewrite Hs. split; [apply count_nonneg|].
      unfold stayed_rows, current_rows. apply count_filter_le. }
    split; [exact Hle|].
    intros Hv. assert (Hhc : m_headcount rec
                             = count (current_rows df (m_employer rec) (m_year rec)))
      by (rewrite Hh; now apply valid_all).
    split; [lia|]. rewrite Hr.
    destruct (0 <? m_headcount rec)%Z eqn:Hpos.
    + apply Z.ltb_lt in Hpos.
      assert (Hq : 0 < inject_Z (m_headcount rec))
        by (rewrite <- (Zlt_Qlt 0); exact Hpos).
      split.
      * apply Qle_shift_div_l; [exact Hq|].
        rewrite Qmult_0_l. rewrite <- (Zle_Qle 0). lia.
      * apply Qle_shift_div_r; [exact Hq|].
        rewrite Qmult_1_l. rewrite <- Zle_Qle. lia.
    + split; [apply Qle_refl|discriminate].
Qed.

(** C10 at a current-year row without a total_comp.  Both persons of
    employer 7 in 2001 were with it before, so stayed_count is 2; one of
    the two rows has a null total_comp, so the headcount, which counts
    values, is 1: the retention_rate published is 2. *)
Theorem retention_exceeds_one :
  map (fun x => map (fun m => (m_year m, m_headcount m, stayed_count m,
                               retention_rate m)) (snd x))
      (generate_employer_metrics tie null_current)
  = [[(1999%Z, 1%Z, 0%Z, 0); (2000%Z, 1%Z, 0%Z, 0); (2001%Z, 1%Z, 2%Z, 2)]].
Proof. reflexivity. Qed.

(** C8 at a prior total compensation of zero: the growth ratio is
    (50000 - 0) / 0, an infinity, and it is published as growth_median. *)
Theorem growth_median_infinite :
  map (fun x => map (fun m => (m_year m, growth_median m)) (snd x))
      (generate_employer_metrics tie zero_prior)
  = [[(2000%Z, Fin 0); (2001%Z, PInf)]].
Proof. reflexivity. Qed.

End CohortClaims.

Example ten_four_retention :
  map (fun x => map (fun m => (m_year m, m_headcount m, stayed_count m,
                               retention_rate m)) (snd x))
      (generate_employer_metrics input_order ten_four)
  = [[(2000%Z, 4%Z, 0%Z, 0); (2001%Z, 10%Z, 4%Z, 0.4)]].
Proof. reflexivity. Qed.

(** A group whose rows all lack a total_comp has a headcount of 0 and a
    retention_rate of 0. *)
Example headcount_zero :
  map (fun x => map (fun m => (m_year m, m_headcount m, stayed_count m,
                               retention_rate m)) (snd x))
      (generate_employer_metrics input_order
         [mkfact 2000 "1" 7 100; nofact 2001 "1" 7])
  = [[(2000%Z, 1%Z, 0%Z, 0); (2001%Z, 0%Z, 1%Z, 0)]].
Proof. reflexivity. Qed.

(** Zero over zero is NaN, which the median leaves out: the default 0.0 is
    published. *)
Example growth_zero_over_zero :
  map (fun x => map (fun m => (m_year m, growth_median m)) (snd x))
      (generate_employer_metrics input_order
         [mkfact 2000 "1" 7 0; mkfact 2001 "1" 7 0])
  = [[(2000%Z, Fin 0); (2001%Z, Fin 0)]].
Proof. reflexivity. Qed.


Section EmployerSeries.

Variable tie : fact -> fact -> bool.

(** *** One record per employer and year *)

Lemma flat_map_sorted (A : Type) (key : A -> Z) (g : A -> list Z) (l : list A) :
  StronglySorted Z.lt (map key l) ->
  (forall a, In a l -> g a = [] \/ g a = [key a]) ->
  StronglySorted Z.lt (flat_map g l).
Proof.
  induction l as [|a t IH]; simpl; intros Hs Hg; [constructor|].
  inversion Hs as [|? ? Ht Ha]; subst.
  assert (IHt : StronglySorted Z.lt (flat_map g t)) by (apply IH; auto).
  destruct (Hg a (or_introl eq_refl)) as [E|E]; rewrite E; simpl; [exact IHt|].
  constructor; [exact IHt|].
  apply Forall_forall. intros y Hy. apply in_flat_map in Hy.
  destruct Hy as (b & Hb & Hy).
  destruct (Hg b (or_intror Hb)) as [Eb|Eb]; rewrite Eb in Hy; [destruct Hy|].
  destruct Hy as [<-|[]].
  rewrite Forall_forall in Ha. apply Ha. now apply in_map.
Qed.

Lemma map_filter_flat_map (A B C : Type) (f : B -> C) (p : B -> bool)
    (h : A -> list B) (l : list A) :
  map f (filter p (flat_map h l)) = flat_map (fun a => map f (filter p (h a))) l.
Proof.
  induction l as [|a t IH]; simpl; [reflexivity|].
  rewrite filter_app, map_app. now f_equal.
Qed.

Lemma map_flat_map_eq (A B C : Type) (f : B -> C) (h : A -> list B) (l : list A) :
  map f (flat_map h l) = flat_map (fun a => map f (h a)) l.
Proof.
  induction l as [|a t IH]; simpl; [reflexivity|].
  rewrite map_app. now f_equal.
Qed.

Lemma filter_above_nil (A : Type) (key : A -> Z) (v : Z) (l : list A) :
  Forall (Z.lt v) (map key l) -> filter (fun x => (key x =? v)%Z) l = [].
Proof.
  induction l as [|a t IH]; simpl; intros H; [reflexivity|].
  inversion H; subst.
  destruct (Z.eqb_spec (key a) v); [lia|]. now apply IH.
Qed.

Lemma sorted_filter_one (A : Type) (key : A -> Z) (v : Z) (l : list A) :
  StronglySorted Z.lt (map key l) ->
  map key (filter (fun x => (key x =? v)%Z) l) = [] \/
  map key (filter (fun x => (key x =? v)%Z) l) = [v].
Proof.
  induction l as [|a t IH]; simpl; intros Hs; [now left|].
  inversion Hs as [|? ? Ht Ha]; subst.
  destruct (Z.eqb_spec (key a) v) as [E|E]; [|now apply IH].
  right. simpl. rewrite filter_above_nil; [now rewrite E|].
  now rewrite <- E.
Qed.

Lemma one_key (A : Type) (k1 k2 : A -> Z) (v w : Z) (l : list A) :
  map k1 l = [] \/ map k1 l = [v] ->
  Forall (fun x => k2 x = w) l ->
  map k2 l = [] \/ map k2 l = [w].
Proof.
  destruct l as [|a [|b t]]; simpl; intros [H|H] Hall; try discriminate.
  - now left.
  - right. inversion Hall; subst. reflexivity.
Qed.

Lemma enumerate_snd (A : Type) (l : list A) : map snd (enumerate l) = l.
Proof.
  unfold enumerate. generalize 0%nat.
  induction l as [|x t IH]; intros a; simpl; [reflexivity|].
  now rewrite IH.
Qed.

Lemma later_employers_sorted (df : list fact) (idx : nat) (y : Z) :
  StronglySorted Z.lt (map m_employer (later_year_records tie df idx y)).
Proof.
  unfold later_year_records. rewrite map_flat_map_eq.
  apply (flat_map_sorted _ agg_employer).
  - unfold aggregate. rewrite map_map. simpl. rewrite map_id.
    apply sorted_unique_sorted.
  - intros row _.
    destruct (pay_map_get (pay_stats df) (agg_employer row) y); simpl; auto.
Qed.

Lemma first_employers_sorted (df : list fact) (y : Z) :
  StronglySorted Z.lt (map m_employer (first_year_records df y)).
Proof.
  unfold first_year_records. rewrite map_map. simpl.
  unfold pay_stats. rewrite map_filter_flat_map.
  apply (flat_map_sorted _ (fun e => e)).
  - rewrite map_id. apply sorted_unique_sorted.
  - intros e _.
    apply (one_key _ ps_year ps_employer y e).
    + apply sorted_filter_one. rewrite map_flat_map_eq.
      apply (flat_map_sorted _ (fun z => z)).
      * rewrite map_id. apply sorted_unique_sorted.
      * intros z _.
        destruct (filter (fun r => of_employer e r && in_year z r) df);
          simpl; auto.
    + apply Forall_forall. intros s Hs. apply filter_In in Hs.
      destruct Hs as [Hs _]. apply in_flat_map in Hs.
      destruct Hs as (z & _ & Hs).
      destruct (filter (fun r => of_employer e r && in_year z r) df);
        [destruct Hs|].
      destruct Hs as [<-|[]]. reflexivity.
Qed.

Lemma year_records_one (df : list fact) (e : Z) (idx : nat) (y : Z) :
  nth_error (years df) idx = Some y ->
  map m_year (employer_series e (year_records tie df (idx, y))) = [] \/
  map m_year (employer_series e (year_records tie df (idx, y))) = [y].
Proof.
  intros Hy. apply (one_key _ m_employer m_year e y).
  - apply sorted_filter_one. unfold year_records.
    destruct (0 <? idx)%nat.
    + apply later_employers_sorted.
    + apply first_employers_sorted.
  - apply Forall_forall. intros rec Hrec. apply filter_In in Hrec.
    destruct Hrec as [Hrec _]. unfold year_records in Hrec.
    destruct idx as [|j]; simpl in Hrec.
    + now destruct (first_record_facts _ _ _ Hrec).
    + now destruct (later_record_facts _ _ _ _ _ Hrec).
Qed.

Lemma series_years_sorted (df : list fact) (e : Z) :
  StronglySorted Z.lt (map m_year (employer_series e (final_records tie df))).
Proof.
  unfold employer_series, final_records. rewrite map_filter_flat_map.
  apply (flat_map_sorted _ snd).
  - rewrite enumerate_snd. apply sorted_unique_sorted.
  - intros [idx y] H. apply enumerate_in in H.
    now apply year_records_one.
Qed.

Lemma record_has_rows (df : list fact) (rec : metric) :
  In rec (final_records tie df) ->
  exists r, In r df /\ employer_id r = m_employer rec /\ year r = m_year rec.
Proof.
  intros H. apply final_records_in in H. destruct H as (idx & y & Hy & Hrec).
  assert (Hg : current_rows df (m_employer rec) (m_year rec) <> []).
  { unfold year_records in Hrec. destruct idx as [|j]; simpl in Hrec.
    - destruct (first_record_facts _ _ _ Hrec) as (E & _ & Hne & _).
      now rewrite E.
    - destruct (later_record_facts _ _ _ _ _ Hrec) as (E & _ & Hne & _).
      now rewrite E. }
  destruct (current_rows df (m_employer rec) (m_year rec))
    as [|r g] eqn:E; [congruence|].
  assert (Hr : In r (current_rows df (m_employer rec) (m_year rec)))
    by (rewrite E; now left).
  apply filter_In in Hr. destruct Hr as [Hr Hk].
  unfold of_employer_year, of_employer, in_year in Hk.
  apply andb_true_iff in Hk. destruct Hk as [He Hyr].
  apply Z.eqb_eq in He, Hyr. eauto.
Qed.

Lemma series_years_in (df : list fact) (e y : Z) :
  In y (map m_year (employer_series e (final_records tie df))) <->
  In y (employer_years df e).
Proof.
  unfold employer_years, employer_series.
  rewrite sorted_unique_in, !in_map_iff. split.
  - intros (rec & <- & Hrec). apply filter_In in Hrec.
    destruct Hrec as [Hrec He]. apply Z.eqb_eq in He.
    destruct (record_has_rows _ _ Hrec) as (r & Hr & E1 & E2).
    exists r. split; [assumption|]. apply filter_In. split; [assumption|].
    unfold of_employer. apply Z.eqb_eq. congruence.
  - intros (r & <- & Hr). apply filter_In in Hr. destruct Hr as [Hr He].
    unfold of_employer in He. apply Z.eqb_eq in He.
    assert (Hy : In (year r) (years df)) by (apply years_in; eauto).
    apply In_nth_error in Hy. destruct Hy as (idx & Hy).
    assert (Hrec : exists rec, In rec (year_records tie df (idx, year r)) /\
                               m_employer rec = employer_id r).
    { unfold year_records. destruct idx as [|j]; simpl.
      - now apply first_record_present.
      - now apply later_record_present. }
    destruct Hrec as (rec & Hrec & Hk).
    exists rec. split.
    + unfold year_records in Hrec. destruct idx as [|j]; simpl in Hrec.
      * now destruct (first_record_facts _ _ _ Hrec).
      * now destruct (later_record_facts _ _ _ _ _ Hrec).
    + apply filter_In. split.
      * apply final_records_in. eauto.
      * apply Z.eqb_eq. congruence.
Qed.

Lemma sorted_same_members (l1 : list Z) :
  StronglySorted Z.lt l1 ->
  forall l2, StronglySorted Z.lt l2 ->
    (forall x, In x l1 <-> In x l2) -> l1 = l2.
Proof.
  induction 1 as [|a t Ht IH Ha]; intros l2 H2 Hm.
  - destruct l2 as [|b u]; [reflexivity|].
    destruct (proj2 (Hm b) (or_introl eq_refl)).
  - destruct l2 as [|b u]; [destruct (proj1 (Hm a) (or_introl eq_refl))|].
    inversion H2 as [|? ? Hu Hb]; subst.
    rewrite Forall_forall in Ha, Hb.
    assert (E : a = b).
    { destruct (proj1 (Hm a) (or_introl eq_refl)) as [E|Hin]; [now subst|].
      destruct (proj2 (Hm b) (or_introl eq_refl)) as [E|Hin']; [assumption|].
      apply Hb in Hin. apply Ha in Hin'. lia. }
    subst b. f_equal. apply IH; [assumption|].
    intros x. split; intros Hx.
    + destruct (proj1 (Hm x) (or_intror Hx)) as [E|Hin]; [|assumption].
      apply Ha in Hx. lia.
    + destruct (proj2 (Hm x) (or_intror Hx)) as [E|Hin]; [|assumption].
      apply Hb in Hx. lia.
Qed.

(** *** The groups of [grouped_output] *)

Lemma group_add_in (rec : metric) (out : list (Z * list metric)) :
  NoDup (map fst out) ->
  forall (e : Z) (rs : list metric),
    In (e, rs) (group_add rec out) ->
    (e <> m_employer rec /\ In (e, rs) out) \/
    (e = m_employer rec /\
     ((exists rs0, In (e, rs0) out /\ rs = rs0 ++ [rec]) \/
      (~ In e (map fst out) /\ rs = [rec]))).
Proof.
  induction out as [|[k ks] t IH]; simpl; intros Hnd e rs Hin.
  - destruct Hin as [[= <- <-]|[]]. right. split; [reflexivity|]. right. auto.
  - inversion Hnd as [|? ? Hk Ht]; subst.
    destruct (Z.eqb_spec k (m_employer rec)) as [E|E].
    + destruct Hin as [[= <- <-]|Hin].
      * right. split; [exact E|]. left. exists ks. auto.
      * left. split; [|auto]. intros ->. apply Hk. rewrite E.
        apply (in_map fst) in Hin. exact Hin.
    + destruct Hin as [[= <- <-]|Hin].
      * left. auto.
      * destruct (IH Ht e rs Hin) as [[H1 H2]|[H1 [(rs0 & H2 & H3)|[H2 H3]]]].
        -- left. auto.
        -- right. split; [exact H1|]. left. exists rs0. auto.
        -- right. split; [exact H1|]. right. split; [|exact H3].
           intros [Hek|Hin']; [congruence|contradiction].
Qed.

Lemma group_add_keys (rec : metric) (out : list (Z * list metric)) :
  (In (m_employer rec) (map fst out) /\
   map fst (group_add rec out) = map fst out) \/
  (~ In (m_employer rec) (map fst out) /\
   map fst (group_add rec out) = map fst out ++ [m_employer rec]).
Proof.
  induction out as [|[k ks] t IH]; simpl.
  - right. auto.
  - destruct (Z.eqb_spec k (m_employer rec)) as [E|E]; simpl.
    + left. auto.
    + destruct IH as [[H1 H2]|[H1 H2]]; rewrite H2.
      * left. auto.
      * right. split; [|reflexivity]. intros [Hk|Hin]; contradiction.
Qed.

Lemma NoDup_snoc (k : Z) (l : list Z) :
  NoDup l -> ~ In k l -> NoDup (l ++ [k]).
Proof.
  induction 1 as [|a t Ha Ht IH]; simpl; intros Hk.
  - constructor; [intros []|constructor].
  - constructor.
    + intros Hin. apply in_app_or in Hin. destruct Hin as [Hin|[<-|[]]]; auto.
    + apply IH. auto.
Qed.

Lemma series_snoc (e : Z) (l : list metric) (rec : metric) :
  employer_series e (l ++ [rec])
  = employer_series e l ++ (if (m_employer rec =? e)%Z then [rec] else []).
Proof. unfold employer_series. now rewrite filter_app. Qed.

Lemma grouped_series (l : list metric) :
  let out := fold_left (fun out rec => group_add rec out) l [] in
  NoDup (map fst out) /\
  (forall e rs, In (e, rs) out -> rs = employer_series e l /\ rs <> []) /\
  (forall r, In r l -> In (m_employer r) (map fst out)).
Proof.
  induction l as [|x l IH] using rev_ind; simpl.
  - split; [constructor|]. split; [intros e rs []|intros r []].
  - rewrite fold_left_app. simpl.
    set (out := fold_left (fun out rec => group_add rec out) l []) in *.
    destruct IH as (Hnd & Hrs & Hcov).
    split; [|split].
    + destruct (group_add_keys x out) as [[_ E]|[Hk E]]; rewrite E;
        [assumption|now apply NoDup_snoc].
    + intros e rs Hin. rewrite series_snoc.
      destruct (group_add_in x out Hnd e rs Hin)
        as [[H1 H2]|[H1 [(rs0 & H2 & H3)|[H2 H3]]]].
      * destruct (Hrs e rs H2) as [E Hne].
        destruct (Z.eqb_spec (m_employer x) e); [congruence|].
        now rewrite app_nil_r.
      * destruct (Hrs e rs0 H2) as [E Hne]. subst e.
        rewrite Z.eqb_refl, <- E, H3. split; [reflexivity|].
        now destruct rs0.
      * subst e. rewrite Z.eqb_refl.
        assert (En : employer_series (m_employer x) l = []).
        { destruct (employer_series (m_employer x) l) as [|r g] eqn:E;
            [reflexivity|]. exfalso. apply H2.
          assert (Hr : In r (employer_series (m_employer x) l))
            by (rewrite E; now left).
          apply filter_In in Hr. destruct Hr as [Hr Hk].
          apply Z.eqb_eq in Hk. rewrite <- Hk. now apply Hcov. }
        rewrite En, H3. split; [reflexivity|discriminate].
    + intros r Hr. apply in_app_or in Hr.
      destruct (group_add_keys x out) as [[Hk E]|[Hk E]]; rewrite E.
      * destruct Hr as [Hr|[<-|[]]]; auto.
      * apply in_or_app. destruct Hr as [Hr|[<-|[]]]; [left; auto|right; now left].
Qed.

(** X19. The series of an employer in [grouped_output] holds exactly one
    record for each year in which the employer has rows in the fact
    table, in increasing order of year: the years of the series are the
    sorted distinct years of the employer's rows, and every record of the
    series carries the employer's id. *)
Theorem employer_series_years (df : list fact) (e : Z) (rs : list metric) :
  In (e, rs) (generate_employer_metrics tie df) ->
  map m_year rs = employer_years df e /\
  Forall (fun rec => m_employer rec = e) rs /\
  rs <> [].
Proof.
  intros Hin. unfold generate_employer_metrics in Hin.
  destruct (grouped_series (final_records tie df)) as (_ & Hrs & _).
  destruct (Hrs e rs Hin) as [E Hne].
  split; [|split; [|exact Hne]].
  - rewrite E. apply sorted_same_members.
    + apply series_years_sorted.
    + apply sorted_unique_sorted.
    + intros y. apply series_years_in.
  - rewrite E. apply Forall_forall. intros rec Hrec.
    apply filter_In in Hrec. now apply Z.eqb_eq.
Qed.

End EmployerSeries.

Lemma employer_series_years_witness :
  exists rs,
    In (7%Z, rs) (generate_employer_metrics input_order gap_table) /\
    map m_year rs = [2000%Z; 2002%Z].
Proof.
  pose (rs := snd (nth 0 (generate_employer_metrics input_order gap_table) (0%Z, []))).
  assert (H1 : In (7%Z, rs) (generate_employer_metrics input_order gap_table))
    by (vm_compute; auto).
  exists rs. split; [exact H1|].
  exact (proj1 (employer_series_years input_order gap_table 7%Z rs H1)).
Defined.

End Cohort.

(** ** Ingest *)

Module Ingest.
Import PyStr PyFloat ingest.

Section IngestFacts.

Lemma apply_ok (A B : Type) (f : A -> outcome B) (l : list A) (ys : list B) :
  apply f l = Ok ys -> Forall2 (fun x y => f x = Ok y) l ys.
Proof.
  revert ys. induction l as [|x t IH]; intros ys; simpl.
  - intros [= <-]. constructor.
  - destruct (f x) as [y|e] eqn:E; simpl; [|discriminate].
    destruct (apply f t) as [ys'|e]; simpl; [|discriminate].
    intros [= <-]. constructor; [assumption|]. now apply IH.
Qed.



Lemma ingest_step_cases (acc : list (list staged)) (f : csv_file) :
  ingest_step acc f = acc \/
  exists df, process_file f = Ok (Some df) /\ ingest_step acc f = acc ++ [df].
Proof.
  unfold ingest_step.
  destruct (of_string (basename f)) as [|c r]; [now left|].
  destruct (is_digit c); [|now left].
  destruct (process_file f) as [[df|]|e]; auto.
  right. exists df. auto.
Qed.



End IngestFacts.

Example placeholders_are_zero :
  map clean_currency [CStr "-"; CStr ""; CStr " $ "; CStr "$1,234.50"; CStr "Not disclosed"]
  = [Ok (Fin 0); Ok (Fin 0); Ok (Fin 0); Ok (Fin 1234.50); Raise "ValueError"].
Proof. reflexivity. Qed.



Section IngestFiles.

Lemma process_file_missing (f : csv_file) (req : string) :
  In req required ->
  ~ In req (rename_columns (columns f)) ->
  forall df, process_file f <> Ok (Some df).
Proof.
  intros Hreq Hmiss df. unfold process_file.
  destruct (int_of_chars _); [|discriminate].
  assert (E : forallb (fun r => existsb (String.eqb r) (rename_columns (columns f)))
                      required = false).
  { apply not_true_is_false. intros Hall.
    rewrite forallb_forall in Hall. specialize (Hall req Hreq).
    apply existsb_exists in Hall. destruct Hall as (c & Hc & Heq).
    apply String.eqb_eq in Heq. subst c. contradiction. }
  rewrite E. discriminate.
Qed.

(** X8.  A file that lacks one of the required columns after renaming is
    left out whole: it adds nothing to the files collected so far, whatever
    its rows hold. *)
Theorem missing_column_rejects_file (f : csv_file) (req : string)
    (acc : list (list staged)) :
  In req required ->
  ~ In req (rename_columns (columns f)) ->
  ingest_step acc f = acc.
Proof.
  intros Hreq Hmiss.
  destruct (ingest_step_cases acc f) as [H|(df & Hp & _)]; [exact H|].
  exfalso. exact (process_file_missing f req Hreq Hmiss df Hp).
Qed.

Lemma combine3_rows (y : Z) (rs : list raw_row) :
  forall (sal ben : list float),
    List.length sal = List.length rs -> List.length ben = List.length rs ->
    Forall2 (fun r st =>
               year st = y /\
               total_comp st = fadd (salary st) (benefits st) /\
               sector st = r_sector r /\
               last_name st = clean_text (r_last_name r) /\
               first_name st = clean_text (r_first_name r) /\
               employer st = clean_text (r_employer r) /\
               job_title st = clean_text (r_job_title r))
            rs (map (stage_row y) (combine (combine rs sal) ben)).
Proof.
  induction rs as [|r t IH]; intros sal ben Hs Hb; [constructor|].
  destruct sal as [|s sal]; [discriminate|].
  destruct ben as [|b ben]; [discriminate|].
  simpl. constructor; [repeat split|].
  apply IH; simpl in *; lia.
Qed.

Lemma apply_length (A B : Type) (f : A -> outcome B) (l : list A) (ys : list B) :
  apply f l = Ok ys -> List.length ys = List.length l.
Proof.
  intros H. apply apply_ok in H.
  induction H; simpl; auto.
Qed.

(** X9.  Every row of a file that [process_file] accepts appears once, in
    order, in the staged table; its year is the number the file name
    starts with, its total_comp is salary plus benefits, and its text
    columns (sector apart) are the raw ones trimmed, a missing one
    empty. *)
Theorem staged_rows (f : csv_file) (df : list staged) :
  process_file f = Ok (Some df) ->
  exists y,
    int_of_chars (stem (of_string (basename f))) = Some y /\
    Forall2 (fun r st =>
               year st = y /\
               total_comp st = fadd (salary st) (benefits st) /\
               sector st = r_sector r /\
               last_name st = clean_text (r_last_name r) /\
               first_name st = clean_text (r_first_name r) /\
               employer st = clean_text (r_employer r) /\
               job_title st = clean_text (r_job_title r))
            (rows f) df.
Proof.
  unfold process_file.
  destruct (int_of_chars _) as [y|]; [|discriminate].
  destruct (forallb _ required); [|discriminate].
  destruct (apply clean_currency (map r_salary (rows f))) as [sal|] eqn:Es;
    simpl; [|discriminate].
  destruct (apply clean_currency (map r_benefits (rows f))) as [ben|] eqn:Eb;
    simpl; [|discriminate].
  intros [= <-]. exists y. split; [reflexivity|].
  apply apply_length in Es, Eb. rewrite length_map in Es, Eb.
  now apply combine3_rows.
Qed.

Lemma ingest_step_app (acc : list (list staged)) (f : csv_file) :
  ingest_step acc f = acc ++ ingest_step [] f.
Proof.
  unfold ingest_step.
  destruct (of_string (basename f)) as [|c r]; [now rewrite app_nil_r|].
  destruct (is_digit c); [|now rewrite app_nil_r].
  destruct (process_file f) as [[df|]|e]; simpl; now rewrite ?app_nil_r.
Qed.

Lemma all_dfs_from (files : list csv_file) :
  forall acc, fold_left ingest_step files acc = acc ++ all_dfs files.
Proof.
  unfold all_dfs. induction files as [|f t IH]; intros acc; simpl.
  - now rewrite app_nil_r.
  - rewrite IH, (IH (ingest_step [] f)), ingest_step_app.
    now rewrite app_assoc.
Qed.

(** X10.  The files are handled one by one and independently: what the
    loop collects from a list of files is what it collects from the files
    before a file, then what that file alone yields (nothing when it is
    skipped, rejected or fails), then what it collects from the files
    after it. *)
Theorem files_independent (before after : list csv_file) (f : csv_file) :
  all_dfs (before ++ f :: after)
  = all_dfs before ++ ingest_step [] f ++ all_dfs after.
Proof.
  unfold all_dfs at 1. rewrite fold_left_app. simpl.
  rewrite all_dfs_from. fold (all_dfs before). simpl.
  rewrite ingest_step_app. now rewrite <- app_assoc.
Qed.

Lemma of_string_app (a b : string) :
  of_string (a ++ b) = of_string a ++ of_string b.
Proof.
  induction a as [|c a IH]; [reflexivity|].
  simpl. unfold of_string in *. simpl. now rewrite IH.
Qed.

Lemma replace_char (c : ascii) (s : chars) :
  replace [c] [] s = filter (fun x => negb (Ascii.eqb c x)) s.
Proof.
  unfold replace. induction s as [|x r IH]; [reflexivity|].
  cbn [replace_from starts_with List.length Nat.sub filter app].
  rewrite andb_true_r.
  destruct (Ascii.eqb c x); simpl; [exact IH|now rewrite IH].
Qed.

Lemma currency_text_filter (s : string) :
  currency_text s
  = strip (filter (fun x => negb (Ascii.eqb "," x))
             (filter (fun x => negb (Ascii.eqb "$" x)) (of_string s))).
Proof.
  unfold currency_text.
  change (of_string ",") with [","%char].
  change (of_string "$") with ["$"%char].
  now rewrite !replace_char.
Qed.

Lemma clean_currency_text (s : string) :
  clean_currency (CStr s) =
  if chars_eqb (currency_text s) (of_string "-") || chars_eqb (currency_text s) []
  then Ok (Fin 0)
  else match float_of_chars (currency_text s) with
       | Some v => Ok v
       | None => Raise "ValueError"
       end.
Proof. reflexivity. Qed.

(** X11.  Dollar signs and thousands separators are ignored wherever they
    stand: removing one from the text of a currency cell does not change
    what [clean_currency] returns. *)
Theorem currency_marks_ignored (a b : string) (c : ascii) :
  c = "$"%char \/ c = ","%char ->
  clean_currency (CStr (a ++ String c b)) = clean_currency (CStr (a ++ b)).
Proof.
  intros Hc. rewrite !clean_currency_text.
  assert (E : currency_text (a ++ String c b) = currency_text (a ++ b)).
  { rewrite !currency_text_filter, !of_string_app.
    change (of_string (String c b)) with (c :: of_string b).
    rewrite !filter_app. cbn [filter].
    destruct Hc as [->| ->]; reflexivity. }
  now rewrite E.
Qed.

End IngestFiles.

Lemma missing_column_rejects_file_witness :
  In "benefits"%string required /\
  ~ In "benefits"%string (rename_columns (columns file_without_benefits)) /\
  ingest_step [] file_without_benefits = [].
Proof.
  assert (H1 : In "benefits"%string required) by (vm_compute; tauto).
  assert (H2 : ~ In "benefits"%string
                 (rename_columns (columns file_without_benefits))).
  { vm_compute. intros H.
    repeat (destruct H as [H|H]; [discriminate H|]). exact H. }
  split; [exact H1|]. split; [exact H2|].
  exact (missing_column_rejects_file file_without_benefits _ [] H1 H2).
Defined.

Lemma staged_rows_witness :
  exists df y,
    process_file clean_file = Ok (Some df) /\
    int_of_chars (stem (of_string (basename clean_file))) = Some y /\
    y = 2021%Z.
Proof.
  destruct (process_file clean_file) as [[df|]|e] eqn:E;
    try (vm_compute in E; discriminate E).
  destruct (staged_rows clean_file df E) as (y & Hy & _).
  exists df, y. split; [reflexivity|]. split; [exact Hy|].
  vm_compute in Hy. now injection Hy.
Defined.

Lemma currency_marks_ignored_witness :
  clean_currency (CStr ("$1" ++ String "," "234.50"))
  = clean_currency (CStr ("$1" ++ "234.50")).
Proof.
  exact (currency_marks_ignored "$1" "234.50" ","%char (or_intror eq_refl)).
Defined.

(** An empty salary field reaches [clean_currency] as NaN: the row is
    kept, without an amount. *)
Example missing_amount_is_kept :
  option_map (map (fun r => notna (total_comp r)))
    (ingest [ {| basename := "2020.csv"; columns := header;
                 rows := [crow (CStr "$100,000.00") (CStr "-");
                          crow (CNum NaN) (CStr "12.50")] |} ])
  = Some [true; false].
Proof. reflexivity. Qed.

End Ingest.

(** ** Top earners *)

Module TopEarners.
Import PyFloat analytics analytics_basic.

Lemma fle_total (x y : float) :
  notna x = true -> notna y = true -> fle x y = false -> fle y x = true.
Proof.
  destruct x as [a| | |], y as [b| | |]; simpl; try discriminate; auto.
  intros _ _ H.
  apply Qle_bool_iff. apply Qlt_le_weak. apply Qnot_le_lt.
  intros Hle. apply Qle_bool_iff in Hle. congruence.
Qed.

Lemma fle_trans (x y z : float) :
  notna y = true -> fle x y = true -> fle y z = true -> fle x z = true.
Proof.
  destruct x as [a| | |], y as [b| | |], z as [c| | |]; simpl;
    try discriminate; auto.
  intros _ H1 H2. apply Qle_bool_iff in H1, H2. apply Qle_bool_iff.
  now apply (Qle_trans _ b).
Qed.

Lemma insert_comp_perm (r : fact) (l : list fact) :
  Permutation (r :: l) (insert_comp r l).
Proof.
  induction l as [|x t IH]; simpl; [reflexivity|].
  destruct (fle (total_comp x) (total_comp r)); [reflexivity|].
  rewrite perm_swap. now constructor.
Qed.

Lemma sort_comp_desc_perm (l : list fact) : Permutation l (sort_comp_desc l).
Proof.
  induction l as [|r t IH]; simpl; [constructor|].
  rewrite <- insert_comp_perm. now constructor.
Qed.

Lemma insert_comp_sorted (r : fact) (l : list fact) :
  has_comp r = true -> Forall (fun x => has_comp x = true) l ->
  StronglySorted comp_ge l -> StronglySorted comp_ge (insert_comp r l).
Proof.
  intros Hr Hl Hs. induction Hs as [|x t Ht IH Hx]; simpl.
  - constructor; [constructor|constructor].
  - inversion Hl as [|? ? Hxc Htc]; subst.
    destruct (fle (total_comp x) (total_comp r)) eqn:E.
    + constructor; [now constructor|].
      constructor; [right; auto|].
      rewrite Forall_forall in *. intros a Ha.
      destruct (Hx a Ha) as [Hn|[_ Hle]]; [now left|].
      right. split; [exact Hr|].
      now apply (fle_trans _ (total_comp x)).
    + constructor; [now apply IH|].
      apply Forall_forall. intros a Ha.
      apply (Permutation_in _ (Permutation_sym (insert_comp_perm r t))) in Ha.
      destruct Ha as [<-|Ha].
      * right. split; [exact Hxc|]. now apply fle_total.
      * rewrite Forall_forall in Hx. now apply Hx.
Qed.

Lemma sort_comp_desc_sorted (l : list fact) :
  Forall (fun x => has_comp x = true) l ->
  StronglySorted comp_ge (sort_comp_desc l).
Proof.
  induction 1 as [|r t Hr Ht IH]; simpl; [constructor|].
  apply insert_comp_sorted; [exact Hr| |exact IH].
  apply Forall_forall. intros x Hx.
  apply (Permutation_in _ (Permutation_sym (sort_comp_desc_perm t))) in Hx.
  rewrite Forall_forall in Ht. now apply Ht.
Qed.

(** The rows with a [total_comp], best paid first, then the others. *)
Lemma ranked_rows_sorted (l : list fact) :
  StronglySorted comp_ge
    (sort_comp_desc (filter has_comp l) ++ filter (fun r => negb (has_comp r)) l).
Proof.
  assert (Hs : StronglySorted comp_ge (sort_comp_desc (filter has_comp l))).
  { apply sort_comp_desc_sorted. apply Forall_forall. intros x Hx.
    now apply filter_In in Hx. }
  assert (Hn : Forall (fun b => has_comp b = false)
                 (filter (fun r => negb (has_comp r)) l)).
  { apply Forall_forall. intros x Hx. apply filter_In in Hx.
    destruct Hx as [_ Hx]. now apply negb_true_iff in Hx. }
  revert Hn. generalize (filter (fun r => negb (has_comp r)) l). intros n Hn.
  induction Hs as [|x t Ht IH Hx]; simpl.
  - induction Hn as [|b u Hb Hu IHu]; constructor; [exact IHu|].
    eapply Forall_impl; [|exact Hu]. intros a Ha. now left.
  - constructor; [exact IH|].
    apply Forall_app. split; [exact Hx|].
    eapply Forall_impl; [|exact Hn]. intros a Ha. now left.
Qed.

Lemma filter_partition (f : fact -> bool) (l : list fact) :
  Permutation (filter f l ++ filter (fun r => negb (f r)) l) l.
Proof.
  induction l as [|x t IH]; simpl; [constructor|].
  destruct (f x); simpl.
  - now constructor.
  - rewrite <- Permutation_middle. now constructor.
Qed.

Lemma ranked_rows_perm (l : list fact) :
  Permutation
    (sort_comp_desc (filter has_comp l) ++ filter (fun r => negb (has_comp r)) l)
    l.
Proof.
  rewrite <- (filter_partition has_comp l) at 3.
  apply Permutation_app_tail. symmetry. apply sort_comp_desc_perm.
Qed.

Lemma sorted_app (l1 l2 : list fact) :
  StronglySorted comp_ge (l1 ++ l2) ->
  StronglySorted comp_ge l1 /\
  forall a b, In a l1 -> In b l2 -> comp_ge a b.
Proof.
  induction l1 as [|x t IH]; simpl; intros H.
  - split; [constructor|intros a b []].
  - inversion H as [|? ? Ht Hx]; subst.
    destruct (IH Ht) as [Hs Hc]. rewrite Forall_forall in Hx. split.
    + constructor; [exact Hs|].
      apply Forall_forall. intros a Ha. apply Hx, in_or_app. now left.
    + intros a b [<-|Ha] Hb; [|now apply Hc].
      apply Hx, in_or_app. now right.
Qed.

Lemma combine_seq_snd (A : Type) (l : list A) (a : nat) :
  map snd (combine (seq a (List.length l)) l) = l.
Proof.
  revert a. induction l as [|x t IH]; intros a; simpl; [reflexivity|].
  now rewrite IH.
Qed.

Lemma combine_seq_fst (A : Type) (l : list A) (a : nat) :
  map fst (combine (seq a (List.length l)) l) = seq a (List.length l).
Proof.
  revert a. induction l as [|x t IH]; intros a; simpl; [reflexivity|].
  now rewrite IH.
Qed.

Lemma top_rows (df : list fact) (y : Z) :
  map e_row (top_of_year df y) = nlargest 100 (filter (in_year y) df).
Proof.
  unfold top_of_year. rewrite map_map. simpl. apply combine_seq_snd.
Qed.

(** X21.  The list of a year in [top_earners.json] holds the
    min(100, n) best-paid of the n rows of the year, in descending order
    of [total_comp], ranked 1, 2, ... in that order: no row of the year
    left out of the list is paid more than a row in it.  A row without a
    [total_comp] ranks below every row that has one.  (How rows of equal
    [total_comp] are ordered plays no part in the statement.) *)
Theorem top_earners_ranked (df : list fact) (y : Z) :
  let top := top_of_year df y in
  List.length top = Nat.min 100 (List.length (filter (in_year y) df)) /\
  map rank top = map Z.of_nat (seq 1 (List.length top)) /\
  StronglySorted comp_ge (map e_row top) /\
  exists rest,
    Permutation (map e_row top ++ rest) (filter (in_year y) df) /\
    forall a b, In a (map e_row top) -> In b rest -> comp_ge a b.
Proof.
  intros top. unfold top.
  set (rows := filter (in_year y) df).
  set (ranked := sort_comp_desc (filter has_comp rows)
                 ++ filter (fun r => negb (has_comp r)) rows).
  assert (Hn : nlargest 100 rows = firstn 100 ranked) by reflexivity.
  assert (Hlen : List.length (top_of_year df y) = List.length (nlargest 100 rows)).
  { unfold rows. rewrite <- (top_rows df y). now rewrite length_map. }
  assert (Hsplit : ranked = nlargest 100 rows ++ skipn 100 ranked).
  { rewrite Hn. now rewrite firstn_skipn. }
  pose proof (ranked_rows_sorted rows) as Hs. fold ranked in Hs.
  rewrite Hsplit in Hs.
  destruct (sorted_app _ _ Hs) as [Htop Hrest].
  split; [|split; [|split]].
  - rewrite Hlen, Hn. rewrite length_firstn. unfold ranked.
    now rewrite (Permutation_length (ranked_rows_perm rows)).
  - unfold top_of_year. fold rows. rewrite map_map. simpl.
    rewrite <- (map_map fst Z.of_nat). rewrite combine_seq_fst.
    rewrite length_map, length_combine, length_seq, Nat.min_id. reflexivity.
  - rewrite top_rows. fold rows. exact Htop.
  - exists (skipn 100 ranked). rewrite top_rows. fold rows.
    split; [|exact Hrest].
    rewrite <- Hsplit. unfold ranked. apply ranked_rows_perm.
Qed.

Example top_earners_null_last :
  map (fun e => (person_id (e_row e), rank e))
      (top_of_year
         [ {| year := 2020; person_id := "a"; employer_id := 1; total_comp := NaN |};
           {| year := 2020; person_id := "b"; employer_id := 1;
              total_comp := Fin 120000 |};
           {| year := 2020; person_id := "c"; employer_id := 1;
              total_comp := Fin 300000 |} ] 2020)
  = [("c"%string, 1%Z); ("b"%string, 2%Z); ("a"%string, 3%Z)].
Proof. reflexivity. Qed.

End TopEarners.

(** ** Sector keys *)

Module Sector.
Import PyStr analytics_sector.

Lemma lower_char_lowercase (c : ascii) :
  is_az (normalize_jobs.lower_char c) = is_az c || is_AZ c.
Proof. destruct c as [[] [] [] [] [] [] [] []]; reflexivity. Qed.

Lemma upper_lower_char (c : ascii) :
  is_az c = false -> is_AZ c = true ->
  upper_char (normalize_jobs.lower_char c) = c.
Proof.
  destruct c as [[] [] [] [] [] [] [] []]; simpl; try discriminate; reflexivity.
Qed.

Lemma lower_char_fixed (c : ascii) :
  is_AZ c = false -> normalize_jobs.lower_char c = c.
Proof. unfold normalize_jobs.lower_char. now intros ->. Qed.

Lemma lowercase_not_upper (c : ascii) : is_az c = true -> is_AZ c = false.
Proof.
  destruct c as [[] [] [] [] [] [] [] []]; simpl; try discriminate; reflexivity.
Qed.

(** [title] reads the letters of a text without their case. *)
Lemma title_from_lower (s : chars) :
  forall p : bool, title_from p (normalize_jobs.lower s) = title_from p s.
Proof.
  induction s as [|c r IH]; intros p; [reflexivity|].
  unfold normalize_jobs.lower in *. cbn [map title_from].
  rewrite lower_char_lowercase.
  destruct (is_az c) eqn:Haz.
  - cbn [orb]. rewrite (lower_char_fixed c (lowercase_not_upper c Haz)).
    now rewrite IH.
  - cbn [orb]. destruct (is_AZ c) eqn:HAZ.
    + rewrite (upper_lower_char c Haz HAZ). now rewrite IH.
    + rewrite (lower_char_fixed c HAZ), HAZ. now rewrite IH.
Qed.

(** X25.  Sector names that differ only in the case of their letters get
    the same sector key, so their rows fall into one group of
    [sector_stats]. *)
Theorem sector_case_merged (s s' : string) :
  normalize_jobs.lower (of_string s) = normalize_jobs.lower (of_string s') ->
  sector_key s = sector_key s'.
Proof.
  intros H. unfold sector_key, title.
  rewrite <- (title_from_lower (of_string s)), H, title_from_lower.
  reflexivity.
Qed.

Lemma sector_case_merged_witness :
  sector_key "COLLEGES" = sector_key "Colleges" /\
  sector_key "Colleges" = "Colleges"%string.
Proof.
  split; [|reflexivity].
  apply (sector_case_merged "COLLEGES" "Colleges"). reflexivity.
Defined.

Example sector_key_words :
  sector_key " hospitals & boards of PUBLIC health " =
  "Hospitals & Boards Of Public Health"%string.
Proof. reflexivity. Qed.

(** *** The key of the overall summary *)

Lemma upper_char_cased (c : ascii) :
  is_az c = true -> is_az (upper_char c) = false /\ is_AZ (upper_char c) = true.
Proof.
  destruct c as [[] [] [] [] [] [] [] []]; simpl; try discriminate; auto.
Qed.

Lemma title_from_capitalized (s : chars) :
  forall p : bool, words_capitalized p (title_from p s).
Proof.
  induction s as [|c r IH]; intros p; [exact I|].
  cbn [title_from]. destruct (is_az c) eqn:Haz.
  - destruct p; cbn [words_capitalized].
    + rewrite Haz. split; [reflexivity|apply IH].
    + destruct (upper_char_cased c Haz) as [H1 H2]. rewrite H1, H2.
      split; [discriminate|apply IH].
  - destruct (is_AZ c) eqn:HAZ.
    + destruct p; cbn [words_capitalized].
      * rewrite lower_char_lowercase, Haz, HAZ. split; [reflexivity|apply IH].
      * rewrite Haz, HAZ. split; [discriminate|apply IH].
    + cbn [words_capitalized]. rewrite Haz, HAZ.
      split; [discriminate|apply IH].
Qed.

Lemma capitalized_factor (a s b : chars) :
  forall p : bool,
    words_capitalized p (a ++ s ++ b) ->
    exists q, words_capitalized q s.
Proof.
  induction a as [|c a IH]; intros p H.
  - exists p. simpl in H. revert p H. clear.
    induction s as [|c s IH]; intros p H; [exact I|].
    simpl in *. destruct H as [H1 H2]. split; [exact H1|]. now apply IH.
  - simpl in H. destruct H as [_ H]. now apply (IH _ H).
Qed.

Lemma lstrip_suffix (s : chars) : exists a, s = a ++ lstrip s.
Proof.
  induction s as [|c r [a IH]]; [now exists []|].
  simpl. destruct (is_space c).
  - exists (c :: a). simpl. now rewrite <- IH.
  - now exists [].
Qed.

Lemma strip_factor (s : chars) : exists a b, s = a ++ strip s ++ b.
Proof.
  unfold strip, rstrip.
  destruct (lstrip_suffix s) as [a Ha].
  destruct (lstrip_suffix (rev (lstrip s))) as [b Hb].
  exists a, (rev b). rewrite <- rev_app_distr, <- Hb, rev_involutive.
  exact Ha.
Qed.

(** X28.  No sector gets the key ["_overall"]: title-casing leaves no
    lower-case letter at the start of a word, so the summary that [main]
    stores under ["_overall"] never replaces the entry of a sector. *)
Theorem overall_key_free (sector : string) :
  sector_key sector <> "_overall"%string.
Proof.
  unfold sector_key. intros H.
  assert (E : strip (title (of_string sector)) = of_string "_overall").
  { rewrite <- H. unfold to_string, of_string.
    now rewrite list_ascii_of_string_of_list_ascii. }
  destruct (strip_factor (title (of_string sector))) as (a & b & Hf).
  pose proof (title_from_capitalized (of_string sector) false) as Hc.
  fold (title (of_string sector)) in Hc. rewrite Hf, E in Hc.
  destruct (capitalized_factor _ _ _ _ Hc) as [q Hq].
  simpl in Hq. destruct Hq as (_ & Ho & _).
  discriminate (Ho eq_refl).
Qed.

End Sector.

(** ** Alias suggestions *)

Module Aliases.
Import PyStr generate_alias_suggestions.

Example normalize_for_comparison_sample :
  map normalize_for_comparison
    ["The City of Toronto Inc."; "Corporation of the City of Toronto";
     "Theatre Incorporated"; "Hydro-One Ltd"]%string
  = ["CITY TORONTO"; "CITY TORONTO"; "THEATRE INCORPORATED"; "HYDROONE"]%string.
Proof. reflexivity. Qed.

Example find_similar_employers_sample :
  find_similar_employers
    ["City of Toronto"; "Toronto Hydro"; "The City of Toronto"; "";
     "City Of Toronto"; "City of Toronto"]%string
  = [ {| raw := "City of Toronto"; canonical := "THE CITY OF TORONTO";
         reason := "exact_normalized_match" |};
      {| raw := "City Of Toronto"; canonical := "THE CITY OF TORONTO";
         reason := "exact_normalized_match" |} ]%string.
Proof. reflexivity. Qed.

(** *** Distinct texts *)

Lemma distinct_from_spec (l : list string) :
  forall seen : list string,
    NoDup (normalize_employers.drop_duplicates_from seen l) /\
    forall x, In x (normalize_employers.drop_duplicates_from seen l) <->
              In x l /\ ~ In x seen.
Proof.
  induction l as [|a t IH]; intros seen; simpl.
  - split; [constructor|]. intros x. tauto.
  - destruct (existsb (String.eqb a) seen) eqn:E.
    + destruct (IH seen) as [Hnd Hin]. split; [exact Hnd|].
      intros x. rewrite Hin. split; [tauto|].
      intros [[<-|Hx] Hs]; [|tauto]. exfalso. apply Hs.
      apply existsb_exists in E. destruct E as (y & Hy & Ey).
      apply String.eqb_eq in Ey. now subst.
    + destruct (IH (a :: seen)) as [Hnd Hin]. split.
      * constructor; [|exact Hnd]. rewrite Hin. simpl. tauto.
      * intros x. simpl. rewrite Hin. simpl. split.
        -- intros [<-|[Hx Hs]]; [|tauto]. split; [now left|].
           intros Hs. assert (F : existsb (String.eqb a) seen = true);
             [|congruence].
           apply existsb_exists. exists a. split; [assumption|].
           apply String.eqb_refl.
        -- intros [[<-|Hx] Hs]; [now left|].
           destruct (String.eqb_spec a x) as [->|Hne]; [now left|].
           right. split; [assumption|]. intros [F|F]; [congruence|contradiction].
Qed.

Lemma distinct_nodup (l : list string) :
  NoDup (normalize_employers.drop_duplicates l).
Proof. apply distinct_from_spec. Qed.

Lemma distinct_in (l : list string) (x : string) :
  In x (normalize_employers.drop_duplicates l) <-> In x l.
Proof.
  unfold normalize_employers.drop_duplicates.
  rewrite (proj2 (distinct_from_spec l [])). simpl. tauto.
Qed.

(** *** The dictionary of variations *)

Lemma group_append_in (k v : string) (groups : list (string * list string)) :
  NoDup (map fst groups) ->
  forall (e : string) (vs : list string),
    In (e, vs) (group_append k v groups) ->
    (e <> k /\ In (e, vs) groups) \/
    (e = k /\
     ((exists vs0, In (e, vs0) groups /\ vs = vs0 ++ [v]) \/
      (~ In e (map fst groups) /\ vs = [v]))).
Proof.
  induction groups as [|[k0 ks] t IH]; simpl; intros Hnd e vs Hin.
  - destruct Hin as [[= <- <-]|[]]. right. split; [reflexivity|]. right. auto.
  - inversion Hnd as [|? ? Hk Ht]; subst.
    destruct (String.eqb_spec k0 k) as [E|E].
    + destruct Hin as [[= <- <-]|Hin].
      * right. split; [exact E|]. left. exists ks. auto.
      * left. split; [|auto]. intros ->. apply Hk. rewrite E.
        apply (in_map fst) in Hin. exact Hin.
    + destruct Hin as [[= <- <-]|Hin].
      * left. auto.
      * destruct (IH Ht e vs Hin) as [[H1 H2]|[H1 [(vs0 & H2 & H3)|[H2 H3]]]].
        -- left. auto.
        -- right. split; [exact H1|]. left. exists vs0. auto.
        -- right. split; [exact H1|]. right. split; [|exact H3].
           intros [Hek|Hin']; [congruence|contradiction].
Qed.

Lemma group_append_keys (k v : string) (groups : list (string * list string)) :
  (In k (map fst groups) /\
   map fst (group_append k v groups) = map fst groups) \/
  (~ In k (map fst groups) /\
   map fst (group_append k v groups) = map fst groups ++ [k]).
Proof.
  induction groups as [|[k0 ks] t IH]; simpl.
  - right. auto.
  - destruct (String.eqb_spec k0 k) as [E|E]; simpl.
    + left. auto.
    + destruct IH as [[H1 H2]|[H1 H2]]; rewrite H2.
      * left. auto.
      * right. split; [|reflexivity]. intros [Hk|Hin]; contradiction.
Qed.

Lemma nodup_snoc (k : string) (l : list string) :
  NoDup l -> ~ In k l -> NoDup (l ++ [k]).
Proof.
  induction 1 as [|a t Ha Ht IH]; simpl; intros Hk.
  - constructor; [intros []|constructor].
  - constructor.
    + intros Hin. apply in_app_or in Hin. destruct Hin as [Hin|[<-|[]]]; auto.
    + apply IH. auto.
Qed.

Lemma variations_snoc (k : string) (l : list string) (e : string) :
  variations_of k (l ++ [e])
  = variations_of k l
    ++ (if eligible e && String.eqb (normalize_for_comparison e) k
        then [e] else []).
Proof. unfold variations_of. now rewrite filter_app. Qed.

Lemma groups_spec (l : list string) :
  let groups :=
    fold_left (fun groups emp =>
      if String.eqb emp "" then groups
      else
        let normalized := normalize_for_comparison emp in
        if String.eqb normalized "" then groups
        else group_append normalized emp groups) l [] in
  NoDup (map fst groups) /\
  (forall k vs, In (k, vs) groups -> vs = variations_of k l /\ vs <> []) /\
  (forall e, In e l -> eligible e = true ->
             In (normalize_for_comparison e) (map fst groups)).
Proof.
  induction l as [|x l IH] using rev_ind; simpl.
  - split; [constructor|]. split; [intros k vs []|intros e []].
  - rewrite fold_left_app. simpl.
    set (groups := fold_left _ l []) in *.
    destruct IH as (Hnd & Hvs & Hcov).
    assert (Hel : eligible x
                  = negb (String.eqb x "")
                    && negb (String.eqb (normalize_for_comparison x) ""))
      by reflexivity.
    destruct (String.eqb x "") eqn:Ex;
      [|destruct (String.eqb (normalize_for_comparison x) "") eqn:En];
      simpl in Hel.
    + split; [exact Hnd|]. split.
      * intros k vs Hin. rewrite variations_snoc, Hel. simpl.
        rewrite app_nil_r. now apply Hvs.
      * intros e He Hee. apply in_app_or in He.
        destruct He as [He|[<-|[]]]; [now apply Hcov|congruence].
    + split; [exact Hnd|]. split.
      * intros k vs Hin. rewrite variations_snoc, Hel. simpl.
        rewrite app_nil_r. now apply Hvs.
      * intros e He Hee. apply in_app_or in He.
        destruct He as [He|[<-|[]]]; [now apply Hcov|congruence].
    + set (n := normalize_for_comparison x) in *.
      split; [|split].
      * destruct (group_append_keys n x groups) as [[_ E]|[Hk E]]; rewrite E;
          [assumption|now apply nodup_snoc].
      * intros k vs Hin. rewrite variations_snoc, Hel. cbn [andb].
        fold n.
        destruct (group_append_in n x groups Hnd k vs Hin)
          as [[H1 H2]|[H1 [(vs0 & H2 & H3)|[H2 H3]]]].
        -- destruct (Hvs k vs H2) as [E Hne].
           destruct (String.eqb_spec n k); [congruence|].
           now rewrite app_nil_r.
        -- destruct (Hvs k vs0 H2) as [E Hne]. subst k.
           rewrite String.eqb_refl, <- E, H3. split; [reflexivity|].
           now destruct vs0.
        -- subst k. rewrite String.eqb_refl.
           assert (Enil : variations_of n l = []).
           { destruct (variations_of n l) as [|r g] eqn:E; [reflexivity|].
             exfalso. apply H2.
             assert (Hr : In r (variations_of n l)) by (rewrite E; now left).
             apply filter_In in Hr. destruct Hr as [Hr Hk].
             apply andb_true_iff in Hk. destruct Hk as [Hre Hrn].
             apply String.eqb_eq in Hrn. rewrite <- Hrn. now apply Hcov. }
           rewrite Enil, H3. split; [reflexivity|discriminate].
      * intros e He Hee. apply in_app_or in He.
        destruct (group_append_keys n x groups) as [[Hk E]|[Hk E]]; rewrite E.
        -- destruct He as [He|[<-|[]]]; auto.
        -- apply in_or_app.
           destruct He as [He|[<-|[]]]; [left; auto|right; now left].
Qed.

(** *** The longest variation *)

Lemma longest_from (l : list string) :
  forall best : string,
    let r := fold_left (fun best x =>
               if (String.length best <? String.length x)%nat then x else best)
               l best in
    (r = best \/ In r l) /\
    (String.length best <= String.length r)%nat /\
    forall x, In x l -> (String.length x <= String.length r)%nat.
Proof.
  induction l as [|a t IH]; intros best; simpl.
  - split; [now left|]. split; [lia|intros x []].
  - destruct (String.length best <? String.length a)%nat eqn:E.
    + apply Nat.ltb_lt in E.
      destruct (IH a) as (H1 & H2 & H3). split; [|split].
      * destruct H1 as [->|H1]; auto.
      * lia.
      * intros x [<-|Hx]; auto.
    + apply Nat.ltb_ge in E.
      destruct (IH best) as (H1 & H2 & H3). split; [|split].
      * destruct H1 as [->|H1]; auto.
      * exact H2.
      * intros x [<-|Hx]; [lia|auto].
Qed.

Lemma longest_spec (vs : list string) :
  vs <> [] ->
  In (longest vs) vs /\
  forall x, In x vs -> (String.length x <= String.length (longest vs))%nat.
Proof.
  destruct vs as [|a t]; [congruence|]. intros _.
  unfold longest. simpl hd. simpl tl.
  destruct (longest_from t a) as (H1 & H2 & H3). split.
  - destruct H1 as [->|H1]; [now left|now right].
  - intros x [<-|Hx]; auto.
Qed.

Lemma suggestions_of_raw (vs : list string) :
  map raw (suggestions_of vs)
  = if (1 <? List.length vs)%nat
    then filter (fun v => negb (String.eqb v (longest vs))) vs else [].
Proof.
  unfold suggestions_of. destruct (1 <? List.length vs)%nat; [|reflexivity].
  generalize (longest vs) as c. intros c.
  induction vs as [|v t IH]; [reflexivity|].
  simpl. destruct (String.eqb v c); simpl; now rewrite IH.
Qed.

Lemma suggestions_of_in (vs : list string) (s : suggestion) :
  In s (suggestions_of vs) ->
  In (raw s) vs /\ raw s <> longest vs /\
  canonical s = string_upper (longest vs).
Proof.
  unfold suggestions_of. destruct (1 <? List.length vs)%nat; [|intros []].
  rewrite in_flat_map. intros (v & Hv & Hs).
  destruct (String.eqb_spec v (longest vs)) as [E|E]; [destruct Hs|].
  destruct Hs as [<-|[]]. simpl. auto.
Qed.

Lemma nodup_filter (A : Type) (p : A -> bool) (l : list A) :
  NoDup l -> NoDup (filter p l).
Proof.
  induction 1 as [|a t Ha Ht IH]; simpl; [constructor|].
  destruct (p a); [|exact IH].
  constructor; [|exact IH]. intros H. apply filter_In in H. tauto.
Qed.

Lemma nodup_flat_map_keyed (g : string * list string -> list string)
    (key : string -> string) (l : list (string * list string)) :
  NoDup (map fst l) ->
  (forall kv, In kv l ->
     NoDup (g kv) /\ forall x, In x (g kv) -> key x = fst kv) ->
  NoDup (flat_map g l).
Proof.
  induction l as [|kv t IH]; simpl; intros Hnd Hg; [constructor|].
  inversion Hnd as [|? ? Hk Ht]; subst.
  destruct (Hg kv (or_introl eq_refl)) as [Hn Hkey].
  assert (IHt : NoDup (flat_map g t)) by (apply IH; auto).
  clear IH. induction (g kv) as [|x u IHu]; simpl; [exact IHt|].
  inversion Hn as [|? ? Hx Hu]; subst.
  constructor.
  - intros Hin. apply in_app_or in Hin. destruct Hin as [Hin|Hin]; [contradiction|].
    apply in_flat_map in Hin. destruct Hin as (kv' & Hkv' & Hx').
    destruct (Hg kv' (or_intror Hkv')) as [_ Hkey'].
    apply Hk. rewrite <- (Hkey x (or_introl eq_refl)), (Hkey' x Hx').
    now apply in_map.
  - apply IHu; [exact Hu|]. intros y Hy. apply Hkey. now right.
Qed.

Lemma map_flat_map_raw (l : list (string * list string)) :
  map raw (flat_map (fun kv => suggestions_of (snd kv)) l)
  = flat_map (fun kv => map raw (suggestions_of (snd kv))) l.
Proof.
  induction l as [|kv t IH]; simpl; [reflexivity|].
  rewrite map_app. now f_equal.
Qed.

(** X26.  Every suggestion of [find_similar_employers] pairs a spelling
    of the [employer] column with the upper-cased form of another
    spelling of the column that has the same non-empty
    [normalize_for_comparison] and is at least as long (the canonical
    spelling is the longest of its group, not the most frequent); and no
    spelling is suggested as [raw] twice. *)
Theorem similar_employer_suggestions (employers : list string) :
  (forall s, In s (find_similar_employers employers) ->
     exists c,
       In c employers /\ In (raw s) employers /\ raw s <> c /\
       canonical s = string_upper c /\
       reason s = "exact_normalized_match"%string /\
       normalize_for_comparison (raw s) = normalize_for_comparison c /\
       normalize_for_comparison c <> ""%string /\
       (String.length (raw s) <= String.length c)%nat) /\
  NoDup (map raw (find_similar_employers employers)).
Proof.
  unfold find_similar_employers, normalized_groups.
  set (u := normalize_employers.drop_duplicates employers).
  destruct (groups_spec u) as (Hnd & Hvs & _).
  set (groups := fold_left _ u []) in *.
  assert (Hmem : forall k vs x, In (k, vs) groups -> In x vs ->
                   In x employers /\ normalize_for_comparison x = k /\ k <> ""%string).
  { intros k vs x Hin Hx. destruct (Hvs k vs Hin) as [E _]. rewrite E in Hx.
    apply filter_In in Hx. destruct Hx as [Hx Hk].
    apply andb_true_iff in Hk. destruct Hk as [He Hn].
    apply String.eqb_eq in Hn. split; [now apply distinct_in|].
    split; [exact Hn|]. intros ->.
    unfold eligible in He. apply andb_true_iff in He. destruct He as [_ He].
    rewrite Hn in He. discriminate. }
  split.
  - intros s Hs. apply in_flat_map in Hs. destruct Hs as ([k vs] & Hin & Hs).
    simpl in Hs.
    assert (Hreason : reason s = "exact_normalized_match"%string).
    { unfold suggestions_of in Hs.
      destruct (1 <? List.length vs)%nat; [|destruct Hs].
      apply in_flat_map in Hs. destruct Hs as (v & _ & Hs).
      destruct (String.eqb v (longest vs)); [destruct Hs|].
      destruct Hs as [<-|[]]. reflexivity. }
    destruct (suggestions_of_in vs s Hs) as (Hraw & Hne & Hcan).
    destruct (Hvs k vs Hin) as [_ Hnonempty].
    destruct (longest_spec vs Hnonempty) as [Hl Hlen].
    destruct (Hmem k vs (raw s) Hin Hraw) as (H1 & H2 & H3).
    destruct (Hmem k vs (longest vs) Hin Hl) as (H4 & H5 & _).
    exists (longest vs). repeat split; auto; congruence.
  - rewrite map_flat_map_raw.
    apply (nodup_flat_map_keyed _ normalize_for_comparison); [exact Hnd|].
    intros [k vs] Hin. simpl. rewrite suggestions_of_raw. split.
    + destruct (1 <? List.length vs)%nat; [|constructor].
      apply nodup_filter. destruct (Hvs k vs Hin) as [E _]. rewrite E.
      apply nodup_filter. apply distinct_nodup.
    + intros x Hx. destruct (1 <? List.length vs)%nat; [|destruct Hx].
      apply filter_In in Hx. destruct Hx as [Hx _].
      now destruct (Hmem k vs x Hin Hx).
Qed.

End Aliases.

(** ** Data validation *)

Module Validation.
Import PyFloat validate_data.

(** *** Salary anomalies *)

Lemma len_pos_nil (A : Type) (l : list A) : (0 <? len l)%Z = false <-> l = [].
Proof.
  unfold len. destruct l; simpl; split; intros H; try reflexivity;
    try discriminate.
Qed.

Lemma filter_nil_iff (A : Type) (p : A -> bool) (l : list A) :
  filter p l = [] <-> Forall (fun x => p x = false) l.
Proof.
  induction l as [|x t IH]; simpl.
  - split; [constructor|reflexivity].
  - destruct (p x) eqn:E.
    + split; [discriminate|]. intros H. inversion H; congruence.
    + rewrite IH. split; [now constructor|]. intros H. now inversion H.
Qed.

Lemma quiet_row (r : row) :
  (is_high r = false /\ is_zero r = false /\ is_low r = false)
  <-> in_band (total_comp r).
Proof.
  unfold is_high, is_zero, is_low, in_band, gt, le, lt.
  destruct (total_comp r) as [a| | |]; simpl.
  - split.
    + intros (H1 & H2 & H3). right. exists a. split; [reflexivity|].
      apply negb_false_iff, Qle_bool_iff in H1.
      rewrite H2 in H3. simpl in H3.
      apply negb_false_iff, Qle_bool_iff in H3. auto.
    + intros [H|(b & [= <-] & Hlo & Hhi)]; [discriminate|].
      assert (H0 : Qle_bool a 0 = false).
      { destruct (Qle_bool a 0) eqn:E; [|reflexivity].
        apply Qle_bool_iff in E.
        assert (Habs : 100000 <= 0) by (now apply (Qle_trans _ a)).
        exfalso. apply Habs. reflexivity. }
      split; [|split].
      * apply negb_false_iff. now apply Qle_bool_iff.
      * exact H0.
      * rewrite H0. simpl. apply negb_false_iff. now apply Qle_bool_iff.
  - split; [intros (H & _); discriminate|].
    intros [H|(b & H & _)]; discriminate.
  - split; [intros (_ & H & _); discriminate|].
    intros [H|(b & H & _)]; discriminate.
  - split; [now left|auto].
Qed.

(** X22.  [check_salary_anomalies] reports nothing exactly when every
    [total_comp] is null or a finite amount from 100,000 to 2,000,000:
    a null [total_comp] never raises a salary issue.  No row is counted
    by two of the three salary checks. *)
Theorem salary_checks_quiet_iff (df : list row) :
  (check_salary_anomalies df = [] <->
   Forall (fun r => in_band (total_comp r)) df) /\
  (forall r, is_high r && is_zero r = false /\
             is_high r && is_low r = false /\
             is_zero r && is_low r = false).
Proof.
  split.
  - assert (E : check_salary_anomalies df = [] <->
                filter is_high df = [] /\ filter is_zero df = [] /\
                filter is_low df = []).
    { unfold check_salary_anomalies. rewrite <- !len_pos_nil.
      destruct (0 <? len (filter is_high df))%Z,
               (0 <? len (filter is_zero df))%Z,
               (0 <? len (filter is_low df))%Z; simpl;
        split; try discriminate; try tauto;
        intros (H1 & H2 & H3); discriminate. }
    rewrite E, !filter_nil_iff, !Forall_forall. split.
    + intros (H1 & H2 & H3) r Hr. apply quiet_row. auto.
    + intros H. repeat split; intros r Hr; now apply quiet_row, H.
  - intros r. unfold is_high, is_zero, is_low, gt, le, lt.
    destruct (total_comp r) as [a| | |]; simpl; auto.
    destruct (Qle_bool a 2000000) eqn:E1, (Qle_bool a 0) eqn:E2,
             (Qle_bool 100000 a) eqn:E3; simpl; auto.
    + apply Qle_bool_iff in E2.
      assert (E : Qle_bool a 2000000 = true).
      { apply Qle_bool_iff. apply (Qle_trans _ 0); [assumption|discriminate]. }
      congruence.
    + apply Qle_bool_iff in E2.
      assert (E : Qle_bool a 2000000 = true).
      { apply Qle_bool_iff. apply (Qle_trans _ 0); [assumption|discriminate]. }
      congruence.
    + assert (E : Qle_bool 100000 a = true).
      { apply Qle_bool_iff. apply Qlt_le_weak.
        apply (Qlt_trans _ 2000000); [reflexivity|].
        apply Qnot_le_lt. intros H. apply Qle_bool_iff in H. congruence. }
      congruence.
Qed.

(** *** Duplicates *)

Lemma text_eqb_eq (a b : option string) : text_eqb a b = true <-> a = b.
Proof.
  destruct a as [x|], b as [y|]; simpl; try (split; congruence).
  rewrite String.eqb_eq. split; congruence.
Qed.

Lemma same_near_key (a b : row) : same_near a b = true <-> near_key a = near_key b.
Proof.
  unfold same_near, near_key.
  rewrite !andb_true_iff, !text_eqb_eq, Z.eqb_eq. split.
  - intros (((-> & ->) & ->) & ->). reflexivity.
  - intros [= -> -> -> ->]. auto.
Qed.

Lemma float_eqb_sym (x y : float) : float_eqb x y = float_eqb y x.
Proof.
  destruct x as [a| | |], y as [b| | |]; simpl; try reflexivity.
  destruct (Qeq_bool a b) eqn:E1, (Qeq_bool b a) eqn:E2; try reflexivity.
  - apply Qeq_bool_iff in E1. symmetry in E1. apply Qeq_bool_iff in E1. congruence.
  - apply Qeq_bool_iff in E2. symmetry in E2. apply Qeq_bool_iff in E2. congruence.
Qed.

Lemma float_eqb_trans (x y z : float) :
  float_eqb x y = true -> float_eqb y z = true -> float_eqb x z = true.
Proof.
  destruct x as [a| | |], y as [b| | |], z as [c| | |]; simpl;
    try discriminate; try reflexivity.
  rewrite !Qeq_bool_iff. intros H1 H2. now rewrite H1.
Qed.

Section Duplicated.

Variable same : row -> row -> bool.
Hypothesis same_sym : forall a b, same a b = same b a.
Hypothesis same_trans :
  forall a b c, same a b = true -> same b c = true -> same a c = true.

Lemma same_class (r x : row) :
  same r x = true -> forall z, same x z = same r z.
Proof.
  intros H z. destruct (same r z) eqn:E.
  - apply (same_trans x r z); [now rewrite same_sym|exact E].
  - destruct (same x z) eqn:E'; [|reflexivity].
    rewrite (same_trans r x z H E') in E. discriminate.
Qed.

Lemma filter_within (A : Type) (p q : A -> bool) (l : list A) :
  (forall x, In x l -> p x = true -> q x = true) ->
  filter p (filter q l) = filter p l.
Proof.
  induction l as [|x t IH]; simpl; intros H; [reflexivity|].
  destruct (q x) eqn:Eq; simpl.
  - destruct (p x); rewrite IH; auto.
  - destruct (p x) eqn:Ep.
    + rewrite (H x (or_introl eq_refl) Ep) in Eq. discriminate.
    + apply IH. auto.
Qed.

Lemma filter_length_le (A : Type) (p : A -> bool) (l : list A) :
  (List.length (filter p l) <= List.length l)%nat.
Proof.
  induction l as [|x t IH]; simpl; [lia|]. destruct (p x); simpl; lia.
Qed.

(** The rows flagged by [duplicated(keep=False)] are never one row. *)
Lemma duplicated_not_one (df : list row) :
  List.length (duplicated same df) <> 1%nat.
Proof.
  destruct (duplicated same df) as [|r t] eqn:E; [discriminate|].
  assert (Hr : In r (duplicated same df)) by (rewrite E; now left).
  unfold duplicated in Hr. apply filter_In in Hr. destruct Hr as [Hr H2].
  apply Nat.leb_le in H2.
  assert (Hsub : filter (same r) (duplicated same df) = filter (same r) df).
  { unfold duplicated. apply filter_within. intros x Hx Hs.
    apply Nat.leb_le.
    rewrite (filter_ext (same x) (same r) (same_class r x Hs)). exact H2. }
  pose proof (filter_length_le _ (same r) (duplicated same df)) as Hle.
  rewrite Hsub, E in Hle. rewrite <- E. rewrite E. simpl in *. lia.
Qed.

End Duplicated.

Lemma same_near_sym (a b : row) : same_near a b = same_near b a.
Proof.
  destruct (same_near a b) eqn:E1, (same_near b a) eqn:E2; try reflexivity.
  - apply same_near_key in E1. symmetry in E1. apply same_near_key in E1.
    congruence.
  - apply same_near_key in E2. symmetry in E2. apply same_near_key in E2.
    congruence.
Qed.

Lemma same_near_trans (a b c : row) :
  same_near a b = true -> same_near b c = true -> same_near a c = true.
Proof. rewrite !same_near_key. congruence. Qed.

Lemma same_exact_sym (a b : row) : same_exact a b = same_exact b a.
Proof.
  unfold same_exact. now rewrite same_near_sym, float_eqb_sym.
Qed.

Lemma same_exact_trans (a b c : row) :
  same_exact a b = true -> same_exact b c = true -> same_exact a c = true.
Proof.
  unfold same_exact. rewrite !andb_true_iff.
  intros [H1 H2] [H3 H4]. split.
  - now apply (same_near_trans a b c).
  - now apply (float_eqb_trans _ (total_comp b)).
Qed.

Lemma filter_length_mono (A : Type) (p q : A -> bool) (l : list A) :
  (forall x, p x = true -> q x = true) ->
  (List.length (filter p l) <= List.length (filter q l))%nat.
Proof.
  intros H. induction l as [|x t IH]; simpl; [lia|].
  destruct (p x) eqn:Ep.
  - rewrite (H x Ep). simpl. lia.
  - destruct (q x); simpl; lia.
Qed.

Lemma exact_within_near (df : list row) :
  (len (duplicated same_exact df) <= len (duplicated same_near df))%Z.
Proof.
  unfold len, duplicated. apply inj_le. apply filter_length_mono.
  intros r H. apply Nat.leb_le. apply Nat.leb_le in H.
  eapply Nat.le_trans; [exact H|].
  apply filter_length_mono. intros x Hx.
  unfold same_exact in Hx. apply andb_true_iff in Hx. tauto.
Qed.

(** X23.  Every row flagged as an exact duplicate is flagged as a near
    duplicate, so [near_only] is never negative; and neither check ever
    counts a single row: a count is 0 or at least 2. *)
Theorem near_duplicates_cover_exact (df : list row) :
  (0 <= len (duplicated same_near df) - len (duplicated same_exact df))%Z /\
  len (duplicated same_exact df) <> 1%Z /\
  len (duplicated same_near df) <> 1%Z.
Proof.
  split; [pose proof (exact_within_near df); lia|].
  pose proof (duplicated_not_one same_exact same_exact_sym
                same_exact_trans df) as H1.
  pose proof (duplicated_not_one same_near same_near_sym
                same_near_trans df) as H2.
  unfold len. split; lia.
Qed.

(** *** The severity counts *)

Lemma with_severity_app (s : string) (l1 l2 : list issue) :
  with_severity s (l1 ++ l2) = with_severity s l1 ++ with_severity s l2.
Proof. unfold with_severity. apply filter_app. Qed.

Lemma len_app (A : Type) (l1 l2 : list A) : len (l1 ++ l2) = (len l1 + len l2)%Z.
Proof. unfold len. rewrite length_app. lia. Qed.

Lemma counts_total (issues : list issue) :
  Forall (fun i => severity i = "high" \/ severity i = "medium" \/
                   severity i = "low" \/ severity i = "info")%string issues ->
  (high (count_issues issues) + medium (count_issues issues)
   + low (count_issues issues) + info (count_issues issues) = len issues)%Z.
Proof.
  unfold count_issues, with_severity, len. cbn -[Z.of_nat].
  induction 1 as [|i t Hi _ IH]; [reflexivity|].
  cbn [filter]. destruct Hi as [E|[E|[E|E]]]; rewrite E;
    cbn -[Z.of_nat]; rewrite ?Nat2Z.inj_succ; lia.
Qed.

Lemma null_issue_severity (field : string) (n e : Z) :
  Forall (fun i => severity i = "high" \/ severity i = "medium" \/
                   severity i = "low" \/ severity i = "info")%string
         (null_issue field n e).
Proof.
  unfold null_issue. destruct ((0 <? n)%Z || (0 <? e)%Z); [|constructor].
  constructor; [|constructor]. simpl.
  destruct (String.eqb field "total_comp" || String.eqb field "year"); auto.
Qed.

Lemma all_issues_severity (df : list row) :
  Forall (fun i => severity i = "high" \/ severity i = "medium" \/
                   severity i = "low" \/ severity i = "info")%string
         (all_issues df).
Proof.
  unfold all_issues.
  apply Forall_app; split; [|apply Forall_app; split; [|apply Forall_app; split]].
  - unfold check_null_values, text_issue.
    repeat (apply Forall_app; split); apply null_issue_severity.
  - unfold check_salary_anomalies. cbv zeta.
    repeat (apply Forall_app; split);
      match goal with |- Forall _ (if ?c then _ else _) =>
        destruct c; [constructor; [simpl; auto|constructor]|constructor] end.
  - unfold check_year_consistency.
    destruct (large_drops df); [constructor|].
    constructor; [simpl; auto|constructor].
  - unfold check_duplicates. cbv zeta.
    repeat (apply Forall_app; split);
      match goal with |- Forall _ (if ?c then _ else _) =>
        destruct c; [constructor; [simpl; auto|constructor]|constructor] end.
Qed.

Lemma high_null_issue (field : string) (n e : Z) :
  with_severity "high" (null_issue field n e)
  = if String.eqb field "total_comp" || String.eqb field "year"
    then null_issue field n e else [].
Proof.
  unfold null_issue, with_severity.
  destruct ((0 <? n)%Z || (0 <? e)%Z); simpl.
  - destruct (String.eqb field "total_comp" || String.eqb field "year");
      reflexivity.
  - now destruct (String.eqb field "total_comp" || String.eqb field "year").
Qed.

Lemma high_issues (df : list row) :
  with_severity "high" (all_issues df)
  = null_issue "total_comp"
      (len (filter (fun x => negb (notna x)) (map total_comp df))) 0
    ++ (if (0 <? len (duplicated same_exact df))%Z
        then [exact_duplicates (len (duplicated same_exact df))
                (ngroups (duplicated same_exact df))]
        else []).
Proof.
  assert (E1 : with_severity "high" (check_null_values df)
               = null_issue "total_comp"
                   (len (filter (fun x => negb (notna x)) (map total_comp df))) 0).
  { unfold check_null_values, text_issue. rewrite !with_severity_app.
    rewrite !high_null_issue. simpl. now rewrite app_nil_r. }
  assert (E2 : with_severity "high" (check_salary_anomalies df) = []).
  { unfold check_salary_anomalies. cbv zeta. rewrite !with_severity_app.
    repeat match goal with |- context [if ?c then _ else _] =>
      destruct c end; reflexivity. }
  assert (E3 : with_severity "high" (check_year_consistency df) = []).
  { unfold check_year_consistency. now destruct (large_drops df). }
  assert (E4 : with_severity "high" (check_duplicates df)
               = if (0 <? len (duplicated same_exact df))%Z
                 then [exact_duplicates (len (duplicated same_exact df))
                         (ngroups (duplicated same_exact df))]
                 else []).
  { unfold check_duplicates. cbv zeta. rewrite with_severity_app.
    repeat match goal with |- context [if ?c then _ else _] =>
      destruct c end; reflexivity. }
  unfold all_issues. rewrite !with_severity_app, E1, E2, E3, E4. reflexivity.
Qed.

(** X24.  Every issue that [main] collects is counted under exactly one
    of the four severities, so the four entries of [issue_counts] add up
    to the number of issues; and an issue of severity [high] arises only
    from a null [total_comp] or from exact duplicates. *)
Theorem severity_counts_total (df : list row) :
  let c := count_issues (all_issues df) in
  (high c + medium c + low c + info c = len (all_issues df))%Z /\
  ((0 < high c)%Z <->
   (exists r, In r df /\ total_comp r = NaN) \/ duplicated same_exact df <> []).
Proof.
  intros c. split; [apply counts_total, all_issues_severity|].
  unfold c, count_issues. simpl. rewrite high_issues, len_app.
  set (nulls := filter (fun x => negb (notna x)) (map total_comp df)).
  assert (Hn : nulls <> [] <-> exists r, In r df /\ total_comp r = NaN).
  { unfold nulls. split.
    - intros H. destruct (filter _ (map total_comp df)) as [|x t] eqn:E;
        [congruence|].
      assert (Hx : In x (filter (fun x => negb (notna x)) (map total_comp df)))
        by (rewrite E; now left).
      apply filter_In in Hx. destruct Hx as [Hx Hna].
      apply in_map_iff in Hx. destruct Hx as (r & <- & Hr).
      exists r. split; [assumption|]. now destruct (total_comp r).
    - intros (r & Hr & E) H.
      assert (Hx : In NaN (filter (fun x => negb (notna x)) (map total_comp df))).
      { apply filter_In. split; [|reflexivity]. rewrite <- E. now apply in_map. }
      rewrite H in Hx. destruct Hx. }
  rewrite <- Hn. unfold null_issue. rewrite orb_false_r.
  destruct nulls as [|x t]; destruct (duplicated same_exact df) as [|d u];
    simpl; split; intros H;
    try (unfold len in *; simpl in *; lia);
    try (destruct H; congruence);
    try (left; discriminate); right; discriminate.
Qed.

Example duplicates_sample :
  check_duplicates
    [mkrow "Ann" "Lee" "Hydro One" 100000 2020;
     mkrow "Ann" "Lee" "Hydro One" 120000 2020;
     mkrow "Ann" "Lee" "Hydro One" 100000 2020]
  = [exact_duplicates 2 1; same_person_employer_year 1].
Proof. reflexivity. Qed.

Example null_comp_sample :
  map severity
    (all_issues
       [mkrow "Ann" "Lee" "Hydro One" 150000 2020;
        {| first_name := Some "Bo"%string; last_name := None;
           employer_canonical := Some "Hydro One"%string;
           total_comp := NaN; year := 2020 |}])
  = ["medium"; "high"]%string.
Proof. reflexivity. Qed.

(** *** Headcount drops *)

Lemma drop_mask_counts (df : list row) (prev curr : Z) (e : string) :
  drop_mask df prev curr e = true <->
  (50 <= pivot_cell df e prev)%Z /\
  (2 * pivot_cell df e curr < pivot_cell df e prev)%Z /\
  (0 < pivot_cell df e curr)%Z.
Proof.
  unfold drop_mask.
  set (p := pivot_cell df e prev). set (c := pivot_cell df e curr).
  rewrite !andb_true_iff, !negb_true_iff.
  assert (H1 : Qle_bool 50 (inject_Z p) = true <-> (50 <= p)%Z).
  { rewrite Qle_bool_iff. unfold Qle, inject_Z. simpl. lia. }
  assert (H2 : Qle_bool (inject_Z p * 0.5) (inject_Z c) = false
               <-> (2 * c < p)%Z).
  { split.
    - intros H. destruct (Z_lt_le_dec (2 * c) p) as [Hlt|Hge]; [exact Hlt|].
      assert (F : Qle_bool (inject_Z p * 0.5) (inject_Z c) = true);
        [|congruence].
      apply Qle_bool_iff. unfold Qle, Qmult, inject_Z. simpl. lia.
    - intros H. destruct (Qle_bool (inject_Z p * 0.5) (inject_Z c)) eqn:E;
        [|reflexivity].
      apply Qle_bool_iff in E. unfold Qle, Qmult, inject_Z in E. simpl in E. lia. }
  assert (H3 : Qle_bool (inject_Z c) 0 = false <-> (0 < c)%Z).
  { split.
    - intros H. destruct (Z_lt_le_dec 0 c) as [Hlt|Hge]; [exact Hlt|].
      assert (F : Qle_bool (inject_Z c) 0 = true); [|congruence].
      apply Qle_bool_iff. unfold Qle, inject_Z. simpl. lia.
    - intros H. destruct (Qle_bool (inject_Z c) 0) eqn:E; [|reflexivity].
      apply Qle_bool_iff in E. unfold Qle, inject_Z in E. simpl in E. lia. }
  rewrite H1, H2, H3. tauto.
Qed.

Lemma column_pairs_sorted (l : list Z) :
  StronglySorted Z.lt l ->
  NoDup (map snd (column_pairs l)) /\
  forall prev curr, In (prev, curr) (column_pairs l) ->
    (prev < curr)%Z /\ In prev l /\ In curr l /\
    forall y, In y l -> ~ (prev < y < curr)%Z.
Proof.
  unfold column_pairs.
  induction 1 as [|a t Ht IH Ha]; simpl; [split; [constructor|intros ? ? []]|].
  destruct t as [|b u]; simpl; [split; [constructor|intros ? ? []]|].
  simpl in IH. destruct IH as [Hnd Hp].
  inversion Ht as [|? ? Hu Hb]; subst.
  rewrite Forall_forall in Ha, Hb. split.
  - constructor; [|exact Hnd]. intros Hin. apply in_map_iff in Hin.
    destruct Hin as ([p c] & Ec & Hin). simpl in Ec. subst c.
    destruct (Hp p b Hin) as (Hlt & Hpin & _).
    destruct Hpin as [<-|Hpin]; [lia|]. apply Hb in Hpin. lia.
  - intros prev curr [[= <- <-]|Hin].
    + split; [apply Ha; now left|]. split; [now left|].
      split; [right; now left|].
      intros y [<-|[<-|Hy]]; [lia|lia|]. apply Hb in Hy. lia.
    + destruct (Hp prev curr Hin) as (H1 & H2 & H3 & H4).
      split; [exact H1|]. split; [now right|]. split; [now right|].
      intros y [<-|Hy]; [|now apply H4].
      assert (a < prev)%Z by (now apply Ha). lia.
Qed.

Lemma insert_uniq_members (z : Z) (u : list Z) :
  forall x, In x (analytics.insert_uniq z u) -> x = z \/ In x u.
Proof.
  induction u as [|w u IH]; simpl; intros x.
  - intros [<-|[]]. now left.
  - destruct (z ?= w)%Z; simpl.
    + intros [<-|H]; auto.
    + intros [<-|[<-|H]]; auto.
    + intros [<-|H]; auto. destruct (IH x H); auto.
Qed.

Lemma insert_uniq_increasing (z : Z) (s : list Z) :
  StronglySorted Z.lt s -> StronglySorted Z.lt (analytics.insert_uniq z s).
Proof.
  induction 1 as [|y u Hu IH Hy]; simpl; [repeat constructor|].
  destruct (Z.compare_spec z y) as [->|H|H].
  - now constructor.
  - constructor; [now constructor|]. constructor; [assumption|].
    eapply Forall_impl; [|exact Hy]. intros; lia.
  - constructor; [assumption|].
    apply Forall_forall. intros x Hx.
    destruct (insert_uniq_members z u x Hx) as [->|Hx']; [lia|].
    rewrite Forall_forall in Hy. now apply Hy.
Qed.

Lemma pivot_columns_sorted (df : list row) :
  StronglySorted Z.lt (pivot_columns df).
Proof.
  unfold pivot_columns, analytics.sorted_unique.
  induction (map year (grouped_rows df)) as [|z t IH]; simpl; [constructor|].
  now apply insert_uniq_increasing.
Qed.

Lemma drops_of_year (f : Z * Z -> list drop) (y : Z) (pairs : list (Z * Z)) :
  NoDup (map snd pairs) ->
  (forall pc d, In d (f pc) -> d_year d = snd pc) ->
  (forall pc, (List.length (f pc) <= 5)%nat) ->
  (List.length (filter (fun d => (d_year d =? y)%Z) (flat_map f pairs)) <= 5)%nat.
Proof.
  intros Hnd Hy H5.
  induction pairs as [|pc t IH]; cbn [flat_map]; [simpl; lia|].
  cbn [map] in Hnd. inversion Hnd as [|? ? Hc Ht]; subst.
  rewrite filter_app, length_app.
  destruct (Z.eqb_spec (snd pc) y) as [E|E].
  - assert (Hrest : filter (fun d => (d_year d =? y)%Z) (flat_map f t) = []).
    { apply filter_nil_iff. apply Forall_forall. intros d Hd.
      apply in_flat_map in Hd. destruct Hd as (pc' & Hpc & Hd).
      apply Z.eqb_neq. intros Ed. apply Hc.
      rewrite E, <- Ed, (Hy pc' d Hd). now apply in_map. }
    rewrite Hrest. simpl. rewrite Nat.add_0_r.
    eapply Nat.le_trans; [apply filter_length_le|apply H5].
  - assert (Hhere : filter (fun d => (d_year d =? y)%Z) (f pc) = []).
    { apply filter_nil_iff. apply Forall_forall. intros d Hd.
      apply Z.eqb_neq. now rewrite (Hy pc d Hd). }
    rewrite Hhere. simpl. now apply IH.
Qed.

(** X27.  A headcount drop is reported for an employer and a year only
    against the previous year that has rows at all: the employer has at
    least 50 rows in that previous year and, in the year reported, at
    least one row but fewer than half as many, so an employer that
    vanishes altogether is not reported.  At most 5 drops are reported
    for one year, and the issue keeps at most 10 samples while its count
    is that of all drops. *)
Theorem reported_drops (df : list row) :
  (forall d, In d (large_drops df) ->
     exists prev,
       In prev (pivot_columns df) /\ In (d_year d) (pivot_columns df) /\
       (prev < d_year d)%Z /\
       (forall y, In y (pivot_columns df) -> ~ (prev < y < d_year d)%Z) /\
       prev_count d = pivot_cell df (d_employer d) prev /\
       curr_count d = pivot_cell df (d_employer d) (d_year d) /\
       (50 <= prev_count d)%Z /\ (0 < curr_count d)%Z /\
       (2 * curr_count d < prev_count d)%Z) /\
  (forall y,
     (List.length (filter (fun d => (d_year d =? y)%Z) (large_drops df)) <= 5)%nat) /\
  (forall n samples,
     In (large_headcount_drops n samples) (check_year_consistency df) ->
     n = len (large_drops df) /\ samples = firstn 10 (large_drops df) /\
     (0 < n)%Z).
Proof.
  destruct (column_pairs_sorted _ (pivot_columns_sorted df)) as [Hnd Hp].
  split; [|split].
  - intros d Hd. unfold large_drops in Hd. apply in_flat_map in Hd.
    destruct Hd as ([prev curr] & Hpc & Hd).
    apply in_map_iff in Hd. destruct Hd as (e & <- & He). simpl.
    destruct (Hp prev curr Hpc) as (H1 & H2 & H3 & H4).
    assert (Hm : In e (filter (drop_mask df prev curr) (pivot_index df))).
    { revert He. generalize (filter (drop_mask df prev curr) (pivot_index df)).
      intros l. generalize 5%nat. intros n. revert l.
      induction n as [|n IH]; intros [|x l]; simpl; try tauto.
      intros [<-|H]; [now left|right; now apply IH]. }
    apply filter_In in Hm. destruct Hm as [_ Hm].
    apply drop_mask_counts in Hm. destruct Hm as (M1 & M2 & M3).
    exists prev. repeat split; auto.
  - intros y. unfold large_drops. apply drops_of_year; [exact Hnd| |].
    + intros [prev curr] d Hd. apply in_map_iff in Hd.
      destruct Hd as (e & <- & _). reflexivity.
    + intros [prev curr]. rewrite length_map, length_firstn. lia.
  - intros n samples Hin. unfold check_year_consistency in Hin.
    destruct (large_drops df) as [|d t] eqn:E; [destruct Hin|].
    destruct Hin as [[= <- <-]|[]].
    split; [reflexivity|]. split; [reflexivity|].
    unfold len. cbn [List.length]. lia.
Qed.

End Validation.

(** ** Pipeline orchestration *)

Module Pipeline.
Import run_pipeline.

Lemma execute_all_ok (ex : string -> bool) (rc : string -> option Z) (l : list stage) :
  Forall (fun s => run_stage ex rc s = true) l ->
  execute ex rc l = (map stage_name l, []).
Proof.
  induction 1 as [|s t Hs _ IH]; simpl; [reflexivity|].
  now rewrite Hs, IH.
Qed.

Lemma execute_failed_cases (ex : string -> bool) (rc : string -> option Z) (l : list stage) :
  (snd (execute ex rc l) = [] /\ Forall (fun s => run_stage ex rc s = true) l) \/
  (snd (execute ex rc l) <> [] /\ ~ Forall (fun s => run_stage ex rc s = true) l).
Proof.
  induction l as [|s t IH]; simpl.
  - left. split; [reflexivity|constructor].
  - destruct (run_stage ex rc s) eqn:Hs.
    + destruct (execute ex rc t) as [reached failed]; simpl in *.
      destruct IH as [[E F]|[E F]].
      * left. split; [exact E|]. now constructor.
      * right. split; [exact E|]. intros H. inversion H; subst. now apply F.
    + right. split; [discriminate|]. intros H. inversion H; subst. congruence.
Qed.

(** X16. The loop stops at the first stage that fails: the stages before
    it have all been handed to [run_stage], the failed stage is the last
    one reached and the only one recorded in [failed_stages], and no
    stage after it is reached. *)
Theorem halts_at_first_failure
    (ex : string -> bool) (rc : string -> option Z)
    (before : list stage) (s : stage) (after : list stage) :
  Forall (fun x => run_stage ex rc x = true) before ->
  run_stage ex rc s = false ->
  execute ex rc (before ++ s :: after)
  = (map stage_name before ++ [stage_name s], [stage_name s]).
Proof.
  intros Hb Hs. induction Hb as [|x t Hx _ IH]; simpl.
  - now rewrite Hs.
  - now rewrite Hx, IH.
Qed.

Lemma halts_at_first_failure_witness :
  execute (fun _ => true) sample_returncode
    (firstn 3 PIPELINE_STAGES ++ nth 3 PIPELINE_STAGES ("", "", "")%string
       :: skipn 4 PIPELINE_STAGES)
  = (map stage_name (firstn 3 PIPELINE_STAGES) ++ ["link_persons"%string],
     ["link_persons"%string]).
Proof.
  apply (halts_at_first_failure (fun _ => true) sample_returncode
           (firstn 3 PIPELINE_STAGES) (nth 3 PIPELINE_STAGES ("", "", "")%string)
           (skipn 4 PIPELINE_STAGES)).
  - repeat constructor.
  - reflexivity.
Defined.

(** X17. The exit code of [main] is 0 exactly when the command line
    names known stages and every selected stage succeeds (a stage whose
    script is missing counts as a success); otherwise it is 1. *)
Theorem exit_code_zero_iff
    (ex : string -> bool) (rc : string -> option Z) (a : args) :
  (snd (main ex rc a) = 0%Z <->
   exists l, stages_to_run a = Some l /\
             Forall (fun s => run_stage ex rc s = true) l) /\
  (snd (main ex rc a) = 0%Z \/ snd (main ex rc a) = 1%Z).
Proof.
  unfold main. destruct (stages_to_run a) as [l|]; simpl.
  - destruct (execute_failed_cases ex rc l) as [[E F]|[E F]];
      destruct (execute ex rc l) as [reached failed]; simpl in *.
    + subst failed. split; [|now left]. split; [|reflexivity].
      intros _. now exists l.
    + destruct failed as [|f fs]; [congruence|]. split; [|now right].
      split; [discriminate|]. intros [l' [El Hl]]. injection El as <-. contradiction.
  - split; [|now right]. split; [discriminate|]. intros [l [El _]]. discriminate.
Qed.

Lemma sorted_map_filter (A : Type) (p : A -> nat) (f : A -> bool) (l : list A) :
  StronglySorted lt (map p l) -> StronglySorted lt (map p (filter f l)).
Proof.
  induction l as [|x t IH]; simpl; intros H; [constructor|].
  inversion H as [|? ? Ht Hx]; subst.
  destruct (f x); [|now apply IH].
  simpl. constructor; [now apply IH|].
  rewrite Forall_forall in *. intros y Hy. apply Hx.
  rewrite in_map_iff in *. destruct Hy as [z [Ez Hz]].
  exists z. split; [exact Ez|]. now apply filter_In in Hz.
Qed.

Lemma sorted_map_skipn (A : Type) (p : A -> nat) (i : nat) (l : list A) :
  StronglySorted lt (map p l) -> StronglySorted lt (map p (skipn i l)).
Proof.
  revert l. induction i as [|i IH]; intros [|x t] H; simpl; try exact H.
  apply IH. now inversion H.
Qed.

Lemma pipeline_positions_sorted : StronglySorted lt (map position PIPELINE_STAGES).
Proof.
  vm_compute. repeat (constructor; [|repeat constructor]). constructor.
Qed.

Lemma stages_to_run_shape (a : args) (l : list stage) :
  stages_to_run a = Some l ->
  exists (f : stage -> bool) (i : nat), l = filter f (skipn i PIPELINE_STAGES).
Proof.
  unfold stages_to_run.
  assert (Hskip : forall (c : list stage) (f : stage -> bool) (i : nat),
             c = filter f (skipn i PIPELINE_STAGES) ->
             exists (g : stage -> bool) (j : nat),
               (if skip_validation a
                then filter (fun s => negb (named "validate" s)) c else c)
               = filter g (skipn j PIPELINE_STAGES)).
  { intros c f i ->. destruct (skip_validation a).
    - exists (fun s => f s && negb (named "validate" s)), i.
      induction (skipn i PIPELINE_STAGES) as [|x t IH]; [reflexivity|].
      simpl. destruct (f x); simpl; [|exact IH].
      destruct (negb (named "validate" x)); simpl; now rewrite IH.
    - now exists f, i. }
  assert (Hall : forall c : list stage, c = filter (fun _ => true) c).
  { induction c as [|x t IH]; simpl; [reflexivity|now rewrite <- IH]. }
  destruct (validate_only a).
  - cbn [option_map]. intros E. injection E as <-.
    exact (Hskip (filter (named "validate") PIPELINE_STAGES) (named "validate") 0%nat eq_refl).
  - destruct (given (arg_stage a)) as [n|].
    + destruct (filter (named n) PIPELINE_STAGES) as [|x t] eqn:Ef.
      * discriminate.
      * cbn [option_map]. intros E. injection E as <-.
        exact (Hskip (x :: t) (named n) 0%nat (eq_sym Ef)).
    + destruct (given (from_stage a)) as [n|].
      * destruct (index_of n PIPELINE_STAGES) as [i|]; [|discriminate].
        cbn [option_map]. intros E. injection E as <-.
        exact (Hskip (skipn i PIPELINE_STAGES) (fun _ => true) i (Hall _)).
      * cbn [option_map]. intros E. injection E as <-.
        exact (Hskip PIPELINE_STAGES (fun _ => true) 0%nat (Hall _)).
Qed.

(** X18. Whatever the command line, the stages selected by [main] are
    stages of [PIPELINE_STAGES], in pipeline order and none twice: their
    positions in [PIPELINE_STAGES] increase strictly. *)
Theorem stages_in_pipeline_order (a : args) (l : list stage) :
  stages_to_run a = Some l ->
  incl l PIPELINE_STAGES /\ StronglySorted lt (map position l).
Proof.
  intros H. destruct (stages_to_run_shape a l H) as [f [i ->]]. split.
  - intros x Hx. apply filter_In in Hx. destruct Hx as [Hx _].
    rewrite <- (firstn_skipn i PIPELINE_STAGES). apply in_or_app. now right.
  - apply sorted_map_filter, sorted_map_skipn, pipeline_positions_sorted.
Qed.

Lemma stages_in_pipeline_order_witness :
  incl (skipn 5 PIPELINE_STAGES) PIPELINE_STAGES /\
  StronglySorted lt (map position (skipn 5 PIPELINE_STAGES)).
Proof.
  apply (stages_in_pipeline_order
           {| arg_stage := None; from_stage := Some "validate"%string;
              validate_only := false; skip_validation := true |}).
  reflexivity.
Defined.

End Pipeline.
